(** * Threaded Coulomb pair styles of LAMMPS (USER-OPENMP):
      coul/debye/omp and coul/diel/omp

    A shallow embedding of [src/USER-OPENMP/pair_coul_debye_omp.cpp] and
    [src/USER-OPENMP/pair_coul_diel_omp.cpp].

    - A C++ [double] is a value of a type [D] carrying the operations of the
      class [Double]: the four arithmetic operations, unary minus, the
      comparison [<] and the three [math.h] functions the kernels call.  The
      kernels are written once over that interface, with the association of
      every expression as the C++ parser reads it, and are run on two
      instances: the real numbers (exact arithmetic) and binary64.
    - A C++ [int] is a [Z]; indices are converted at the array access.
    - Per-atom arrays are lists, read with total lookup and written with
      list insert; two-dimensional per-type tables are functions of the two
      type indices with pointwise update.
    - [error->all] aborts the run: a fallible method returns a [result].
    - Methods of the base classes and of the surrounding engine that are not
      part of the two files are the fields of the class [Engine]. *)

From Stdlib Require Import ZArith Bool Reals Lra Lia Floats.
From stdpp Require Import base option list strings.

Local Open Scope Z_scope.

(** ** Doubles *)

Declare Scope dbl_scope.
Delimit Scope dbl_scope with dbl.

Class Double (D : Type) := {
  d_zero : D;                  (* 0.0 *)
  d_one : D;                   (* 1.0 *)
  d_half : D;                  (* 0.5 *)
  d_5_2 : D;                   (* 5.2 *)
  dadd : D -> D -> D;
  dsub : D -> D -> D;
  dmul : D -> D -> D;
  ddiv : D -> D -> D;
  dneg : D -> D;
  dlt : D -> D -> bool;
  dsqrt : D -> D;              (* math.h sqrt *)
  dexp : D -> D;               (* math.h exp *)
  dtanh : D -> D               (* math.h tanh *)
}.

Infix "+" := dadd : dbl_scope.
Infix "-" := dsub : dbl_scope.
Infix "*" := dmul : dbl_scope.
Infix "/" := ddiv : dbl_scope.
Notation "- x" := (dneg x) : dbl_scope.
Infix "<?" := dlt : dbl_scope.

(** Exact real arithmetic. *)
Definition Rltb (a b : R) : bool := if Rlt_dec a b then true else false.

#[export] Instance DoubleR : Double R := {|
  d_zero := 0%R; d_one := 1%R; d_half := (1/2)%R; d_5_2 := (52/10)%R;
  dadd := Rplus; dsub := Rminus; dmul := Rmult; ddiv := Rdiv; dneg := Ropp;
  dlt := Rltb; dsqrt := R_sqrt.sqrt; dexp := Rtrigo_def.exp;
  dtanh := Rtrigo_def.tanh
|}.

(** binary64, the arithmetic of the hardware.  [sqrt] is the IEEE operation;
    [exp] and [tanh] belong to the C library and are taken as given. *)
Definition DoubleF (libm_exp libm_tanh : float -> float) : Double float := {|
  d_zero := 0%float; d_one := 1%float; d_half := 0.5%float;
  d_5_2 := 0x1.4cccccccccccdp+2%float;   (* the double nearest to 5.2 *)
  dadd := PrimFloat.add; dsub := PrimFloat.sub; dmul := PrimFloat.mul;
  ddiv := PrimFloat.div; dneg := PrimFloat.opp;
  dlt := PrimFloat.ltb; dsqrt := PrimFloat.sqrt; dexp := libm_exp; dtanh := libm_tanh
|}.

(** ** Results of fallible methods *)

Inductive result (X : Type) : Type :=
| Ok (v : X)
| Err (msg : string).
Arguments Ok {X} v.
Arguments Err {X} msg.

(** ** Arrays *)

(** [double v[3]] *)
Record Vec3 (D : Type) := mkVec3 { v0 : D; v1 : D; v2 : D }.
Arguments mkVec3 {D} _ _ _.
Arguments v0 {D} _.
Arguments v1 {D} _.
Arguments v2 {D} _.

#[export] Instance Vec3_inhabited `{Double D} : Inhabited (Vec3 D) :=
  populate (mkVec3 d_zero d_zero d_zero).
#[export] Instance Double_inhabited `{Double D} : Inhabited D :=
  populate d_zero.

(** [a[i]] and [a[i] = v] on a per-atom array.  C++ leaves an access outside
    the array undefined; here a read past the end returns the default
    element, a write past the end changes nothing, and a negative index is
    taken as 0.  The theorems that read an element back assume the index in
    range. *)
Definition rd {X} `{Inhabited X} (a : list X) (i : Z) : X := a !!! Z.to_nat i.
Definition wr {X} (a : list X) (i : Z) (v : X) : list X := <[Z.to_nat i := v]> a.

(** A table [t[i][j]] indexed by two atom types. *)
Definition table (X : Type) : Type := Z -> Z -> X.
Definition tset {X} (t : table X) (i j : Z) (v : X) : table X :=
  fun a b => if (a =? i) && (b =? j) then v else t a b.

(** [for (k = lo; k < hi; k++)] and [for (k = lo; k <= hi; k++)]. *)
Definition for_lt {S} (lo hi : Z) (body : S -> Z -> S) (s : S) : S :=
  foldl body s (seqZ lo (hi - lo)).
Definition for_le {S} (lo hi : Z) (body : S -> Z -> S) (s : S) : S :=
  foldl body s (seqZ lo (hi + 1 - lo)).

(** [f[i][k] += d[k]*fpair] and [f[j][k] -= d[k]*fpair], for k = 0, 1, 2. *)
Definition f_add `{Double D} (f : list (Vec3 D)) (i : Z) (delx dely delz fpair : D)
  : list (Vec3 D) :=
  let fi := rd f i in
  wr f i (mkVec3 (v0 fi + delx * fpair) (v1 fi + dely * fpair)
                 (v2 fi + delz * fpair))%dbl.
Definition f_sub `{Double D} (f : list (Vec3 D)) (j : Z) (delx dely delz fpair : D)
  : list (Vec3 D) :=
  let fj := rd f j in
  wr f j (mkVec3 (v0 fj - delx * fpair) (v1 fj - dely * fpair)
                 (v2 fj - delz * fpair))%dbl.

(** ** The engine around a pair style *)

Section Engine.
Context {D A : Type}.

Record Atom := mkAtom {
  nlocal : Z; nghost : Z; ntypes : Z; q_flag : Z;
  x : list (Vec3 D); f : list (Vec3 D); q : list D; type : list Z
}.

Record Force := mkForce {
  newton_pair : Z; special_coul : list D; special_lj : list D; qqrd2e : D
}.

Record NeighList := mkNeighList {
  inum : Z; ilist : list Z; numneigh : list Z; firstneigh : list (list Z)
}.

Record Comm := mkComm { nthreads : Z; me : Z }.

(** The objects a pair style reaches through its [lmp] pointers; [neigh]
    is the member [list] of the pair style. *)
Record LAMMPS := mkLAMMPS {
  atom : Atom; force : Force; neigh : NeighList; comm : Comm
}.

Definition set_f (lmp : LAMMPS) (f' : list (Vec3 D)) : LAMMPS :=
  let a := atom lmp in
  mkLAMMPS (mkAtom (nlocal a) (nghost a) (ntypes a) (q_flag a) (x a) f'
              (q a) (type a))
    (force lmp) (neigh lmp) (comm lmp).

(** The members of [Pair] that [compute] sets before it picks a kernel,
    and the energy and virial accumulators (of the type [A]). *)
Record EvState := mkEv { evflag : Z; vflag_fdotr : Z; tally : A }.

(** What the two files call and do not define. *)
Class Engine := {
  (* Force::numeric, Force::bounds *)
  numeric : string -> D;
  bounds : string -> Z -> Z * Z;
  (* Memory::create_2d_int_array, Memory::create_2d_double_array:
     a new table, with whatever the memory holds *)
  create_2d_int_array : Z -> Z -> string -> table Z;
  create_2d_double_array : Z -> Z -> string -> table D;
  (* Pair::ev_setup, PairOMP::ev_setup_thr *)
  ev_setup : Z -> Z -> EvState -> EvState;
  ev_setup_thr : Z -> Z -> EvState -> EvState;
  (* PairOMP::loop_setup_thr f tid inum nall nthreads:
     the buffer the thread accumulates into, iifrom and iito *)
  loop_setup_thr : list (Vec3 D) -> Z -> Z -> Z -> Z -> list (Vec3 D) * Z * Z;
  (* PairOMP::ev_tally_thr i j nlocal newton_pair evdwl ecoul fpair
     delx dely delz tid *)
  ev_tally_thr : Z -> Z -> Z -> bool -> D -> D -> D -> D -> D -> D -> Z -> A -> A;
  (* PairOMP::force_reduce_thr: atom->f from the buffers of the threads *)
  force_reduce_thr : list (list (Vec3 D)) -> Z -> Z -> list (Vec3 D);
  (* PairOMP::ev_reduce_thr, PairOMP::virial_compute *)
  ev_reduce_thr : A -> A;
  virial_compute : Atom -> A -> A
}.
End Engine.

Arguments Atom D : clear implicits.
Arguments Force D : clear implicits.
Arguments LAMMPS D : clear implicits.
Arguments Engine D A : clear implicits.
Arguments EvState A : clear implicits.

(** A C++ [int] used as a condition. *)
Definition truthy (z : Z) : bool := negb (z =? 0).

(** The neighbor entry [jj] of atom [i], as both kernels decode it: the
    partner index, the scale factor of the pair, the separation of the two
    atoms and its square.  The theorems name the values of an iteration with
    these. *)
Definition nall {D} (lmp : LAMMPS D) : Z :=
  nlocal (atom lmp) + nghost (atom lmp).
Definition neighbor {D} (lmp : LAMMPS D) (i jj : Z) : Z :=
  rd (rd (firstneigh (neigh lmp)) i) jj.
Definition partner {D} (lmp : LAMMPS D) (i jj : Z) : Z :=
  if neighbor lmp i jj <? nall lmp then neighbor lmp i jj
  else Z.rem (neighbor lmp i jj) (nall lmp).
Definition factor `{Double D} (lmp : LAMMPS D) (i jj : Z) : D :=
  if neighbor lmp i jj <? nall lmp then d_one
  else rd (special_coul (force lmp)) (neighbor lmp i jj ÷ nall lmp).
Definition delx `{Double D} (lmp : LAMMPS D) (i j : Z) : D :=
  (v0 (rd (x (atom lmp)) i) - v0 (rd (x (atom lmp)) j))%dbl.
Definition dely `{Double D} (lmp : LAMMPS D) (i j : Z) : D :=
  (v1 (rd (x (atom lmp)) i) - v1 (rd (x (atom lmp)) j))%dbl.
Definition delz `{Double D} (lmp : LAMMPS D) (i j : Z) : D :=
  (v2 (rd (x (atom lmp)) i) - v2 (rd (x (atom lmp)) j))%dbl.
Definition rsq `{Double D} (lmp : LAMMPS D) (i j : Z) : D :=
  (delx lmp i j*delx lmp i j + dely lmp i j*dely lmp i j
   + delz lmp i j*delz lmp i j)%dbl.

(** ** The restart file

    [fwrite(&v,sizeof(double),1,fp)] and [fwrite(&n,sizeof(int),1,fp)] copy
    the object representation of [v] and [n] to the file, and [fread] copies
    it back: the file is the sequence of the values written.  A read that
    does not find a value of its kind next in the file leaves the variable
    and the file as they are.  [MPI_Bcast] hands the values process 0 has
    read to every process: the methods below are the state of any process
    after the broadcasts. *)
Inductive item (D : Type) : Type :=
| FDouble (v : D)
| FInt (n : Z).
Arguments FDouble {D} v.
Arguments FInt {D} n.

Definition fwrite_double {D} (v : D) (fp : list (item D)) : list (item D) :=
  fp ++ [FDouble v].
Definition fwrite_int {D} (n : Z) (fp : list (item D)) : list (item D) :=
  fp ++ [FInt n].
Definition fread_double {D} (old : D) (fp : list (item D)) : D * list (item D) :=
  match fp with
  | FDouble v :: fp' => (v, fp')
  | _ => (old, fp)
  end.
Definition fread_int {D} (old : Z) (fp : list (item D)) : Z * list (item D) :=
  match fp with
  | FInt n :: fp' => (n, fp')
  | _ => (old, fp)
  end.

(** ** coul/debye/omp *)

Module Debye.
Section Debye.
Context {D A : Type} `{Double D} `{Engine D A}.

(** The members of the pair style the file reads and writes; the tables
    and [kappa] are declared by the parent class. *)
Record PairCoulDebyeOMP := mkPair {
  kappa : D; cut_global : D; offset_flag : Z; mix_flag : Z;
  allocated : Z; setflag : table Z; cut : table D; cutsq : table D;
  ev : EvState A
}.

Definition set_ev (p : PairCoulDebyeOMP) (e : EvState A) : PairCoulDebyeOMP :=
  mkPair (kappa p) (cut_global p) (offset_flag p) (mix_flag p) (allocated p)
    (setflag p) (cut p) (cutsq p) e.
Definition set_tally (p : PairCoulDebyeOMP) (t : A) : PairCoulDebyeOMP :=
  set_ev p (mkEv (evflag (ev p)) (vflag_fdotr (ev p)) t).

(** The variables of a thread that live across the iterations of the two
    loops of [eval]: the force buffer [f], [ecoul], and the accumulators
    [ev_tally_thr] adds to. *)
Record Thr := mkThr { thr_f : list (Vec3 D); ecoul : D; thr_tally : A }.

(** One iteration of [for (jj = 0; jj < jnum; jj++)]. *)
Definition eval_jj (EVFLAG EFLAG NEWTON_PAIR : bool)
    (p : PairCoulDebyeOMP) (lmp : LAMMPS D) (tid i : Z)
    (qtmp xtmp ytmp ztmp : D) (itype : Z) (jlist : list Z)
    (st : Thr) (jj : Z) : Thr :=
  let nlocal := nlocal (atom lmp) in
  let nall := nlocal + nghost (atom lmp) in
  let x := x (atom lmp) in
  let q := q (atom lmp) in
  let qqrd2e := qqrd2e (force lmp) in
  let kappa := kappa p in
  let j := rd jlist jj in
  let factor_coul :=
    if j <? nall then d_one else rd (special_coul (force lmp)) (j ÷ nall) in
  let j := if j <? nall then j else Z.rem j nall in
  (let delx := xtmp - v0 (rd x j) in
   let dely := ytmp - v1 (rd x j) in
   let delz := ztmp - v2 (rd x j) in
   let rsq := delx*delx + dely*dely + delz*delz in
   let jtype := rd (type (atom lmp)) j in
   if rsq <? cutsq p itype jtype then
     let r2inv := d_one/rsq in
     let r := dsqrt rsq in
     let rinv := d_one/r in
     let screening := dexp (-kappa*r) in
     let forcecoul := qqrd2e * qtmp*rd q j * screening * (kappa + rinv) in
     let fpair := factor_coul*forcecoul * r2inv in
     let f1 := f_add (thr_f st) i delx dely delz fpair in
     let f2 := if NEWTON_PAIR || (j <? nlocal)%Z
               then f_sub f1 j delx dely delz fpair else f1 in
     let ecoul' := if EFLAG
                   then factor_coul * qqrd2e * qtmp*rd q j * rinv * screening
                   else ecoul st in
     let t' := if EVFLAG
               then ev_tally_thr i j nlocal NEWTON_PAIR d_zero ecoul' fpair
                      delx dely delz tid (thr_tally st)
               else thr_tally st in
     mkThr f2 ecoul' t'
   else st)%dbl.

(** One iteration of [for (ii = iifrom; ii < iito; ++ii)]. *)
Definition eval_ii (EVFLAG EFLAG NEWTON_PAIR : bool)
    (p : PairCoulDebyeOMP) (lmp : LAMMPS D) (tid : Z)
    (st : Thr) (ii : Z) : Thr :=
  let i := rd (ilist (neigh lmp)) ii in
  let qtmp := rd (q (atom lmp)) i in
  let xtmp := v0 (rd (x (atom lmp)) i) in
  let ytmp := v1 (rd (x (atom lmp)) i) in
  let ztmp := v2 (rd (x (atom lmp)) i) in
  let itype := rd (type (atom lmp)) i in
  let jlist := rd (firstneigh (neigh lmp)) i in
  let jnum := rd (numneigh (neigh lmp)) i in
  for_lt 0 jnum
    (eval_jj EVFLAG EFLAG NEWTON_PAIR p lmp tid i qtmp xtmp ytmp ztmp itype
       jlist) st.

(** The iteration [jj] of the inner loop for the atom [i], with the values
    [eval_ii] has read for [i]. *)
Definition eval_pair (EVFLAG EFLAG NEWTON_PAIR : bool)
    (p : PairCoulDebyeOMP) (lmp : LAMMPS D) (tid i : Z) (st : Thr) (jj : Z)
    : Thr :=
  eval_jj EVFLAG EFLAG NEWTON_PAIR p lmp tid i (rd (q (atom lmp)) i)
    (v0 (rd (x (atom lmp)) i)) (v1 (rd (x (atom lmp)) i))
    (v2 (rd (x (atom lmp)) i)) (rd (type (atom lmp)) i)
    (rd (firstneigh (neigh lmp)) i) st jj.

(** The block of the parallel region as thread [tid] runs it, up to the
    call of [force_reduce_thr]: the final state of its variables. *)
Definition eval_thr (EVFLAG EFLAG NEWTON_PAIR : bool)
    (p : PairCoulDebyeOMP) (lmp : LAMMPS D) (t : A) (tid : Z) : Thr :=
  let nall := nlocal (atom lmp) + nghost (atom lmp) in
  let '(fbuf, iifrom, iito) :=
    loop_setup_thr (f (atom lmp)) tid (inum (neigh lmp)) nall
      (nthreads (comm lmp)) in
  for_lt iifrom iito (eval_ii EVFLAG EFLAG NEWTON_PAIR p lmp tid)
    (mkThr fbuf d_zero t).

(** [eval<EVFLAG,EFLAG,NEWTON_PAIR>()].  Every thread writes only the
    buffer [loop_setup_thr] gave it and its own accumulators, so the block
    is run for the threads one after the other; [force_reduce_thr] then
    builds [atom->f] from the buffers. *)
Definition eval (EVFLAG EFLAG NEWTON_PAIR : bool)
    (p : PairCoulDebyeOMP) (lmp : LAMMPS D) : PairCoulDebyeOMP * LAMMPS D :=
  let nall := nlocal (atom lmp) + nghost (atom lmp) in
  let nthreads := nthreads (comm lmp) in
  let run := for_lt 0 nthreads
    (fun (bt : list (list (Vec3 D)) * A) tid =>
       let st := eval_thr EVFLAG EFLAG NEWTON_PAIR p lmp (snd bt) tid in
       (fst bt ++ [thr_f st], thr_tally st))
    ([], tally (ev p)) in
  let lmp' := set_f lmp (force_reduce_thr (fst run) nall nthreads) in
  let t1 := ev_reduce_thr (snd run) in
  let t2 := if truthy (vflag_fdotr (ev p))
            then virial_compute (atom lmp') t1 else t1 in
  (set_tally p t2, lmp').

Definition compute (eflag vflag : Z)
    (p : PairCoulDebyeOMP) (lmp : LAMMPS D) : PairCoulDebyeOMP * LAMMPS D :=
  let p :=
    if truthy eflag || truthy vflag
    then set_ev p (ev_setup_thr eflag vflag (ev_setup eflag vflag (ev p)))
    else set_ev p (mkEv 0 0 (tally (ev p))) in
  if truthy (evflag (ev p)) then
    if truthy eflag then
      if truthy (newton_pair (force lmp)) then eval true true true p lmp
      else eval true true false p lmp
    else
      if truthy (newton_pair (force lmp)) then eval true false true p lmp
      else eval true false false p lmp
  else
    if truthy (newton_pair (force lmp)) then eval false false true p lmp
    else eval false false false p lmp.

(** [settings(narg, arg)]: global settings. *)
Definition settings (narg : Z) (arg : list string)
    (p : PairCoulDebyeOMP) (lmp : LAMMPS D) : result PairCoulDebyeOMP :=
  if negb (narg =? 2) then Err "Illegal pair_style command" else
  let kappa' := numeric (rd arg 0) in
  let cut_global' := numeric (rd arg 1) in
  (* reset cutoffs that have been explicitly set *)
  let cut' :=
    if truthy (allocated p) then
      for_le 1 (ntypes (atom lmp))
        (fun c i =>
           for_le (i+1) (ntypes (atom lmp))
             (fun c j =>
                if truthy (setflag p i j) then tset c i j cut_global' else c)
             c)
        (cut p)
    else cut p in
  Ok (mkPair kappa' cut_global' (offset_flag p) (mix_flag p) (allocated p)
        (setflag p) cut' (cutsq p) (ev p)).

(** [write_restart_settings(fp)]: proc 0 writes to restart file. *)
Definition write_restart_settings (p : PairCoulDebyeOMP)
    (fp : list (item D)) : list (item D) :=
  let fp := fwrite_double (cut_global p) fp in
  let fp := fwrite_double (kappa p) fp in
  let fp := fwrite_int (offset_flag p) fp in
  fwrite_int (mix_flag p) fp.

(** [read_restart_settings(fp)]: proc 0 reads from restart file, bcasts. *)
Definition read_restart_settings (p : PairCoulDebyeOMP)
    (fp : list (item D)) : PairCoulDebyeOMP * list (item D) :=
  let '(cut_global', fp) := fread_double (cut_global p) fp in
  let '(kappa', fp) := fread_double (kappa p) fp in
  let '(offset_flag', fp) := fread_int (offset_flag p) fp in
  let '(mix_flag', fp) := fread_int (mix_flag p) fp in
  (mkPair kappa' cut_global' offset_flag' mix_flag' (allocated p)
     (setflag p) (cut p) (cutsq p) (ev p), fp).

(** [single(i, j, itype, jtype, rsq, factor_coul, factor_lj, fforce)]:
    the returned energy and the force written to [fforce]. *)
Definition single (p : PairCoulDebyeOMP) (lmp : LAMMPS D)
    (i j itype jtype : Z) (rsq factor_coul factor_lj : D) : D * D :=
  let kappa := kappa p in
  let q := q (atom lmp) in
  (let r2inv := d_one/rsq in
   let r := dsqrt rsq in
   let rinv := d_one/r in
   let screening := dexp (-kappa*r) in
   let forcecoul := qqrd2e (force lmp) * rd q i*rd q j *
                    screening * (kappa + rinv) in
   let fforce := factor_coul*forcecoul * r2inv in
   let phicoul := qqrd2e (force lmp) * rd q i*rd q j * rinv * screening in
   (factor_coul*phicoul, fforce))%dbl.

(** Modelled from the spec: [init_one(i, j)] of coul/debye/omp.  The file
    does not define it (the class inherits it from its parent, which is not
    part of the sources).  Section 8 of the spec: the Debye formula must
    silently apply the global cutoff to any unset pair without erroring
    (mixing rule = use global default).  The pair style after the call and
    the returned cutoff. *)
Definition init_one (i j : Z) (p : PairCoulDebyeOMP) (lmp : LAMMPS D)
    : result (PairCoulDebyeOMP * D) :=
  let cut' :=
    if setflag p i j =? 0 then tset (cut p) i j (cut_global p) else cut p in
  Ok (mkPair (kappa p) (cut_global p) (offset_flag p) (mix_flag p)
        (allocated p) (setflag p) cut' (cutsq p) (ev p),
      cut' i j).
End Debye.
End Debye.

Arguments Debye.PairCoulDebyeOMP D A : clear implicits.
Arguments Debye.Thr D A : clear implicits.

(** ** coul/diel/omp *)

Module Diel.
Section Diel.
Context {D A : Type} `{Double D} `{Engine D A}.

Record PairCoulDielOMP := mkPair {
  cut_global : D; eps_s : D; a_eps : D; b_eps : D;
  offset_flag : Z; mix_flag : Z; allocated : Z;
  setflag : table Z; cut : table D; cutsq : table D;
  sigmae : table D; rme : table D; offset : table D;
  ev : EvState A
}.

Definition set_ev (p : PairCoulDielOMP) (e : EvState A) : PairCoulDielOMP :=
  mkPair (cut_global p) (eps_s p) (a_eps p) (b_eps p) (offset_flag p)
    (mix_flag p) (allocated p) (setflag p) (cut p) (cutsq p) (sigmae p)
    (rme p) (offset p) e.
Definition set_tally (p : PairCoulDielOMP) (t : A) : PairCoulDielOMP :=
  set_ev p (mkEv (evflag (ev p)) (vflag_fdotr (ev p)) t).

Record Thr := mkThr { thr_f : list (Vec3 D); ecoul : D; thr_tally : A }.

(** One iteration of [for (jj = 0; jj < jnum; jj++)].

    [eval] declares [jtype] and never assigns it (the statement
    [jtype = type[j]] of the Debye kernel has no counterpart here): the
    tables are indexed with the indeterminate value the variable holds,
    which is the argument [jtype]. *)
Definition eval_jj (EVFLAG EFLAG NEWTON_PAIR : bool)
    (p : PairCoulDielOMP) (lmp : LAMMPS D) (tid i : Z)
    (qtmp xtmp ytmp ztmp : D) (itype jtype : Z) (jlist : list Z)
    (st : Thr) (jj : Z) : Thr :=
  let nlocal := nlocal (atom lmp) in
  let nall := nlocal + nghost (atom lmp) in
  let x := x (atom lmp) in
  let q := q (atom lmp) in
  let qqrd2e := qqrd2e (force lmp) in
  let a_eps := a_eps p in
  let b_eps := b_eps p in
  let eps_s := eps_s p in
  let j := rd jlist jj in
  let factor_coul :=
    if j <? nall then d_one else rd (special_coul (force lmp)) (j ÷ nall) in
  let j := if j <? nall then j else Z.rem j nall in
  (let delx := xtmp - v0 (rd x j) in
   let dely := ytmp - v1 (rd x j) in
   let delz := ztmp - v2 (rd x j) in
   let rsq := delx*delx + dely*dely + delz*delz in
   if rsq <? cutsq p itype jtype then
     let r := dsqrt rsq in
     let rarg := (r-rme p itype jtype)/sigmae p itype jtype in
     let th := dtanh rarg in
     let epsr := a_eps+b_eps*th in
     let depsdr := b_eps * (d_one - th*th) / sigmae p itype jtype in
     let forcecoul :=
       qqrd2e*qtmp*rd q j*((eps_s*(epsr+r*depsdr)/epsr/epsr) - d_one)/rsq in
     let fpair := factor_coul*forcecoul/r in
     let f1 := f_add (thr_f st) i delx dely delz fpair in
     let f2 := if NEWTON_PAIR || (j <? nlocal)%Z
               then f_sub f1 j delx dely delz fpair else f1 in
     let ecoul' :=
       if EFLAG
       then ((qqrd2e*qtmp*rd q j*((eps_s/epsr) - d_one)/r)
             - offset p itype jtype) * factor_coul
       else ecoul st in
     let t' := if EVFLAG
               then ev_tally_thr i j nlocal NEWTON_PAIR d_zero ecoul' fpair
                      delx dely delz tid (thr_tally st)
               else thr_tally st in
     mkThr f2 ecoul' t'
   else st)%dbl.

(** One iteration of [for (ii = iifrom; ii < iito; ++ii)]. *)
Definition eval_ii (EVFLAG EFLAG NEWTON_PAIR : bool)
    (p : PairCoulDielOMP) (lmp : LAMMPS D) (tid jtype : Z)
    (st : Thr) (ii : Z) : Thr :=
  let i := rd (ilist (neigh lmp)) ii in
  let qtmp := rd (q (atom lmp)) i in
  let xtmp := v0 (rd (x (atom lmp)) i) in
  let ytmp := v1 (rd (x (atom lmp)) i) in
  let ztmp := v2 (rd (x (atom lmp)) i) in
  let itype := rd (type (atom lmp)) i in
  let jlist := rd (firstneigh (neigh lmp)) i in
  let jnum := rd (numneigh (neigh lmp)) i in
  for_lt 0 jnum
    (eval_jj EVFLAG EFLAG NEWTON_PAIR p lmp tid i qtmp xtmp ytmp ztmp itype
       jtype jlist) st.

(** The iteration [jj] of the inner loop for the atom [i], with the values
    [eval_ii] has read for [i]. *)
Definition eval_pair (EVFLAG EFLAG NEWTON_PAIR : bool)
    (p : PairCoulDielOMP) (lmp : LAMMPS D) (tid jtype i : Z) (st : Thr) (jj : Z)
    : Thr :=
  eval_jj EVFLAG EFLAG NEWTON_PAIR p lmp tid i (rd (q (atom lmp)) i)
    (v0 (rd (x (atom lmp)) i)) (v1 (rd (x (atom lmp)) i))
    (v2 (rd (x (atom lmp)) i)) (rd (type (atom lmp)) i)
    jtype
    (rd (firstneigh (neigh lmp)) i) st jj.

(** The block of the parallel region as thread [tid] runs it; [jtype] is
    the value its variable [jtype] holds. *)
Definition eval_thr (EVFLAG EFLAG NEWTON_PAIR : bool)
    (p : PairCoulDielOMP) (lmp : LAMMPS D) (jtype : Z) (t : A) (tid : Z)
    : Thr :=
  let nall := nlocal (atom lmp) + nghost (atom lmp) in
  let '(fbuf, iifrom, iito) :=
    loop_setup_thr (f (atom lmp)) tid (inum (neigh lmp)) nall
      (nthreads (comm lmp)) in
  for_lt iifrom iito (eval_ii EVFLAG EFLAG NEWTON_PAIR p lmp tid jtype)
    (mkThr fbuf d_zero t).

(** [eval<EVFLAG,EFLAG,NEWTON_PAIR>()]; [jtype tid] is the indeterminate
    value of the variable [jtype] of thread [tid]. *)
Definition eval (EVFLAG EFLAG NEWTON_PAIR : bool) (jtype : Z -> Z)
    (p : PairCoulDielOMP) (lmp : LAMMPS D) : PairCoulDielOMP * LAMMPS D :=
  let nall := nlocal (atom lmp) + nghost (atom lmp) in
  let nthreads := nthreads (comm lmp) in
  let run := for_lt 0 nthreads
    (fun (bt : list (list (Vec3 D)) * A) tid =>
       let st := eval_thr EVFLAG EFLAG NEWTON_PAIR p lmp (jtype tid)
                   (snd bt) tid in
       (fst bt ++ [thr_f st], thr_tally st))
    ([], tally (ev p)) in
  let lmp' := set_f lmp (force_reduce_thr (fst run) nall nthreads) in
  let t1 := ev_reduce_thr (snd run) in
  let t2 := if truthy (vflag_fdotr (ev p))
            then virial_compute (atom lmp') t1 else t1 in
  (set_tally p t2, lmp').

Definition compute (eflag vflag : Z) (jtype : Z -> Z)
    (p : PairCoulDielOMP) (lmp : LAMMPS D) : PairCoulDielOMP * LAMMPS D :=
  let p :=
    if truthy eflag || truthy vflag
    then set_ev p (ev_setup_thr eflag vflag (ev_setup eflag vflag (ev p)))
    else set_ev p (mkEv 0 0 (tally (ev p))) in
  if truthy (evflag (ev p)) then
    if truthy eflag then
      if truthy (newton_pair (force lmp)) then eval true true true jtype p lmp
      else eval true true false jtype p lmp
    else
      if truthy (newton_pair (force lmp)) then eval true false true jtype p lmp
      else eval true false false jtype p lmp
  else
    if truthy (newton_pair (force lmp)) then eval false false true jtype p lmp
    else eval false false false jtype p lmp.

(** [allocate()]: allocate all arrays. *)
Definition allocate (p : PairCoulDielOMP) (lmp : LAMMPS D) : PairCoulDielOMP :=
  let n := ntypes (atom lmp) in
  let setflag' :=
    for_le 1 n
      (fun s i => for_le i n (fun s j => tset s i j 0) s)
      (create_2d_int_array (n+1) (n+1) "pair:setflag") in
  mkPair (cut_global p) (eps_s p) (a_eps p) (b_eps p) (offset_flag p)
    (mix_flag p) 1 setflag'
    (create_2d_double_array (n+1) (n+1) "pair:cut")
    (create_2d_double_array (n+1) (n+1) "pair:cutsq")
    (create_2d_double_array (n+1) (n+1) "pair:sigmae")
    (create_2d_double_array (n+1) (n+1) "pair:rme")
    (create_2d_double_array (n+1) (n+1) "pair:offset")
    (ev p).

(** [settings(narg, arg)]: global settings. *)
Definition settings (narg : Z) (arg : list string)
    (p : PairCoulDielOMP) (lmp : LAMMPS D) : result PairCoulDielOMP :=
  if negb (narg =? 1) then Err "Illegal pair_style command" else
  let cut_global' := numeric (rd arg 0) in
  (* reset cutoffs that have been explicitly set *)
  let cut' :=
    if truthy (allocated p) then
      for_le 1 (ntypes (atom lmp))
        (fun c i =>
           for_le (i+1) (ntypes (atom lmp))
             (fun c j =>
                if truthy (setflag p i j) then tset c i j cut_global' else c)
             c)
        (cut p)
    else cut p in
  Ok (mkPair cut_global' (eps_s p) (a_eps p) (b_eps p) (offset_flag p)
        (mix_flag p) (allocated p) (setflag p) cut' (cutsq p) (sigmae p)
        (rme p) (offset p) (ev p)).

(** The tables the loops of [coeff] write, and [count]. *)
Record CoeffLoop := mkCoeffLoop {
  c_sigmae : table D; c_rme : table D; c_cut : table D;
  c_setflag : table Z; c_count : Z
}.

(** [coeff(narg, arg)]: set coeffs for one or more type pairs. *)
Definition coeff (narg : Z) (arg : list string)
    (p : PairCoulDielOMP) (lmp : LAMMPS D) : result PairCoulDielOMP :=
  if (narg <? 5) || (narg >? 6)
  then Err "Incorrect args for pair coefficients" else
  let p := if negb (truthy (allocated p)) then allocate p lmp else p in
  let '(ilo, ihi) := bounds (rd arg 0) (ntypes (atom lmp)) in
  let '(jlo, jhi) := bounds (rd arg 1) (ntypes (atom lmp)) in
  let eps_s' := numeric (rd arg 2) in
  let rme_one := numeric (rd arg 3) in
  let sigmae_one := numeric (rd arg 4) in
  let cut_one := if narg =? 6 then numeric (rd arg 5) else cut_global p in
  let l :=
    for_le ilo ihi
      (fun l i =>
         for_le (Z.max jlo i) jhi
           (fun l j =>
              mkCoeffLoop (tset (c_sigmae l) i j sigmae_one)
                (tset (c_rme l) i j rme_one) (tset (c_cut l) i j cut_one)
                (tset (c_setflag l) i j 1) (c_count l + 1))
           l)
      (mkCoeffLoop (sigmae p) (rme p) (cut p) (setflag p) 0) in
  let a_eps' := (d_half*(d_5_2+eps_s'))%dbl in
  let b_eps' := (d_half*(eps_s'-d_5_2))%dbl in
  if c_count l =? 0 then Err "Incorrect args for pair coefficients" else
  Ok (mkPair (cut_global p) eps_s' a_eps' b_eps' (offset_flag p)
        (mix_flag p) (allocated p) (c_setflag l) (c_cut l) (cutsq p)
        (c_sigmae l) (c_rme l) (offset p) (ev p)).

(** [init_style()]: init specific to this pair style. *)
Definition init_style (p : PairCoulDielOMP) (lmp : LAMMPS D)
    : result PairCoulDielOMP :=
  if negb (truthy (q_flag (atom lmp)))
  then Err "Pair style coul/cut requires atom attribute q"
  else Ok p.

(** [init_one(i, j)]: init for one type pair i,j and corresponding j,i;
    the pair style after the call and the returned cutoff. *)
Definition init_one (i j : Z) (p : PairCoulDielOMP) (lmp : LAMMPS D)
    : result (PairCoulDielOMP * D) :=
  if setflag p i j =? 0 then
    Err "for pair style coul/diel, parameters need to be set explicitly for all pairs."
  else
  let q := q (atom lmp) in
  let qqrd2e := qqrd2e (force lmp) in
  let offset1 :=
    if truthy (offset_flag p) then
      (let rarg := (cut p i j-rme p i j)/sigmae p i j in
       let epsr := a_eps p+b_eps p*dtanh rarg in
       tset (offset p) i j
         (qqrd2e*rd q i*rd q j*((eps_s p/epsr) - d_one)/cut p i j))%dbl
    else tset (offset p) i j d_zero in
  let sigmae' := tset (sigmae p) j i (sigmae p i j) in
  let rme' := tset (rme p) j i (rme p i j) in
  let offset' := tset offset1 j i (offset1 i j) in
  let cut' := tset (cut p) j i (cut p i j) in
  Ok (mkPair (cut_global p) (eps_s p) (a_eps p) (b_eps p) (offset_flag p)
        (mix_flag p) (allocated p) (setflag p) cut' (cutsq p) sigmae' rme'
        offset' (ev p),
      cut' i j).

(** [init_one] called for the type pairs of [l], one after the other, as
    the initialization of the engine does before a run. *)
Fixpoint init_all (l : list (Z * Z)) (p : PairCoulDielOMP) (lmp : LAMMPS D)
    : result PairCoulDielOMP :=
  match l with
  | [] => Ok p
  | (i, j) :: l' =>
      match init_one i j p lmp with
      | Ok (p', _) => init_all l' p' lmp
      | Err msg => Err msg
      end
  end.

(** A run: the initialization of the type pairs of [l], then one force
    evaluation. *)
Definition run (l : list (Z * Z)) (eflag vflag : Z) (jtype : Z -> Z)
    (p : PairCoulDielOMP) (lmp : LAMMPS D)
    : result (PairCoulDielOMP * LAMMPS D) :=
  match init_all l p lmp with
  | Ok p' => Ok (compute eflag vflag jtype p' lmp)
  | Err msg => Err msg
  end.

(** [write_restart_settings(fp)]: proc 0 writes to restart file. *)
Definition write_restart_settings (p : PairCoulDielOMP)
    (fp : list (item D)) : list (item D) :=
  let fp := fwrite_double (cut_global p) fp in
  let fp := fwrite_int (offset_flag p) fp in
  fwrite_int (mix_flag p) fp.

(** [read_restart_settings(fp)]: proc 0 reads from restart file, bcasts. *)
Definition read_restart_settings (p : PairCoulDielOMP)
    (fp : list (item D)) : PairCoulDielOMP * list (item D) :=
  let '(cut_global', fp) := fread_double (cut_global p) fp in
  let '(offset_flag', fp) := fread_int (offset_flag p) fp in
  let '(mix_flag', fp) := fread_int (mix_flag p) fp in
  (mkPair cut_global' (eps_s p) (a_eps p) (b_eps p) offset_flag' mix_flag'
     (allocated p) (setflag p) (cut p) (cutsq p) (sigmae p) (rme p)
     (offset p) (ev p), fp).

(** [write_restart(fp)]: proc 0 writes to restart file. *)
Definition write_restart (p : PairCoulDielOMP) (lmp : LAMMPS D)
    (fp : list (item D)) : list (item D) :=
  let fp := write_restart_settings p fp in
  for_le 1 (ntypes (atom lmp))
    (fun fp i =>
       for_le i (ntypes (atom lmp))
         (fun fp j =>
            let fp := fwrite_int (setflag p i j) fp in
            if truthy (setflag p i j) then
              let fp := fwrite_double (rme p i j) fp in
              let fp := fwrite_double (sigmae p i j) fp in
              fwrite_double (cut p i j) fp
            else fp)
         fp)
    fp.

(** The tables the loops of [read_restart] write, and the file. *)
Record ReadLoop := mkReadLoop {
  r_rme : table D; r_sigmae : table D; r_cut : table D;
  r_fp : list (item D)
}.

(** [read_restart(fp)]: proc 0 reads from restart file, bcasts. *)
Definition read_restart (p : PairCoulDielOMP) (lmp : LAMMPS D)
    (fp : list (item D)) : PairCoulDielOMP * list (item D) :=
  let '(p, fp) := read_restart_settings p fp in
  let p := allocate p lmp in
  let l :=
    for_le 1 (ntypes (atom lmp))
      (fun l i =>
         for_le i (ntypes (atom lmp))
           (fun l j =>
              if truthy (setflag p i j) then
                let '(rme_ij, fp) := fread_double (r_rme l i j) (r_fp l) in
                let '(sigmae_ij, fp) := fread_double (r_sigmae l i j) fp in
                let '(cut_ij, fp) := fread_double (r_cut l i j) fp in
                mkReadLoop (tset (r_rme l) i j rme_ij)
                  (tset (r_sigmae l) i j sigmae_ij)
                  (tset (r_cut l) i j cut_ij) fp
              else l)
           l)
      (mkReadLoop (rme p) (sigmae p) (cut p) fp) in
  (mkPair (cut_global p) (eps_s p) (a_eps p) (b_eps p) (offset_flag p)
     (mix_flag p) (allocated p) (setflag p) (r_cut l) (cutsq p)
     (r_sigmae l) (r_rme l) (offset p) (ev p), r_fp l).

(** [single(i, j, itype, jtype, rsq, factor_coul, factor_lj, fforce)]:
    the returned energy and the force written to [fforce]. *)
Definition single (p : PairCoulDielOMP) (lmp : LAMMPS D)
    (i j itype jtype : Z) (rsq factor_coul factor_lj : D) : D * D :=
  let q := q (atom lmp) in
  let qqrd2e := qqrd2e (force lmp) in
  let a_eps := a_eps p in
  let b_eps := b_eps p in
  let eps_s := eps_s p in
  (let r := dsqrt rsq in
   let rarg := (r-rme p itype jtype)/sigmae p itype jtype in
   let th := dtanh rarg in
   let epsr := a_eps+b_eps*th in
   let depsdr := b_eps*(d_one-th*th)/sigmae p itype jtype in
   let forcedielec :=
     qqrd2e*rd q i*rd q j*((eps_s*(epsr+r*depsdr)/epsr/epsr) - d_one)/rsq in
   let fforce := factor_coul*forcedielec/r in
   let phidielec :=
     (qqrd2e*rd q i*rd q j*((eps_s/epsr) - d_one)/r) - offset p itype jtype in
   (factor_coul*phidielec, fforce))%dbl.
End Diel.
End Diel.

Arguments Diel.PairCoulDielOMP D A : clear implicits.
Arguments Diel.Thr D A : clear implicits.


(** * Definitions used by the statements *)

(** The members of the dielectric pair style the kernel reads. *)
Definition diel_same_params {D A} (p p' : Diel.PairCoulDielOMP D A) : Prop :=
  Diel.eps_s p = Diel.eps_s p' /\ Diel.a_eps p = Diel.a_eps p'
  /\ Diel.b_eps p = Diel.b_eps p' /\ Diel.cutsq p = Diel.cutsq p'
  /\ Diel.rme p = Diel.rme p' /\ Diel.sigmae p = Diel.sigmae p'
  /\ Diel.offset p = Diel.offset p'.

(** The coefficient table of coul/diel/omp at the type pair [a], [b] and at
    its mirror: the four entries agree. *)
Definition diel_symmetric_at {D A} (p : Diel.PairCoulDielOMP D A) (a b : Z) : Prop :=
  Diel.sigmae p a b = Diel.sigmae p b a /\ Diel.rme p a b = Diel.rme p b a
  /\ Diel.cut p a b = Diel.cut p b a /\ Diel.offset p a b = Diel.offset p b a.

(** The value of a method that has not aborted. *)
Definition get_ok {X} (d : X) (r : result X) : X :=
  match r with Ok v => v | Err _ => d end.

(** The energy the Debye kernel assigns to [ecoul] for the pair [i], [j]
    when [EFLAG] is set (line 139 of the file). *)
Definition debye_ecoul {D A} `{Double D}
    (p : Debye.PairCoulDebyeOMP D A) (lmp : LAMMPS D) (i j : Z)
    (rsq factor_coul : D) : D :=
  (let r := dsqrt rsq in
   let rinv := d_one/r in
   let screening := dexp (-Debye.kappa p*r) in
   factor_coul * qqrd2e (force lmp) * rd (q (atom lmp)) i*rd (q (atom lmp)) j
   * rinv * screening)%dbl.

(** The energy the dielectric kernel assigns to [ecoul] when [EFLAG] is set
    (lines 158 and 159 of the file), with the table row [itype] and the
    table column [jtype] it indexes. *)
Definition diel_ecoul {D A} `{Double D}
    (p : Diel.PairCoulDielOMP D A) (lmp : LAMMPS D) (i j itype jtype : Z)
    (rsq factor_coul : D) : D :=
  (let r := dsqrt rsq in
   let rarg := (r-Diel.rme p itype jtype)/Diel.sigmae p itype jtype in
   let th := dtanh rarg in
   let epsr := Diel.a_eps p+Diel.b_eps p*th in
   ((qqrd2e (force lmp)*rd (q (atom lmp)) i*rd (q (atom lmp)) j
     *((Diel.eps_s p/epsr) - d_one)/r)
    - Diel.offset p itype jtype) * factor_coul)%dbl.


(** The force buffer after the two accumulations of a pair (lines 129 to 136
    of the Debye file, 148 to 155 of the dielectric file). *)
Definition accumulate `{Double D} (NEWTON_PAIR : bool) (nlocal : Z)
    (f : list (Vec3 D)) (i j : Z) (delx dely delz fpair : D) : list (Vec3 D) :=
  let f1 := f_add f i delx dely delz fpair in
  if NEWTON_PAIR || (j <? nlocal) then f_sub f1 j delx dely delz fpair else f1.

(** ** A reference engine

    The theorems hold for every engine.  The concrete systems below are run
    with this one. *)

(** What [ev_tally_thr] is given for a pair: the accumulator of the
    reference engine is the list of the pairs that were tallied. *)
Record Tallied (D : Type) := mkTallied {
  t_i : Z; t_j : Z; t_ecoul : D; t_fpair : D; t_tid : Z
}.
Arguments mkTallied {D} _ _ _ _ _.

(** Modelled from the spec: the range of owned atoms of a thread, which
    [loop_setup_thr] (not part of the sources) computes.  Section 5 of the
    spec: a contiguous, non-overlapping range, the total count split evenly
    across the threads, the remainder distributed to the first threads. *)
Definition split_range (inum nthreads tid : Z) : Z * Z :=
  let base := inum ÷ nthreads in
  let extra := Z.rem inum nthreads in
  let from := tid * base + Z.min tid extra in
  (from, from + base + (if tid <? extra then 1 else 0)).

(** Modelled from the spec: the reduction of two force buffers, which
    [force_reduce_thr] (not part of the sources) performs.  Section 4.4 of
    the spec: the element-wise sum across the threads. *)
Definition vec_sum `{Double D} (a b : list (Vec3 D)) : list (Vec3 D) :=
  zip_with (fun u v => mkVec3 (v0 u + v0 v) (v1 u + v1 v) (v2 u + v2 v))%dbl a b.

(** Modelled from the spec: the services of the threading layer and of the
    engine (PairOMP, Pair, Force, Memory), none of which is part of the
    sources.  Thread 0 accumulates into the force array of the atoms and
    every other thread into a zeroed buffer of its own; [ev_setup] enables
    the accumulation and empties the accumulator; a new table holds zeros;
    [num] and [bnd] stand for the parsers of numbers and of type ranges. *)
Definition RefEngine `{Double D} (num : string -> D) (bnd : string -> Z -> Z * Z)
  : Engine D (list (Tallied D)) := {|
  numeric := num;
  bounds := bnd;
  create_2d_int_array := fun _ _ _ => fun _ _ => 0;
  create_2d_double_array := fun _ _ _ => fun _ _ => d_zero;
  ev_setup := fun eflag vflag e => mkEv 1 0 [];
  ev_setup_thr := fun eflag vflag e => e;
  loop_setup_thr := fun f tid inum nall nthreads =>
    (if tid =? 0 then f
     else replicate (Z.to_nat nall) (mkVec3 d_zero d_zero d_zero),
     fst (split_range inum nthreads tid), snd (split_range inum nthreads tid));
  ev_tally_thr := fun i j nlocal newton_pair evdwl ecoul fpair dx dy dz tid t =>
    t ++ [mkTallied i j ecoul fpair tid];
  force_reduce_thr := fun bufs nall nthreads =>
    match bufs with
    | [] => []
    | b :: bs => foldl vec_sum b bs
    end;
  ev_reduce_thr := fun t => t;
  virial_compute := fun _ t => t
|}.

(** ** Concrete systems over the real numbers *)

(** The numbers and the type ranges the commands below are given. *)
Definition numericR (s : string) : R :=
  if String.eqb s "0.5" then (1/2)%R
  else if String.eqb s "2.0" then 2%R
  else if String.eqb s "5.0" then 5%R
  else if String.eqb s "7.0" then 7%R
  else if String.eqb s "80.0" then 80%R
  else 0%R.
Definition boundsR (s : string) (n : Z) : Z * Z :=
  if String.eqb s "1" then (1, 1)
  else if String.eqb s "2" then (2, 2)
  else (1, n).

Definition engR : Engine R (list (Tallied R)) := RefEngine numericR boundsR.

(** Two atoms of type 1 with the charges +1 and -1, at the origin and at
    (1,0,0): the separation is r = 1.  The neighbor list holds the pair
    once, for atom 0; qqrd2e = 1; no exclusion applies. *)
Definition two_atoms : LAMMPS R :=
  mkLAMMPS
    (mkAtom 2 0 1 1
       [mkVec3 0 0 0; mkVec3 1 0 0]%R [mkVec3 0 0 0; mkVec3 0 0 0]%R
       [1; -1]%R [1; 1])
    (mkForce 1 [1; 0; 0; 0]%R [1; 0; 0; 0]%R 1%R)
    (mkNeighList 1 [0] [1; 0] [[1]; []])
    (mkComm 1 0).

(** coul/debye/omp with kappa = 0.5 and the cutoff 5.0 for every pair. *)
Definition debyeR : Debye.PairCoulDebyeOMP R (list (Tallied R)) :=
  Debye.mkPair (1/2)%R 5%R 0 0 1 (fun _ _ => 1) (fun _ _ => 5%R)
    (fun _ _ => 25%R) (mkEv 0 0 []).

(** coul/diel/omp with eps_s = 80, rme = 2, sigmae = 0.5 and the cutoff 5.0
    for every pair; a_eps and b_eps as [coeff] sets them. *)
Definition dielR : Diel.PairCoulDielOMP R (list (Tallied R)) :=
  Diel.mkPair 5%R 80%R (1/2 * (52/10 + 80))%R (1/2 * (80 - 52/10))%R 0 0 1
    (fun _ _ => 1) (fun _ _ => 5%R) (fun _ _ => 25%R)
    (fun _ _ => (1/2)%R) (fun _ _ => 2%R) (fun _ _ => 0%R) (mkEv 0 0 []).

(** The variables of a thread before the first pair: a zeroed buffer for
    the two atoms, [ecoul = 0.0], nothing tallied. *)
Definition debye_thr0 : Debye.Thr R (list (Tallied R)) :=
  Debye.mkThr [mkVec3 0 0 0; mkVec3 0 0 0]%R 0%R [].
Definition diel_thr0 : Diel.Thr R (list (Tallied R)) :=
  Diel.mkThr [mkVec3 0 0 0; mkVec3 0 0 0]%R 0%R [].

(** Three atoms and two atom types: atom 0 (type 1, charge +1) at the origin,
    atom 1 (type 1, charge -1) at (1,0,0) and atom 2 (type 2, charge -1) at
    (-1,0,0).  The two partners of atom 0 differ in their type only: same
    charge, same distance. *)
Definition three_atoms : LAMMPS R :=
  mkLAMMPS
    (mkAtom 3 0 2 1
       [mkVec3 0 0 0; mkVec3 1 0 0; mkVec3 (-1) 0 0]%R
       [mkVec3 0 0 0; mkVec3 0 0 0; mkVec3 0 0 0]%R
       [1; -1; -1]%R [1; 1; 2])
    (mkForce 1 [1; 0; 0; 0]%R [1; 0; 0; 0]%R 1%R)
    (mkNeighList 1 [0] [2; 0; 0] [[1; 2]; []; []])
    (mkComm 1 0).

(** coul/diel/omp as the commands of an input script leave it:
    [pair_style coul/diel/omp 5.0] on a new pair style, then
    [pair_coeff * * 80.0 2.0 0.5].  [coeff] sets the pairs (1,1), (1,2) and
    (2,2); the entries of (2,1) are what the new tables hold. *)
Definition diel_new (offset_flag : Z) : Diel.PairCoulDielOMP R (list (Tallied R)) :=
  Diel.mkPair 0%R 0%R 0%R 0%R offset_flag 0 0
    (fun _ _ => 0) (fun _ _ => 0%R) (fun _ _ => 0%R)
    (fun _ _ => 0%R) (fun _ _ => 0%R) (fun _ _ => 0%R) (mkEv 0 0 []).
Definition diel_style (offset_flag : Z) : Diel.PairCoulDielOMP R (list (Tallied R)) :=
  get_ok (diel_new offset_flag)
    (Diel.settings (H0 := engR) 1 ["5.0"] (diel_new offset_flag) three_atoms).
Definition diel_set (offset_flag : Z) : Diel.PairCoulDielOMP R (list (Tallied R)) :=
  get_ok (diel_new offset_flag)
    (Diel.coeff (H0 := engR) 5 ["*"; "*"; "80.0"; "2.0"; "0.5"]
       (diel_style offset_flag) three_atoms).

(** coul/diel/omp after [pair_style coul/diel/omp 5.0] and
    [pair_coeff 1 1 80.0 2.0 0.5] alone: [coeff] has allocated the tables
    and set the pair (1,1); the pairs (1,2) and (2,2) of the two declared
    atom types were never set. *)
Definition diel_partly_set : Diel.PairCoulDielOMP R (list (Tallied R)) :=
  get_ok (diel_new 0)
    (Diel.coeff (H0 := engR) 5 ["1"; "1"; "80.0"; "2.0"; "0.5"]
       (diel_style 0) three_atoms).

(** The two atoms of [two_atoms] in a system that declares two atom types;
    both atoms are of type 1. *)
Definition two_atoms_two_types : LAMMPS R :=
  mkLAMMPS
    (mkAtom 2 0 2 1
       [mkVec3 0 0 0; mkVec3 1 0 0]%R [mkVec3 0 0 0; mkVec3 0 0 0]%R
       [1; -1]%R [1; 1])
    (mkForce 1 [1; 0; 0; 0]%R [1; 0; 0; 0]%R 1%R)
    (mkNeighList 1 [0] [1; 0] [[1]; []])
    (mkComm 1 0).

(** coul/diel/omp for two atom types, with eps_s = 80, rme = 2 and
    sigmae = 0.5 for every pair, the cutoff 5.0 for the pairs (1,1) and (2,2)
    and the cutoff 0.5 for the pair (1,2): the state
    [pair_coeff 1 1 80.0 2.0 0.5 5.0], [pair_coeff 1 2 80.0 2.0 0.5 0.5],
    [pair_coeff 2 2 80.0 2.0 0.5 5.0] and the initialization leave.  The
    table [cutsq] holds the squares, 25 and 0.25. *)
Definition diel_two_cutoffs : Diel.PairCoulDielOMP R (list (Tallied R)) :=
  Diel.mkPair 5%R 80%R (1/2 * (52/10 + 80))%R (1/2 * (80 - 52/10))%R 0 0 1
    (fun _ _ => 1) (fun i j => if i =? j then 5%R else (1/2)%R)
    (fun i j => if i =? j then 25%R else (1/4)%R)
    (fun _ _ => (1/2)%R) (fun _ _ => 2%R) (fun _ _ => 0%R) (mkEv 0 0 []).

(** The type pairs of two atom types, in the order of the initialization. *)
Definition pairs_of_two_types : list (Z * Z) := [(1, 1); (1, 2); (2, 2)].

(** coul/debye/omp with two atom types, of which only the pair (1,1) has
    been set, with the cutoff 5.0; the global cutoff is 7.0. *)
Definition debye_unset : Debye.PairCoulDebyeOMP R (list (Tallied R)) :=
  Debye.mkPair (1/2)%R 7%R 0 0 1
    (fun i j => if (i =? 1) && (j =? 1) then 1 else 0)
    (fun i j => if (i =? 1) && (j =? 1) then 5%R else 0%R)
    (fun _ _ => 0%R) (mkEv 0 0 []).


(** Four atoms and two atom types.  Atom 0 (type 1, charge +1) is at the
    origin; its neighbors are atom 1 (type 1) at (1,0,0) and atom 3 (type 2)
    at (-1,0,0), both of charge -1: the two partners differ in their type
    only.  Atom 2 (charge +2) is far away and nobody's neighbor. *)
Definition four_atoms : LAMMPS R :=
  mkLAMMPS
    (mkAtom 4 0 2 1
       [mkVec3 0 0 0; mkVec3 1 0 0; mkVec3 50 0 0; mkVec3 (-1) 0 0]%R
       [mkVec3 0 0 0; mkVec3 0 0 0; mkVec3 0 0 0; mkVec3 0 0 0]%R
       [1; -1; 2; -1]%R [1; 1; 1; 2])
    (mkForce 1 [1; 0; 0; 0]%R [1; 0; 0; 0]%R 1%R)
    (mkNeighList 1 [0] [2; 0; 0; 0] [[1; 3]; []; []; []])
    (mkComm 1 0).

Definition diel_thr0_4 : Diel.Thr R (list (Tallied R)) :=
  Diel.mkThr [mkVec3 0 0 0; mkVec3 0 0 0; mkVec3 0 0 0; mkVec3 0 0 0]%R 0%R [].

(** coul/diel/omp with the offset mode on, after
    [pair_style coul/diel/omp 5.0], [pair_coeff * * 80.0 5.0 0.5] and the
    initialization of the three type pairs; the table [cutsq] holds the
    square 25 of the cutoff, which the engine stores after [init_one]. *)
Definition diel_shifted_set : Diel.PairCoulDielOMP R (list (Tallied R)) :=
  get_ok (diel_new 1)
    (Diel.coeff (H0 := engR) 5 ["*"; "*"; "80.0"; "5.0"; "0.5"]
       (get_ok (diel_new 1)
          (Diel.settings (H0 := engR) 1 ["5.0"] (diel_new 1) four_atoms))
       four_atoms).
Definition diel_shifted_init : Diel.PairCoulDielOMP R (list (Tallied R)) :=
  get_ok (diel_new 1)
    (Diel.init_all pairs_of_two_types diel_shifted_set four_atoms).
Definition diel_shifted : Diel.PairCoulDielOMP R (list (Tallied R)) :=
  let p := diel_shifted_init in
  Diel.mkPair (Diel.cut_global p) (Diel.eps_s p) (Diel.a_eps p) (Diel.b_eps p)
    (Diel.offset_flag p) (Diel.mix_flag p) (Diel.allocated p) (Diel.setflag p)
    (Diel.cut p) (fun _ _ => 25%R) (Diel.sigmae p) (Diel.rme p) (Diel.offset p)
    (Diel.ev p).

(** ** Concrete systems in binary64 *)

Definition engF (libm_exp libm_tanh : float -> float)
  : Engine float (list (Tallied float)) :=
  RefEngine (H := DoubleF libm_exp libm_tanh) (fun _ => 0%float) (fun _ n => (1, n)).

(** Two atoms of type 1 with the charges +1 and -1 at the same position:
    the squared separation the kernel computes is exactly zero. *)
Definition coincident : LAMMPS float :=
  mkLAMMPS
    (mkAtom 2 0 1 1
       [mkVec3 0 0 0; mkVec3 0 0 0]%float [mkVec3 0 0 0; mkVec3 0 0 0]%float
       [1; -1]%float [1; 1])
    (mkForce 1 [1; 0; 0; 0]%float [1; 0; 0; 0]%float 1%float)
    (mkNeighList 1 [0] [1; 0] [[1]; []])
    (mkComm 1 0).

(** coul/debye/omp with kappa = 0.5, and coul/diel/omp with eps_s = 80,
    rme = 2 and sigmae = 0.5; the cutoff is 5.0 for every pair. *)
Definition debyeF : Debye.PairCoulDebyeOMP float (list (Tallied float)) :=
  Debye.mkPair 0.5%float 5%float 0 0 1 (fun _ _ => 1) (fun _ _ => 5%float)
    (fun _ _ => 25%float) (mkEv 0 0 []).
Definition dielF : Diel.PairCoulDielOMP float (list (Tallied float)) :=
  Diel.mkPair 5%float 80%float (0.5 * (0x1.4cccccccccccdp+2 + 80))%float
    (0.5 * (80 - 0x1.4cccccccccccdp+2))%float 0 0 1
    (fun _ _ => 1) (fun _ _ => 5%float) (fun _ _ => 25%float)
    (fun _ _ => 0.5%float) (fun _ _ => 2%float) (fun _ _ => 0%float)
    (mkEv 0 0 []).

Definition debye_thr0F : Debye.Thr float (list (Tallied float)) :=
  Debye.mkThr [mkVec3 0 0 0; mkVec3 0 0 0]%float 0%float [].
Definition diel_thr0F : Diel.Thr float (list (Tallied float)) :=
  Diel.mkThr [mkVec3 0 0 0; mkVec3 0 0 0]%float 0%float [].

(** What the four paths compute for the pair of [coincident], for a given
    [exp] and [tanh] of the C library: the squared separation; the x
    component of the force on atom 0 after the iteration of each kernel;
    the force and the energy [single] returns at [rsq = 0]. *)
Section Binary64.
Context (libm_exp libm_tanh : float -> float).

#[local] Instance DoubleF_inst : Double float := DoubleF libm_exp libm_tanh.

Definition coincident_rsq : float := rsq coincident 0 (partner coincident 0 0).

Definition debye_force_x : float :=
  v0 (rd (Debye.thr_f
            (Debye.eval_pair (H0 := engF libm_exp libm_tanh) false false true debyeF
               coincident 0 0 debye_thr0F 0)) 0).

Definition debye_tallied : list (Tallied float) :=
  Debye.thr_tally
    (Debye.eval_pair (H0 := engF libm_exp libm_tanh) true true true debyeF
       coincident 0 0 debye_thr0F 0).

Definition diel_force_x : float :=
  v0 (rd (Diel.thr_f
            (Diel.eval_pair (H0 := engF libm_exp libm_tanh) false false true dielF
               coincident 0 1 0 diel_thr0F 0)) 0).

Definition debye_single_zero : float * float :=
  Debye.single debyeF coincident 0 1 1 1 0%float 1%float 0%float.

Definition diel_single_zero : float * float :=
  Diel.single dielF coincident 0 1 1 1 0%float 1%float 0%float.
End Binary64.

(** A binary64 value that is an infinity or not a number. *)
Definition inf_or_nan (v : float) : Prop :=
  Prim2SF v = S754_nan \/ exists s, Prim2SF v = S754_infinity s.

(** Two atoms at the same position, over the real numbers. *)
Definition coincidentR : LAMMPS R :=
  mkLAMMPS
    (mkAtom 2 0 1 1
       [mkVec3 0 0 0; mkVec3 0 0 0]%R [mkVec3 0 0 0; mkVec3 0 0 0]%R
       [1; -1]%R [1; 1])
    (mkForce 1 [1; 0; 0; 0]%R [1; 0; 0; 0]%R 1%R)
    (mkNeighList 1 [0] [1; 0] [[1]; []])
    (mkComm 1 0).

(** * Definitions used by the further properties *)

(** The pair style [coeff] works on: the one it was called on, or the one
    [allocate] makes of it when nothing was allocated before. *)
Definition coeff_base {D A} `{Double D} `{Engine D A}
    (p : Diel.PairCoulDielOMP D A) (lmp : LAMMPS D) : Diel.PairCoulDielOMP D A :=
  if negb (truthy (Diel.allocated p)) then Diel.allocate p lmp else p.

(** The type pairs the two loops of [coeff] visit for the arguments [arg]:
    [ilo <= i <= ihi] and [MAX(jlo,i) <= j <= jhi], with the bounds
    [Force::bounds] reads from [arg[0]] and [arg[1]]. *)
Definition coeff_visits {D A} `{Engine D A} (arg : list string) (lmp : LAMMPS D)
    (i j : Z) : Prop :=
  fst (bounds (rd arg 0) (ntypes (atom lmp))) <= i
  /\ i <= snd (bounds (rd arg 0) (ntypes (atom lmp)))
  /\ Z.max (fst (bounds (rd arg 1) (ntypes (atom lmp)))) i <= j
  /\ j <= snd (bounds (rd arg 1) (ntypes (atom lmp))).

(** The tables and the counter after the two loops of [coeff], for the
    bounds of the arguments and the values [s] (sigmae), [r] (rme) and [c]
    (cut) of the command. *)
Definition coeff_loops {D A} `{Engine D A} (arg : list string) (lmp : LAMMPS D)
    (s r c : D) (l0 : @Diel.CoeffLoop D) : @Diel.CoeffLoop D :=
  for_le (fst (bounds (rd arg 0) (ntypes (atom lmp))))
    (snd (bounds (rd arg 0) (ntypes (atom lmp))))
    (fun l i =>
       for_le (Z.max (fst (bounds (rd arg 1) (ntypes (atom lmp)))) i)
         (snd (bounds (rd arg 1) (ntypes (atom lmp))))
         (fun l j =>
            Diel.mkCoeffLoop (tset (Diel.c_sigmae l) i j s)
              (tset (Diel.c_rme l) i j r) (tset (Diel.c_cut l) i j c)
              (tset (Diel.c_setflag l) i j 1) (Diel.c_count l + 1))
         l)
    l0.

(** [diel_set 1] after the initialization of the three type pairs. *)
Definition diel_init : Diel.PairCoulDielOMP R (list (Tallied R)) :=
  get_ok (diel_new 1)
    (Diel.init_all pairs_of_two_types (diel_set 1) three_atoms).

(** ** Definitions used by the properties of the thread loops *)

(** The neighbor entries the two loops of a thread visit, for its range
    [iifrom <= ii < iito] of owned atoms: the entry [jj] of the owner
    [i = ilist[ii]], with [0 <= jj < numneigh[i]]. *)
Definition thread_visits {D} (lmp : LAMMPS D) (iifrom iito i jj : Z) : Prop :=
  exists ii, iifrom <= ii < iito /\ i = rd (ilist (neigh lmp)) ii
             /\ 0 <= jj < rd (numneigh (neigh lmp)) i.

(** The sum of the forces of a buffer, in exact arithmetic. *)
Definition total_force (fb : list (Vec3 R)) : Vec3 R :=
  foldr (fun v s => mkVec3 (v0 v + v0 s) (v1 v + v1 s) (v2 v + v2 s))%R
    (mkVec3 0 0 0)%R fb.

(** [two_atoms] with the pair in an excluded relation of kind 2: the
    neighbor entry of atom 0 is [1 + 2*nall = 5], and the scale factors of
    the three kinds are 0, 1/2 and 1. *)
Definition two_atoms_excluded : LAMMPS R :=
  mkLAMMPS
    (mkAtom 2 0 1 1
       [mkVec3 0 0 0; mkVec3 1 0 0]%R [mkVec3 0 0 0; mkVec3 0 0 0]%R
       [1; -1]%R [1; 1])
    (mkForce 1 [1; 0; 1/2; 1]%R [1; 0; 0; 0]%R 1%R)
    (mkNeighList 1 [0] [1; 0] [[5]; []])
    (mkComm 1 0).
(** * Properties *)

(** ** Loops *)

Lemma foldl_sim {S T X} (R : S -> T -> Prop) (g : S -> X -> S) (h : T -> X -> T)
    (l : list X) :
  (forall s t a, R s t -> R (g s a) (h t a)) ->
  forall s t, R s t -> R (foldl g s l) (foldl h t l).
Proof.
  intros Hstep. induction l as [|a l IH]; intros s t Hst; simpl.
  - exact Hst.
  - apply IH, Hstep, Hst.
Qed.

Lemma for_lt_sim {S T} (R : S -> T -> Prop) lo hi (g : S -> Z -> S) (h : T -> Z -> T) :
  (forall s t a, R s t -> R (g s a) (h t a)) ->
  forall s t, R s t -> R (for_lt lo hi g s) (for_lt lo hi h t).
Proof. intros Hstep s t Hst. unfold for_lt. apply foldl_sim; assumption. Qed.

Lemma foldl_inv {S X} (P : S -> Prop) (g : S -> X -> S) (l : list X) :
  (forall s a, a ∈ l -> P s -> P (g s a)) ->
  forall s, P s -> P (foldl g s l).
Proof.
  induction l as [|a l IH]; intros Hstep s Hs; simpl.
  - exact Hs.
  - apply IH.
    + intros s' b Hb. apply Hstep. apply elem_of_cons. now right.
    + apply Hstep; [apply elem_of_cons; now left | exact Hs].
Qed.

Lemma for_le_inv {S} (P : S -> Prop) lo hi (g : S -> Z -> S) :
  (forall s a, lo <= a <= hi -> P s -> P (g s a)) ->
  forall s, P s -> P (for_le lo hi g s).
Proof.
  intros Hstep s Hs. unfold for_le. apply foldl_inv; [|exact Hs].
  intros s' a Ha. apply Hstep. apply elem_of_seqZ in Ha. lia.
Qed.

(** ** Tables and arrays *)

Lemma tset_eq {X} (t : table X) i j v : tset t i j v i j = v.
Proof. unfold tset. now rewrite !Z.eqb_refl. Qed.

Lemma tset_ne {X} (t : table X) i j v a b :
  (a, b) <> (i, j) -> tset t i j v a b = t a b.
Proof.
  intros Hne. unfold tset.
  destruct (Z.eqb_spec a i) as [->|]; [|reflexivity].
  destruct (Z.eqb_spec b j) as [->|]; [|reflexivity].
  now destruct Hne.
Qed.

Lemma rd_wr_eq {X} `{Inhabited X} (a : list X) i v :
  0 <= i < Z.of_nat (length a) -> rd (wr a i v) i = v.
Proof.
  intros Hi. unfold rd, wr. apply list_lookup_total_insert_eq. lia.
Qed.

Lemma rd_wr_ne {X} `{Inhabited X} (a : list X) i k v :
  0 <= i -> 0 <= k -> k <> i -> rd (wr a i v) k = rd a k.
Proof.
  intros Hi Hk Hne. unfold rd, wr. apply list_lookup_total_insert_ne. lia.
Qed.

Lemma length_wr {X} (a : list X) i v : length (wr a i v) = length a.
Proof. unfold wr. apply length_insert. Qed.

(** ** The forces do not depend on the energy and virial flags *)

Section Flags.
Context {D A : Type} `{Double D} `{Engine D A}.

Lemma debye_eval_jj_f EV E EV' E' N (p p' : Debye.PairCoulDebyeOMP D A) lmp tid i
    qtmp xtmp ytmp ztmp itype jlist st st' jj :
  Debye.kappa p = Debye.kappa p' -> Debye.cutsq p = Debye.cutsq p' ->
  Debye.thr_f st = Debye.thr_f st' ->
  Debye.thr_f (Debye.eval_jj EV E N p lmp tid i qtmp xtmp ytmp ztmp itype jlist st jj)
  = Debye.thr_f (Debye.eval_jj EV' E' N p' lmp tid i qtmp xtmp ytmp ztmp itype jlist st' jj).
Proof.
  intros Hk Hc Hf. unfold Debye.eval_jj. rewrite Hk, Hc.
  match goal with |- context [dlt ?a ?b] => destruct (dlt a b) end;
    simpl; now rewrite Hf.
Qed.

Lemma debye_eval_thr_f EV E EV' E' N (p p' : Debye.PairCoulDebyeOMP D A) lmp t t' tid :
  Debye.kappa p = Debye.kappa p' -> Debye.cutsq p = Debye.cutsq p' ->
  Debye.thr_f (Debye.eval_thr EV E N p lmp t tid)
  = Debye.thr_f (Debye.eval_thr EV' E' N p' lmp t' tid).
Proof.
  intros Hk Hc. unfold Debye.eval_thr.
  destruct (loop_setup_thr _ _ _ _ _) as [[fbuf iifrom] iito].
  apply (for_lt_sim (fun s s' => Debye.thr_f s = Debye.thr_f s')); [|reflexivity].
  intros s s' ii Hs. unfold Debye.eval_ii.
  apply (for_lt_sim (fun s s' => Debye.thr_f s = Debye.thr_f s')); [|exact Hs].
  intros u u' jj Hu. now apply debye_eval_jj_f.
Qed.

Lemma debye_eval_f EV E EV' E' N (p p' : Debye.PairCoulDebyeOMP D A) lmp :
  Debye.kappa p = Debye.kappa p' -> Debye.cutsq p = Debye.cutsq p' ->
  snd (Debye.eval EV E N p lmp) = snd (Debye.eval EV' E' N p' lmp).
Proof.
  intros Hk Hc. unfold Debye.eval. simpl. f_equal. f_equal.
  apply (for_lt_sim (fun s s' : list (list (Vec3 D)) * A => fst s = fst s'));
    [|reflexivity].
  intros s s' tid Hs. simpl. rewrite Hs. f_equal. f_equal.
  now apply debye_eval_thr_f.
Qed.

Lemma diel_eval_jj_f EV E EV' E' N (p p' : Diel.PairCoulDielOMP D A) lmp tid i
    qtmp xtmp ytmp ztmp itype jtype jlist st st' jj :
  diel_same_params p p' ->
  Diel.thr_f st = Diel.thr_f st' ->
  Diel.thr_f (Diel.eval_jj EV E N p lmp tid i qtmp xtmp ytmp ztmp itype jtype jlist st jj)
  = Diel.thr_f (Diel.eval_jj EV' E' N p' lmp tid i qtmp xtmp ytmp ztmp itype jtype jlist st' jj).
Proof.
  intros (He & Ha & Hb & Hc & Hr & Hs & Ho) Hf. unfold Diel.eval_jj.
  rewrite He, Ha, Hb, Hc, Hr, Hs.
  match goal with |- context [dlt ?a ?b] => destruct (dlt a b) end;
    simpl; now rewrite Hf.
Qed.

Lemma diel_eval_thr_f EV E EV' E' N (p p' : Diel.PairCoulDielOMP D A) lmp jtype t t' tid :
  diel_same_params p p' ->
  Diel.thr_f (Diel.eval_thr EV E N p lmp jtype t tid)
  = Diel.thr_f (Diel.eval_thr EV' E' N p' lmp jtype t' tid).
Proof.
  intros Hp. unfold Diel.eval_thr.
  destruct (loop_setup_thr _ _ _ _ _) as [[fbuf iifrom] iito].
  apply (for_lt_sim (fun s s' => Diel.thr_f s = Diel.thr_f s')); [|reflexivity].
  intros s s' ii Hs. unfold Diel.eval_ii.
  apply (for_lt_sim (fun s s' => Diel.thr_f s = Diel.thr_f s')); [|exact Hs].
  intros u u' jj Hu. now apply diel_eval_jj_f.
Qed.

Lemma diel_eval_f EV E EV' E' N jtype (p p' : Diel.PairCoulDielOMP D A) lmp :
  diel_same_params p p' ->
  snd (Diel.eval EV E N jtype p lmp) = snd (Diel.eval EV' E' N jtype p' lmp).
Proof.
  intros Hp. unfold Diel.eval. simpl. f_equal. f_equal.
  apply (for_lt_sim (fun s s' : list (list (Vec3 D)) * A => fst s = fst s'));
    [|reflexivity].
  intros s s' tid Hs. simpl. rewrite Hs. f_equal. f_equal.
  now apply diel_eval_thr_f.
Qed.

(** [compute] with energy accounting off ([eflag = 0]) and [compute] with
    energy accounting on (any other [eflag]), on the same pair style, atoms,
    neighbor list and virial flag, leave the same force array [atom->f]: for
    the Debye formula; and for the dielectric formula when the variable
    [jtype] of every thread holds the same value in the two runs. *)
Lemma compute_forces_independent_of_eflag :
  (forall eflag vflag (p : Debye.PairCoulDebyeOMP D A) lmp,
      f (atom (snd (Debye.compute eflag vflag p lmp)))
      = f (atom (snd (Debye.compute 0 vflag p lmp))))
  /\ (forall eflag vflag jtype (p : Diel.PairCoulDielOMP D A) lmp,
      f (atom (snd (Diel.compute eflag vflag jtype p lmp)))
      = f (atom (snd (Diel.compute 0 vflag jtype p lmp)))).
Proof.
  split; intros.
  - f_equal. f_equal. unfold Debye.compute.
    repeat match goal with
           | |- context [if ?c then _ else _] => destruct c
           end; now apply debye_eval_f.
  - f_equal. f_equal. unfold Diel.compute.
    repeat match goal with
           | |- context [if ?c then _ else _] => destruct c
           end; apply diel_eval_f; now repeat split.
Qed.

End Flags.

(** ** One iteration of the inner loop *)

Section Pair.
Context {D A : Type} `{Double D} `{Engine D A}.

(** An entry inside the cutoff: the state after the iteration. *)
Lemma debye_eval_pair_in EV E N (p : Debye.PairCoulDebyeOMP D A) lmp tid i st jj :
  let j := partner lmp i jj in
  let itype := rd (type (atom lmp)) i in
  let jtype := rd (type (atom lmp)) j in
  dlt (rsq lmp i j) (Debye.cutsq p itype jtype) = true ->
  Debye.eval_pair EV E N p lmp tid i st jj =
    let fpair := snd (Debye.single p lmp i j itype jtype (rsq lmp i j)
                        (factor lmp i jj) d_zero) in
    let e := if E then debye_ecoul p lmp i j (rsq lmp i j) (factor lmp i jj)
             else Debye.ecoul st in
    Debye.mkThr
      (accumulate N (nlocal (atom lmp)) (Debye.thr_f st) i j
         (delx lmp i j) (dely lmp i j) (delz lmp i j) fpair)
      e
      (if EV
       then ev_tally_thr i j (nlocal (atom lmp)) N d_zero e fpair
              (delx lmp i j) (dely lmp i j) (delz lmp i j) tid
              (Debye.thr_tally st)
       else Debye.thr_tally st).
Proof.
  intros j itype jtype Hcut. subst j itype jtype.
  unfold Debye.eval_pair, Debye.eval_jj.
  unfold rsq, delx, dely, delz, partner, factor, neighbor, nall in Hcut |- *.
  destruct (_ <? nlocal (atom lmp) + nghost (atom lmp))%Z;
    rewrite Hcut; reflexivity.
Qed.

(** An entry outside the cutoff is skipped. *)
Lemma debye_eval_pair_out EV E N (p : Debye.PairCoulDebyeOMP D A) lmp tid i st jj :
  let j := partner lmp i jj in
  dlt (rsq lmp i j)
    (Debye.cutsq p (rd (type (atom lmp)) i) (rd (type (atom lmp)) j)) = false ->
  Debye.eval_pair EV E N p lmp tid i st jj = st.
Proof.
  intros j Hcut. subst j.
  unfold Debye.eval_pair, Debye.eval_jj.
  unfold rsq, delx, dely, delz, partner, factor, neighbor, nall in Hcut |- *.
  destruct (_ <? nlocal (atom lmp) + nghost (atom lmp))%Z;
    rewrite Hcut; reflexivity.
Qed.

Lemma diel_eval_pair_in EV E N (p : Diel.PairCoulDielOMP D A) lmp tid jtype i st jj :
  let j := partner lmp i jj in
  let itype := rd (type (atom lmp)) i in
  dlt (rsq lmp i j) (Diel.cutsq p itype jtype) = true ->
  Diel.eval_pair EV E N p lmp tid jtype i st jj =
    let fpair := snd (Diel.single p lmp i j itype jtype (rsq lmp i j)
                        (factor lmp i jj) d_zero) in
    let e := if E
             then diel_ecoul p lmp i j itype jtype (rsq lmp i j) (factor lmp i jj)
             else Diel.ecoul st in
    Diel.mkThr
      (accumulate N (nlocal (atom lmp)) (Diel.thr_f st) i j
         (delx lmp i j) (dely lmp i j) (delz lmp i j) fpair)
      e
      (if EV
       then ev_tally_thr i j (nlocal (atom lmp)) N d_zero e fpair
              (delx lmp i j) (dely lmp i j) (delz lmp i j) tid
              (Diel.thr_tally st)
       else Diel.thr_tally st).
Proof.
  intros j itype Hcut. subst j itype.
  unfold Diel.eval_pair, Diel.eval_jj.
  unfold rsq, delx, dely, delz, partner, factor, neighbor, nall in Hcut |- *.
  destruct (_ <? nlocal (atom lmp) + nghost (atom lmp))%Z;
    rewrite Hcut; reflexivity.
Qed.

Lemma diel_eval_pair_out EV E N (p : Diel.PairCoulDielOMP D A) lmp tid jtype i st jj :
  let j := partner lmp i jj in
  dlt (rsq lmp i j) (Diel.cutsq p (rd (type (atom lmp)) i) jtype) = false ->
  Diel.eval_pair EV E N p lmp tid jtype i st jj = st.
Proof.
  intros j Hcut. subst j.
  unfold Diel.eval_pair, Diel.eval_jj.
  unfold rsq, delx, dely, delz, partner, factor, neighbor, nall in Hcut |- *.
  destruct (_ <? nlocal (atom lmp) + nghost (atom lmp))%Z;
    rewrite Hcut; reflexivity.
Qed.

(** The inner loop of [eval_ii] runs [eval_pair]. *)
Lemma debye_eval_ii_pairs EV E N (p : Debye.PairCoulDebyeOMP D A) lmp tid st ii :
  Debye.eval_ii EV E N p lmp tid st ii =
    let i := rd (ilist (neigh lmp)) ii in
    for_lt 0 (rd (numneigh (neigh lmp)) i)
      (Debye.eval_pair EV E N p lmp tid i) st.
Proof. reflexivity. Qed.

Lemma diel_eval_ii_pairs EV E N (p : Diel.PairCoulDielOMP D A) lmp tid jtype st ii :
  Diel.eval_ii EV E N p lmp tid jtype st ii =
    let i := rd (ilist (neigh lmp)) ii in
    for_lt 0 (rd (numneigh (neigh lmp)) i)
      (Diel.eval_pair EV E N p lmp tid jtype i) st.
Proof. reflexivity. Qed.

(** The two accumulations, read back. *)
Lemma accumulate_owner N nloc (fb : list (Vec3 D)) i j dx dy dz fpair :
  0 <= i < Z.of_nat (length fb) -> 0 <= j -> i <> j ->
  rd (accumulate N nloc fb i j dx dy dz fpair) i
  = (mkVec3 (v0 (rd fb i) + dx * fpair) (v1 (rd fb i) + dy * fpair)
       (v2 (rd fb i) + dz * fpair))%dbl.
Proof.
  intros Hi Hj Hne. unfold accumulate.
  destruct (N || (j <? nloc)).
  - unfold f_sub. rewrite rd_wr_ne by lia. unfold f_add. now rewrite rd_wr_eq.
  - unfold f_add. now rewrite rd_wr_eq.
Qed.

Lemma accumulate_partner N nloc (fb : list (Vec3 D)) i j dx dy dz fpair :
  0 <= i -> 0 <= j < Z.of_nat (length fb) -> i <> j ->
  rd (accumulate N nloc fb i j dx dy dz fpair) j
  = if N || (j <? nloc)
    then (mkVec3 (v0 (rd fb j) - dx * fpair) (v1 (rd fb j) - dy * fpair)
            (v2 (rd fb j) - dz * fpair))%dbl
    else rd fb j.
Proof.
  intros Hi Hj Hne. unfold accumulate.
  destruct (N || (j <? nloc)).
  - unfold f_sub. rewrite rd_wr_eq.
    + unfold f_add. now rewrite rd_wr_ne by lia.
    + unfold f_add. rewrite length_wr. lia.
  - unfold f_add. now rewrite rd_wr_ne by lia.
Qed.

Lemma accumulate_other N nloc (fb : list (Vec3 D)) i j dx dy dz fpair k :
  0 <= i -> 0 <= j -> 0 <= k -> k <> i -> k <> j ->
  rd (accumulate N nloc fb i j dx dy dz fpair) k = rd fb k.
Proof.
  intros Hi Hj Hk Hki Hkj. unfold accumulate.
  destruct (N || (j <? nloc)).
  - unfold f_sub. rewrite rd_wr_ne by lia. unfold f_add. now rewrite rd_wr_ne by lia.
  - unfold f_add. now rewrite rd_wr_ne by lia.
Qed.

(** A neighbor entry that passes the test of the kernel, with the owner [i]
    and the partner [j] two different slots of the thread's force buffer:
    the owner's slot gains [del*fpair]; the partner's slot loses [del*fpair]
    when [NEWTON_PAIR] is set or [j < nlocal], and is unchanged otherwise
    (newton off and [j] a ghost); no other slot changes.  [fpair] is the
    force of the pair, as [single] computes it.  The Debye kernel tests the
    cutoff of the types of the two atoms; the dielectric kernel tests the
    table column [jtype] its variable holds. *)
Lemma pair_force_accumulation :
  (forall EV E N (p : Debye.PairCoulDebyeOMP D A) lmp tid i st jj,
      let j := partner lmp i jj in
      let itype := rd (type (atom lmp)) i in
      let jtype := rd (type (atom lmp)) j in
      let fpair := snd (Debye.single p lmp i j itype jtype (rsq lmp i j)
                          (factor lmp i jj) d_zero) in
      let fb := Debye.thr_f st in
      let fb' := Debye.thr_f (Debye.eval_pair EV E N p lmp tid i st jj) in
      dlt (rsq lmp i j) (Debye.cutsq p itype jtype) = true ->
      0 <= i < Z.of_nat (length fb) -> 0 <= j < Z.of_nat (length fb) ->
      i <> j ->
      rd fb' i = (mkVec3 (v0 (rd fb i) + delx lmp i j * fpair)
                    (v1 (rd fb i) + dely lmp i j * fpair)
                    (v2 (rd fb i) + delz lmp i j * fpair))%dbl
      /\ rd fb' j = (if N || (j <? nlocal (atom lmp))
                     then (mkVec3 (v0 (rd fb j) - delx lmp i j * fpair)
                             (v1 (rd fb j) - dely lmp i j * fpair)
                             (v2 (rd fb j) - delz lmp i j * fpair))%dbl
                     else rd fb j)
      /\ forall k, 0 <= k -> k <> i -> k <> j -> rd fb' k = rd fb k)
  /\ (forall EV E N (p : Diel.PairCoulDielOMP D A) lmp tid jtype i st jj,
      let j := partner lmp i jj in
      let itype := rd (type (atom lmp)) i in
      let fpair := snd (Diel.single p lmp i j itype jtype (rsq lmp i j)
                          (factor lmp i jj) d_zero) in
      let fb := Diel.thr_f st in
      let fb' := Diel.thr_f (Diel.eval_pair EV E N p lmp tid jtype i st jj) in
      dlt (rsq lmp i j) (Diel.cutsq p itype jtype) = true ->
      0 <= i < Z.of_nat (length fb) -> 0 <= j < Z.of_nat (length fb) ->
      i <> j ->
      rd fb' i = (mkVec3 (v0 (rd fb i) + delx lmp i j * fpair)
                    (v1 (rd fb i) + dely lmp i j * fpair)
                    (v2 (rd fb i) + delz lmp i j * fpair))%dbl
      /\ rd fb' j = (if N || (j <? nlocal (atom lmp))
                     then (mkVec3 (v0 (rd fb j) - delx lmp i j * fpair)
                             (v1 (rd fb j) - dely lmp i j * fpair)
                             (v2 (rd fb j) - delz lmp i j * fpair))%dbl
                     else rd fb j)
      /\ forall k, 0 <= k -> k <> i -> k <> j -> rd fb' k = rd fb k).
Proof.
  split.
  - intros EV E N p lmp tid i st jj j itype jtype fpair fb fb' Hcut Hi Hj Hne.
    subst fb'. rewrite (debye_eval_pair_in EV E N p lmp tid i st jj Hcut).
    cbn [Debye.thr_f]. fold j itype jtype fpair fb. repeat split.
    + apply accumulate_owner; lia.
    + apply accumulate_partner; lia.
    + intros k Hk Hki Hkj. apply accumulate_other; lia.
  - intros EV E N p lmp tid jtype i st jj j itype fpair fb fb' Hcut Hi Hj Hne.
    subst fb'. rewrite (diel_eval_pair_in EV E N p lmp tid jtype i st jj Hcut).
    cbn [Diel.thr_f]. fold j itype fpair fb. repeat split.
    + apply accumulate_owner; lia.
    + apply accumulate_partner; lia.
    + intros k Hk Hki Hkj. apply accumulate_other; lia.
Qed.

End Pair.

(** ** The concrete systems *)

Ltac runR :=
  cbv -[Rplus Rminus Rmult Rdiv Rinv Ropp IZR Rlt_dec R_sqrt.sqrt
        Rtrigo_def.exp Rtrigo_def.tanh Rltb Rabs].

Lemma Rltb_true a b : (a < b)%R -> Rltb a b = true.
Proof. intros Hab. unfold Rltb. destruct (Rlt_dec a b); [reflexivity | contradiction]. Qed.

Lemma Rltb_false a b : (b <= a)%R -> Rltb a b = false.
Proof. intros Hab. unfold Rltb. destruct (Rlt_dec a b); [lra | reflexivity]. Qed.

Lemma two_atoms_partner : partner two_atoms 0 0 = 1.
Proof. reflexivity. Qed.

Lemma two_atoms_rsq : rsq two_atoms 0 1 = 1%R.
Proof. runR. lra. Qed.

Lemma two_atoms_in_cutoff (c : R) : (1 < c)%R -> Rltb (rsq two_atoms 0 1) c = true.
Proof. intros Hc. rewrite two_atoms_rsq. now apply Rltb_true. Qed.

Lemma pair_force_accumulation_two_atoms :
  let fd := Debye.thr_f
              (Debye.eval_pair (H0 := engR) true true false debyeR two_atoms
                 0 0 debye_thr0 0) in
  let fl := Diel.thr_f
              (Diel.eval_pair (H0 := engR) true true false dielR two_atoms
                 0 1 0 diel_thr0 0) in
  let fpd := snd (Debye.single debyeR two_atoms 0 1 1 1 (rsq two_atoms 0 1) 1%R 0%R) in
  let fpl := snd (Diel.single dielR two_atoms 0 1 1 1 (rsq two_atoms 0 1) 1%R 0%R) in
  (rd fd 1 = mkVec3 (0 - delx two_atoms 0 1 * fpd) (0 - dely two_atoms 0 1 * fpd)
               (0 - delz two_atoms 0 1 * fpd))%R
  /\ (rd fl 1 = mkVec3 (0 - delx two_atoms 0 1 * fpl) (0 - dely two_atoms 0 1 * fpl)
                  (0 - delz two_atoms 0 1 * fpl))%R.
Proof.
  intros fd fl fpd fpl.
  destruct (pair_force_accumulation (D := R) (A := list (Tallied R)) (H0 := engR))
    as [Hd Hl].
  split.
  - refine (proj1 (proj2 (Hd true true false debyeR two_atoms 0 0 debye_thr0 0
                           _ _ _ _))).
    + apply two_atoms_in_cutoff. runR. lra.
    + vm_compute. split; [discriminate | reflexivity].
    + vm_compute. split; [discriminate | reflexivity].
    + discriminate.
  - refine (proj1 (proj2 (Hl true true false dielR two_atoms 0 1 0 diel_thr0 0
                           _ _ _ _))).
    + apply two_atoms_in_cutoff. runR. lra.
    + vm_compute. split; [discriminate | reflexivity].
    + vm_compute. split; [discriminate | reflexivity].
    + discriminate.
Defined.

(** ** The Debye scenario in exact arithmetic *)

Lemma exp_half_pos : (0 < exp (- (1 / 2)))%R.
Proof. apply exp_pos. Qed.

(** [single] at q_i q_j = -1, r = 1, kappa = 0.5, qqrd2e = 1 and scale 1. *)
Lemma debye_single_scenario {A} (p : Debye.PairCoulDebyeOMP R A) lmp i j itype jtype fl :
  Debye.kappa p = (1 / 2)%R -> qqrd2e (force lmp) = 1%R ->
  rd (q (atom lmp)) i = 1%R -> rd (q (atom lmp)) j = (-1)%R ->
  Debye.single p lmp i j itype jtype 1%R 1%R fl
  = (- exp (- (1 / 2)), - (3 / 2 * exp (- (1 / 2))))%R.
Proof.
  intros Hk Hq Hi Hj. unfold Debye.single. rewrite Hk, Hq, Hi, Hj.
  cbn [dmul ddiv dadd dneg dsqrt dexp d_one DoubleR].
  rewrite sqrt_1.
  replace (- (1 / 2) * 1)%R with (- (1 / 2))%R by lra.
  f_equal; lra.
Qed.

Lemma debye_ecoul_scenario {A} (p : Debye.PairCoulDebyeOMP R A) lmp i j :
  Debye.kappa p = (1 / 2)%R -> qqrd2e (force lmp) = 1%R ->
  rd (q (atom lmp)) i = 1%R -> rd (q (atom lmp)) j = (-1)%R ->
  debye_ecoul p lmp i j 1%R 1%R = (- exp (- (1 / 2)))%R.
Proof.
  intros Hk Hq Hi Hj. unfold debye_ecoul. rewrite Hk, Hq, Hi, Hj.
  cbn [dmul ddiv dadd dneg dsqrt dexp d_one DoubleR].
  rewrite sqrt_1.
  replace (- (1 / 2) * 1)%R with (- (1 / 2))%R by lra.
  lra.
Qed.

(** C6.  Debye formula, exact real arithmetic: charges +1 and -1 at the
    squared separation 1 (r = 1), kappa = 0.5, qqrd2e = 1, squared cutoff 25
    (cutoff 5) and scale factor 1.  The kernel with [EFLAG] set assigns
    [ecoul = -e^(-0.5)], accumulates the force [del * fpair] with
    [fpair = -1.5 e^(-0.5)] and tallies these two values; [single] returns
    the same energy and force.  Their magnitudes are e^(-0.5) and
    1.5 e^(-0.5). *)
Theorem debye_scenario {A} `{Engine R A} EV N (p : Debye.PairCoulDebyeOMP R A)
    lmp tid i st jj :
  let j := partner lmp i jj in
  let itype := rd (type (atom lmp)) i in
  let jtype := rd (type (atom lmp)) j in
  let e := (- exp (- (1 / 2)))%R in
  let fpair := (- (3 / 2 * exp (- (1 / 2))))%R in
  let st' := Debye.eval_pair EV true N p lmp tid i st jj in
  rd (q (atom lmp)) i = 1%R -> rd (q (atom lmp)) j = (-1)%R ->
  rsq lmp i j = 1%R -> factor lmp i jj = 1%R ->
  Debye.kappa p = (1 / 2)%R -> qqrd2e (force lmp) = 1%R ->
  Debye.cutsq p itype jtype = 25%R ->
  Debye.ecoul st' = e
  /\ Debye.thr_f st'
     = accumulate N (nlocal (atom lmp)) (Debye.thr_f st) i j
         (delx lmp i j) (dely lmp i j) (delz lmp i j) fpair
  /\ Debye.thr_tally st'
     = (if EV
        then ev_tally_thr i j (nlocal (atom lmp)) N 0%R e fpair
               (delx lmp i j) (dely lmp i j) (delz lmp i j) tid
               (Debye.thr_tally st)
        else Debye.thr_tally st)
  /\ Debye.single p lmp i j itype jtype 1%R 1%R 0%R = (e, fpair)
  /\ Rabs fpair = (3 / 2 * exp (- (1 / 2)))%R
  /\ Rabs e = exp (- (1 / 2)).
Proof.
  intros j itype jtype e fpair st' Hi Hj Hr Hf Hk Hq Hc.
  assert (Hcut : dlt (rsq lmp i j) (Debye.cutsq p itype jtype) = true).
  { rewrite Hr, Hc. apply Rltb_true. lra. }
  subst st'. rewrite (debye_eval_pair_in EV true N p lmp tid i st jj Hcut).
  fold j itype jtype. rewrite Hr, Hf.
  rewrite (debye_single_scenario p lmp i j itype jtype d_zero Hk Hq Hi Hj).
  rewrite (debye_ecoul_scenario p lmp i j Hk Hq Hi Hj).
  pose proof exp_half_pos as Hpos.
  cbn [snd Debye.ecoul Debye.thr_f Debye.thr_tally].
  repeat split.
  - apply (debye_single_scenario p lmp i j itype jtype 0%R Hk Hq Hi Hj).
  - subst fpair. rewrite Rabs_left by lra. lra.
  - subst e. rewrite Rabs_left by lra. lra.
Qed.

Lemma debye_scenario_witness :
  let st' := Debye.eval_pair (H0 := engR) true true true debyeR two_atoms 0 0
               debye_thr0 0 in
  Debye.ecoul st' = (- exp (- (1 / 2)))%R
  /\ Debye.thr_tally st'
     = [mkTallied 0 1 (- exp (- (1 / 2)))%R (- (3 / 2 * exp (- (1 / 2))))%R 0]
  /\ Debye.single debyeR two_atoms 0 1 1 1 1%R 1%R 0%R
     = (- exp (- (1 / 2)), - (3 / 2 * exp (- (1 / 2))))%R.
Proof.
  intros st'.
  destruct (debye_scenario (H := engR) true true debyeR two_atoms 0 0 debye_thr0 0)
    as (He & _ & Ht & Hs & _).
  - reflexivity.
  - reflexivity.
  - apply two_atoms_rsq.
  - reflexivity.
  - reflexivity.
  - reflexivity.
  - reflexivity.
  - repeat split; [exact He | exact Ht | exact Hs].
Defined.

(** The whole of [compute] on the scenario, with the reference engine and
    one thread: the forces on the two atoms and the pair that is tallied. *)
Lemma debye_scenario_compute :
  let r := Debye.compute (H0 := engR) 1 0 debyeR two_atoms in
  f (atom (snd r))
  = [mkVec3 (3 / 2 * exp (- (1 / 2))) 0 0;
     mkVec3 (- (3 / 2 * exp (- (1 / 2)))) 0 0]%R
  /\ tally (Debye.ev (fst r))
     = [mkTallied 0 1 (- exp (- (1 / 2)))%R (- (3 / 2 * exp (- (1 / 2))))%R 0].
Proof.
  runR. rewrite Rltb_true by lra. runR.
  replace ((0 - 1) * (0 - 1) + (0 - 0) * (0 - 0) + (0 - 0) * (0 - 0))%R
    with 1%R by lra.
  rewrite sqrt_1.
  replace (- (1 / 2) * 1)%R with (- (1 / 2))%R by lra.
  split; repeat f_equal; lra.
Qed.

(** ** [settings]: the cutoffs that are reset *)

Lemma foldl_establish {S X} (P : S -> Prop) (g : S -> X -> S) (l : list X) a :
  a ∈ l ->
  (forall s, P (g s a)) ->
  (forall s b, P s -> P (g s b)) ->
  forall s, P (foldl g s l).
Proof.
  intros Ha Hest Hkeep. induction l as [|b l IH]; intros s; simpl.
  - now apply elem_of_nil in Ha.
  - apply elem_of_cons in Ha as [<-|Ha].
    + apply foldl_inv; [|apply Hest]. intros s' c _. apply Hkeep.
    + now apply IH.
Qed.

Lemma for_le_establish {S} (P : S -> Prop) lo hi (g : S -> Z -> S) a :
  lo <= a <= hi ->
  (forall s, P (g s a)) ->
  (forall s b, P s -> P (g s b)) ->
  forall s, P (for_le lo hi g s).
Proof.
  intros Ha Hest Hkeep s. unfold for_le.
  apply (foldl_establish P g _ a); [|assumption|assumption].
  apply elem_of_seqZ. lia.
Qed.

(** The double loop of [settings], on the table [cut]. *)
Lemma settings_loop_set {X} n (sf : table Z) (g : X) (c : table X) a b :
  1 <= a -> a < b -> b <= n -> truthy (sf a b) = true ->
  for_le 1 n
    (fun c i => for_le (i+1) n
                  (fun c j => if truthy (sf i j) then tset c i j g else c) c)
    c a b = g.
Proof.
  intros Ha Hab Hb Hset.
  assert (Hkeep : forall i j (s : table X), s a b = g ->
            (if truthy (sf i j) then tset s i j g else s) a b = g).
  { intros i j s Hs. destruct (truthy (sf i j)); [|exact Hs].
    unfold tset. now destruct ((a =? i) && (b =? j)). }
  apply (for_le_establish (fun s : table X => s a b = g) 1 n _ a); [lia| |].
  - intros s.
    apply (for_le_establish (fun s : table X => s a b = g) (a+1) n _ b); [lia| |].
    + intros s'. rewrite Hset. apply tset_eq.
    + intros s' j. apply Hkeep.
  - intros s i Hs. apply for_le_inv; [|exact Hs].
    intros s' j _. apply Hkeep.
Qed.

Lemma settings_loop_keep {X} n (sf : table Z) (g : X) (c : table X) a b :
  ~ (1 <= a /\ a < b /\ b <= n /\ truthy (sf a b) = true) ->
  for_le 1 n
    (fun c i => for_le (i+1) n
                  (fun c j => if truthy (sf i j) then tset c i j g else c) c)
    c a b = c a b.
Proof.
  intros Hno.
  apply (for_le_inv (fun s : table X => s a b = c a b)); [|reflexivity].
  intros s i Hi Hs.
  apply (for_le_inv (fun s : table X => s a b = c a b)); [|exact Hs].
  intros s' j Hj Hs'.
  destruct (truthy (sf i j)) eqn:Hset; [|exact Hs'].
  rewrite tset_ne; [exact Hs'|].
  intros [= -> ->]. apply Hno. repeat split; [lia | lia | lia | exact Hset].
Qed.

(** C10.  [settings] on a pair style whose tables are allocated: the new
    global cutoff is stored in [cut[i][j]] for the pairs with
    [1 <= i < j <= ntypes] whose [setflag] is set, and in no other entry; in
    particular the entry of a same-type pair [cut[i][i]] keeps its value,
    set or not.  For coul/debye/omp and for coul/diel/omp. *)
Theorem settings_resets_off_diagonal_only {D A} `{Double D} `{Engine D A} :
  (forall narg arg (p p' : Debye.PairCoulDebyeOMP D A) lmp,
      Debye.settings narg arg p lmp = Ok p' ->
      truthy (Debye.allocated p) = true ->
      Debye.cut_global p' = numeric (rd arg 1)
      /\ (forall i j, 1 <= i -> i < j -> j <= ntypes (atom lmp) ->
                      truthy (Debye.setflag p i j) = true ->
                      Debye.cut p' i j = Debye.cut_global p')
      /\ (forall i, Debye.cut p' i i = Debye.cut p i i)
      /\ (forall i j, ~ (1 <= i /\ i < j /\ j <= ntypes (atom lmp)
                         /\ truthy (Debye.setflag p i j) = true) ->
                      Debye.cut p' i j = Debye.cut p i j))
  /\ (forall narg arg (p p' : Diel.PairCoulDielOMP D A) lmp,
      Diel.settings narg arg p lmp = Ok p' ->
      truthy (Diel.allocated p) = true ->
      Diel.cut_global p' = numeric (rd arg 0)
      /\ (forall i j, 1 <= i -> i < j -> j <= ntypes (atom lmp) ->
                      truthy (Diel.setflag p i j) = true ->
                      Diel.cut p' i j = Diel.cut_global p')
      /\ (forall i, Diel.cut p' i i = Diel.cut p i i)
      /\ (forall i j, ~ (1 <= i /\ i < j /\ j <= ntypes (atom lmp)
                         /\ truthy (Diel.setflag p i j) = true) ->
                      Diel.cut p' i j = Diel.cut p i j)).
Proof.
  split; intros narg arg p p' lmp Hs Hall.
  - unfold Debye.settings in Hs.
    destruct (negb (narg =? 2)); [discriminate|].
    injection Hs as <-. rewrite Hall. cbn [Debye.cut_global Debye.cut].
    repeat split.
    + intros i j Hi Hij Hj Hset. now apply settings_loop_set.
    + intros i. apply settings_loop_keep. lia.
    + intros i j Hno. now apply settings_loop_keep.
  - unfold Diel.settings in Hs.
    destruct (negb (narg =? 1)); [discriminate|].
    injection Hs as <-. rewrite Hall. cbn [Diel.cut_global Diel.cut].
    repeat split.
    + intros i j Hi Hij Hj Hset. now apply settings_loop_set.
    + intros i. apply settings_loop_keep. lia.
    + intros i j Hno. now apply settings_loop_keep.
Qed.

Lemma settings_resets_off_diagonal_only_witness :
  exists pd pl,
    Debye.settings (H0 := engR) 2 ["0.5"; "7.0"] debyeR three_atoms = Ok pd
    /\ Debye.cut pd 1 2 = 7%R /\ Debye.cut pd 1 1 = 5%R /\ Debye.cut pd 2 2 = 5%R
    /\ Diel.settings (H0 := engR) 1 ["7.0"] dielR three_atoms = Ok pl
    /\ Diel.cut pl 1 2 = 7%R /\ Diel.cut pl 1 1 = 5%R /\ Diel.cut pl 2 2 = 5%R.
Proof.
  destruct (settings_resets_off_diagonal_only (D := R) (H0 := engR)) as [Hd Hl].
  eexists. eexists.
  split; [reflexivity|].
  match goal with
  | |- Debye.cut ?p _ _ = _ /\ _ =>
      destruct (Hd 2 ["0.5"; "7.0"] debyeR p three_atoms eq_refl eq_refl)
        as (Hg & Hset & Hdiag & _)
  end.
  split.
  { rewrite (Hset 1 2); [exact Hg | lia | lia | cbn; lia | reflexivity]. }
  split; [now rewrite Hdiag|]. split; [now rewrite Hdiag|].
  split; [reflexivity|].
  match goal with
  | |- Diel.cut ?p _ _ = _ /\ _ =>
      destruct (Hl 1 ["7.0"] dielR p three_atoms eq_refl eq_refl)
        as (Hg' & Hset' & Hdiag' & _)
  end.
  split.
  { rewrite (Hset' 1 2); [exact Hg' | lia | lia | cbn; lia | reflexivity]. }
  split; now rewrite Hdiag'.
Defined.

(** ** The coefficient table of coul/diel/omp after the initialization *)

Section Symmetry.
Context {D A : Type} `{Double D} `{Engine D A}.

Lemma diel_init_one_symmetric i j (p p' : Diel.PairCoulDielOMP D A) lmp c :
  Diel.init_one i j p lmp = Ok (p', c) -> diel_symmetric_at p' i j.
Proof.
  unfold Diel.init_one. destruct (Diel.setflag p i j =? 0); [discriminate|].
  intros [= <- _]. unfold diel_symmetric_at. cbn.
  destruct (decide (i = j)) as [->|Hne].
  - repeat split.
  - rewrite !tset_eq. rewrite !(tset_ne _ j i _ i j) by congruence.
    repeat split; destruct (truthy _); now rewrite tset_eq.
Qed.

Lemma diel_symmetric_at_sym (p : Diel.PairCoulDielOMP D A) a b :
  diel_symmetric_at p a b -> diel_symmetric_at p b a.
Proof. intros (Hs & Hr & Hc & Ho). now repeat split. Qed.

Lemma diel_init_one_keeps_symmetric i j (p p' : Diel.PairCoulDielOMP D A) lmp c a b :
  Diel.init_one i j p lmp = Ok (p', c) ->
  diel_symmetric_at p a b -> diel_symmetric_at p' a b.
Proof.
  intros Hinit Hsym.
  destruct (decide ((a, b) = (i, j))) as [[= -> ->]|Hab].
  { eapply diel_init_one_symmetric, Hinit. }
  destruct (decide ((a, b) = (j, i))) as [[= -> ->]|Hba].
  { eapply diel_symmetric_at_sym, diel_init_one_symmetric, Hinit. }
  revert Hinit. unfold Diel.init_one.
  destruct (Diel.setflag p i j =? 0); [discriminate|].
  intros [= <- _]. destruct Hsym as (Hs & Hr & Hc & Ho).
  unfold diel_symmetric_at. cbn.
  assert (Hba' : (b, a) <> (j, i)) by congruence.
  assert (Hab' : (b, a) <> (i, j)) by congruence.
  rewrite !(tset_ne _ j i _ a b), !(tset_ne _ j i _ b a) by assumption.
  repeat split; try assumption.
  destruct (truthy _); now rewrite !(tset_ne _ i j) by assumption.
Qed.

Lemma diel_init_all_symmetric l : forall (p p' : Diel.PairCoulDielOMP D A) lmp a b,
  Diel.init_all l p lmp = Ok p' ->
  (a, b) ∈ l \/ (b, a) ∈ l \/ diel_symmetric_at p a b ->
  diel_symmetric_at p' a b.
Proof.
  induction l as [|[i j] l IH]; intros p p' lmp a b Hinit Hab; simpl in Hinit.
  - injection Hinit as <-.
    destruct Hab as [Hab|[Hab|Hab]]; [now apply elem_of_nil in Hab ..|exact Hab].
  - destruct (Diel.init_one i j p lmp) as [[p1 c]|msg] eqn:Hone; [|discriminate].
    apply (IH p1 p' lmp a b Hinit).
    destruct Hab as [Hab|[Hab|Hab]].
    + apply elem_of_cons in Hab as [[= -> ->]|Hab]; [|now left].
      right. right. eapply diel_init_one_symmetric, Hone.
    + apply elem_of_cons in Hab as [[= -> ->]|Hab]; [|now right; left].
      right. right. eapply diel_symmetric_at_sym, diel_init_one_symmetric, Hone.
    + right. right. eapply diel_init_one_keeps_symmetric; eassumption.
Qed.

(** [compute] returns the pair style with the tables it was given. *)
Lemma diel_compute_tables eflag vflag jtype (p : Diel.PairCoulDielOMP D A) lmp :
  let p' := fst (Diel.compute eflag vflag jtype p lmp) in
  Diel.sigmae p' = Diel.sigmae p /\ Diel.rme p' = Diel.rme p
  /\ Diel.cut p' = Diel.cut p /\ Diel.offset p' = Diel.offset p
  /\ Diel.cutsq p' = Diel.cutsq p /\ Diel.setflag p' = Diel.setflag p.
Proof.
  unfold Diel.compute.
  repeat match goal with
         | |- context [if ?c then _ else _] => destruct c
         end; cbn; repeat split.
Qed.

(** C9.  When [init_one] has run (without error) for the type pairs of a
    list that holds every pair [i <= j] of the declared types, the table is
    symmetric: [sigmae], [rme], [cut] and [offset] have equal entries at
    [(i,j)] and [(j,i)] for all types [i] and [j].  [compute] leaves the
    four tables as they are, so a symmetric table is symmetric after every
    force evaluation. *)
Theorem diel_table_symmetric :
  (forall l (p p' : Diel.PairCoulDielOMP D A) lmp,
      Diel.init_all l p lmp = Ok p' ->
      (forall i j, 1 <= i -> i <= j -> j <= ntypes (atom lmp) -> (i, j) ∈ l) ->
      forall i j, 1 <= i <= ntypes (atom lmp) -> 1 <= j <= ntypes (atom lmp) ->
                  diel_symmetric_at p' i j)
  /\ (forall eflag vflag jtype (p : Diel.PairCoulDielOMP D A) lmp,
      let p' := fst (Diel.compute eflag vflag jtype p lmp) in
      Diel.sigmae p' = Diel.sigmae p /\ Diel.rme p' = Diel.rme p
      /\ Diel.cut p' = Diel.cut p /\ Diel.offset p' = Diel.offset p)
  /\ (forall eflag vflag jtype (p : Diel.PairCoulDielOMP D A) lmp i j,
      diel_symmetric_at p i j ->
      diel_symmetric_at (fst (Diel.compute eflag vflag jtype p lmp)) i j).
Proof.
  split; [|split].
  - intros l p p' lmp Hinit Hall i j Hi Hj.
    apply (diel_init_all_symmetric l p p' lmp i j Hinit).
    destruct (Z_le_gt_dec i j).
    + left. apply Hall; lia.
    + right. left. apply Hall; lia.
  - intros eflag vflag jtype p lmp p'.
    destruct (diel_compute_tables eflag vflag jtype p lmp) as (Hs & Hr & Hc & Ho & _).
    now repeat split.
  - intros eflag vflag jtype p lmp i j Hsym.
    destruct (diel_compute_tables eflag vflag jtype p lmp) as (Hs & Hr & Hc & Ho & _).
    unfold diel_symmetric_at. rewrite Hs, Hr, Hc, Ho. exact Hsym.
Qed.

End Symmetry.

Lemma diel_set_ok offset_flag :
  Diel.coeff (H0 := engR) 5 ["*"; "*"; "80.0"; "2.0"; "0.5"]
    (diel_style offset_flag) three_atoms = Ok (diel_set offset_flag).
Proof. reflexivity. Qed.

Lemma diel_set_asymmetric :
  Diel.sigmae (diel_set 1) 1 2 = (1 / 2)%R /\ Diel.sigmae (diel_set 1) 2 1 = 0%R.
Proof. split; reflexivity. Qed.

Lemma diel_table_symmetric_witness :
  exists p',
    Diel.init_all pairs_of_two_types (diel_set 1) three_atoms = Ok p'
    /\ diel_symmetric_at p' 1 2 /\ diel_symmetric_at p' 2 1
    /\ diel_symmetric_at (fst (Diel.compute (H0 := engR) 1 0 (fun _ => 1) p' three_atoms)) 1 2.
Proof.
  destruct (diel_table_symmetric (D := R) (H0 := engR)) as (Hinit & _ & Hkeep).
  eexists. split; [reflexivity|].
  match goal with
  | |- diel_symmetric_at ?p _ _ /\ _ =>
      pose proof (Hinit pairs_of_two_types (diel_set 1) p three_atoms eq_refl) as Hsym
  end.
  assert (Hall : forall i j, 1 <= i -> i <= j -> j <= ntypes (atom three_atoms) ->
                             (i, j) ∈ pairs_of_two_types).
  { intros i j Hi Hij Hj. cbn in Hj. unfold pairs_of_two_types.
    assert (Hc : (i = 1 /\ j = 1) \/ (i = 1 /\ j = 2) \/ (i = 2 /\ j = 2)) by lia.
    destruct Hc as [[-> ->]|[[-> ->]|[-> ->]]];
      repeat (apply elem_of_cons; first [left; reflexivity | right]). }
  specialize (Hsym Hall).
  assert (H12 : 1 <= 1 <= ntypes (atom three_atoms)) by (cbn; lia).
  assert (H22 : 1 <= 2 <= ntypes (atom three_atoms)) by (cbn; lia).
  split; [exact (Hsym 1 2 H12 H22)|].
  split; [exact (Hsym 2 1 H22 H12)|].
  apply Hkeep. exact (Hsym 1 2 H12 H22).
Defined.

(** ** Type pairs that were never set *)

Section Unset.
Context {D A : Type} `{Double D} `{Engine D A}.

Lemma diel_init_one_setflag i j (p p' : Diel.PairCoulDielOMP D A) lmp c :
  Diel.init_one i j p lmp = Ok (p', c) -> Diel.setflag p' = Diel.setflag p.
Proof.
  unfold Diel.init_one. destruct (Diel.setflag p i j =? 0); [discriminate|].
  now intros [= <- _].
Qed.

Lemma diel_init_one_unset i j (p : Diel.PairCoulDielOMP D A) lmp :
  Diel.setflag p i j = 0 ->
  Diel.init_one i j p lmp
  = Err "for pair style coul/diel, parameters need to be set explicitly for all pairs.".
Proof. intros Hset. unfold Diel.init_one. now rewrite Hset. Qed.

Lemma diel_init_all_unset l : forall (p : Diel.PairCoulDielOMP D A) lmp i j,
  (i, j) ∈ l -> Diel.setflag p i j = 0 ->
  Diel.init_all l p lmp
  = Err "for pair style coul/diel, parameters need to be set explicitly for all pairs.".
Proof.
  induction l as [|[a b] l IH]; intros p lmp i j Hin Hset.
  - now apply elem_of_nil in Hin.
  - simpl. destruct (Diel.init_one a b p lmp) as [[p1 c]|msg] eqn:Hone.
    + apply elem_of_cons in Hin as [[= -> ->]|Hin].
      * rewrite diel_init_one_unset in Hone by exact Hset. discriminate.
      * apply (IH p1 lmp i j Hin).
        now rewrite (diel_init_one_setflag a b p p1 lmp c Hone).
    + revert Hone. unfold Diel.init_one.
      destruct (Diel.setflag p a b =? 0); [now intros [= <-]|discriminate].
Qed.

(** C8.  On a pair style whose tables are allocated, and for type pairs of
    the declared types.  coul/diel/omp: [init_one] of a type pair whose
    [setflag] is 0 aborts with the configuration error of the file, and so
    does every run whose initialization reaches such a pair: it ends before
    [compute] is called, with no force array.  coul/debye/omp ([init_one]
    modelled from the spec): [init_one] of an unset pair returns without
    error, stores the global cutoff for the pair and returns it. *)
Theorem unset_pair_initialization :
  (forall i j (p : Diel.PairCoulDielOMP D A) lmp,
      truthy (Diel.allocated p) = true ->
      1 <= i <= ntypes (atom lmp) -> 1 <= j <= ntypes (atom lmp) ->
      Diel.setflag p i j = 0 ->
      Diel.init_one i j p lmp
      = Err "for pair style coul/diel, parameters need to be set explicitly for all pairs.")
  /\ (forall l eflag vflag jtype (p : Diel.PairCoulDielOMP D A) lmp i j,
      truthy (Diel.allocated p) = true ->
      (forall a b, (a, b) ∈ l ->
         1 <= a <= ntypes (atom lmp) /\ 1 <= b <= ntypes (atom lmp)) ->
      (i, j) ∈ l -> Diel.setflag p i j = 0 ->
      Diel.run l eflag vflag jtype p lmp
      = Err "for pair style coul/diel, parameters need to be set explicitly for all pairs.")
  /\ (forall i j (p : Debye.PairCoulDebyeOMP D A) lmp,
      truthy (Debye.allocated p) = true ->
      1 <= i <= ntypes (atom lmp) -> 1 <= j <= ntypes (atom lmp) ->
      Debye.setflag p i j = 0 ->
      exists p', Debye.init_one i j p lmp = Ok (p', Debye.cut_global p)
                 /\ Debye.cut p' i j = Debye.cut_global p).
Proof.
  split; [|split].
  - intros i j p lmp _ _ _. apply diel_init_one_unset.
  - intros l eflag vflag jtype p lmp i j _ _ Hin Hset. unfold Diel.run.
    now rewrite (diel_init_all_unset l p lmp i j Hin Hset).
  - intros i j p lmp _ _ _ Hset. unfold Debye.init_one. rewrite Hset. cbn.
    eexists. split; [rewrite tset_eq; reflexivity|].
    cbn. apply tset_eq.
Qed.

End Unset.

Lemma diel_partly_set_ok :
  Diel.coeff (H0 := engR) 5 ["1"; "1"; "80.0"; "2.0"; "0.5"]
    (diel_style 0) three_atoms = Ok diel_partly_set.
Proof. vm_compute. reflexivity. Qed.

Lemma pairs_of_two_types_declared a b :
  (a, b) ∈ pairs_of_two_types ->
  1 <= a <= ntypes (atom three_atoms) /\ 1 <= b <= ntypes (atom three_atoms).
Proof.
  unfold pairs_of_two_types. change (ntypes (atom three_atoms)) with 2.
  intros Hin.
  repeat (apply elem_of_cons in Hin as [[= -> ->]|Hin]; [lia|]).
  now apply elem_of_nil in Hin.
Qed.

Lemma unset_pair_initialization_witness :
  Diel.coeff (H0 := engR) 5 ["1"; "1"; "80.0"; "2.0"; "0.5"]
    (diel_style 0) three_atoms = Ok diel_partly_set
  /\ truthy (Diel.allocated diel_partly_set) = true
  /\ Diel.setflag diel_partly_set 1 1 = 1
  /\ Diel.init_one 1 2 diel_partly_set three_atoms
     = Err "for pair style coul/diel, parameters need to be set explicitly for all pairs."
  /\ Diel.run (H0 := engR) pairs_of_two_types 1 0 (fun _ => 1) diel_partly_set
       three_atoms
     = Err "for pair style coul/diel, parameters need to be set explicitly for all pairs."
  /\ exists p', Debye.init_one 1 2 debye_unset three_atoms = Ok (p', 7%R)
                /\ Debye.cut p' 1 2 = 7%R.
Proof.
  destruct (unset_pair_initialization (D := R) (H0 := engR))
    as (Hone & Hrun & Hdebye).
  assert (Hall : truthy (Diel.allocated diel_partly_set) = true) by reflexivity.
  assert (H1 : 1 <= 1 <= ntypes (atom three_atoms)) by (cbn; lia).
  assert (H2 : 1 <= 2 <= ntypes (atom three_atoms)) by (cbn; lia).
  assert (Hin : (1, 2) ∈ pairs_of_two_types).
  { unfold pairs_of_two_types.
    apply elem_of_cons; right. apply elem_of_cons; left. reflexivity. }
  split; [exact diel_partly_set_ok|].
  split; [exact Hall|].
  split; [reflexivity|].
  split; [exact (Hone 1 2 diel_partly_set three_atoms Hall H1 H2 eq_refl)|].
  split.
  - exact (Hrun pairs_of_two_types 1 0 (fun _ => 1) diel_partly_set three_atoms
             1 2 Hall pairs_of_two_types_declared Hin eq_refl).
  - exact (Hdebye 1 2 debye_unset three_atoms eq_refl H1 H2 eq_refl).
Defined.

(** ** The restart file *)

Section Restart.
Context {D A : Type} `{Double D} `{Engine D A}.

Lemma debye_restart_settings_roundtrip (p p0 : Debye.PairCoulDebyeOMP D A) tail :
  Debye.read_restart_settings p0 (Debye.write_restart_settings p [] ++ tail)
  = (Debye.mkPair (Debye.kappa p) (Debye.cut_global p) (Debye.offset_flag p)
       (Debye.mix_flag p) (Debye.allocated p0) (Debye.setflag p0)
       (Debye.cut p0) (Debye.cutsq p0) (Debye.ev p0), tail).
Proof. reflexivity. Qed.

Lemma diel_restart_settings_roundtrip (p p0 : Diel.PairCoulDielOMP D A) tail :
  Diel.read_restart_settings p0 (Diel.write_restart_settings p [] ++ tail)
  = (Diel.mkPair (Diel.cut_global p) (Diel.eps_s p0) (Diel.a_eps p0)
       (Diel.b_eps p0) (Diel.offset_flag p) (Diel.mix_flag p)
       (Diel.allocated p0) (Diel.setflag p0) (Diel.cut p0) (Diel.cutsq p0)
       (Diel.sigmae p0) (Diel.rme p0) (Diel.offset p0) (Diel.ev p0), tail).
Proof. reflexivity. Qed.

(** [write_restart] writes the settings block first. *)
Lemma diel_write_restart_settings_first (p : Diel.PairCoulDielOMP D A) lmp :
  exists tail,
    Diel.write_restart p lmp [] = Diel.write_restart_settings p [] ++ tail.
Proof.
  unfold Diel.write_restart.
  apply (for_le_inv (fun fp => exists tail,
                         fp = Diel.write_restart_settings p [] ++ tail)).
  - intros fp i _ Hfp.
    apply (for_le_inv (fun fp => exists tail,
                           fp = Diel.write_restart_settings p [] ++ tail));
      [|exact Hfp].
    intros fp' j _ [tail ->].
    destruct (truthy (Diel.setflag p i j)); unfold fwrite_double, fwrite_int;
      rewrite <- ?app_assoc; eexists; reflexivity.
  - exists []. now rewrite app_nil_r.
Qed.

(** The members [read_restart] takes from the settings block, and the
    members it leaves as the reading pair style has them. *)
Lemma diel_read_restart_members (p0 : Diel.PairCoulDielOMP D A) lmp fp :
  let p1 := fst (Diel.read_restart_settings p0 fp) in
  let p' := fst (Diel.read_restart p0 lmp fp) in
  Diel.cut_global p' = Diel.cut_global p1
  /\ Diel.offset_flag p' = Diel.offset_flag p1
  /\ Diel.mix_flag p' = Diel.mix_flag p1
  /\ Diel.eps_s p' = Diel.eps_s p0 /\ Diel.a_eps p' = Diel.a_eps p0
  /\ Diel.b_eps p' = Diel.b_eps p0.
Proof.
  unfold Diel.read_restart, Diel.read_restart_settings.
  destruct (fread_double _ fp) as [c fp1].
  destruct (fread_int _ fp1) as [o fp2].
  destruct (fread_int _ fp2) as [m fp3].
  cbn. repeat split.
Qed.

(** C3, as the code has it.  The settings block goes through
    [write_restart_settings] and [read_restart_settings] unchanged, value
    for value: [cut_global], [kappa], [offset_flag] and [mix_flag] of
    coul/debye/omp; [cut_global], [offset_flag] and [mix_flag] of
    coul/diel/omp, also through [write_restart] and [read_restart].  The
    dielectric constants [eps_s], [a_eps] and [b_eps] are not in the file:
    after the read they are those of the pair style that read it. *)
Theorem restart_settings_roundtrip :
  (forall (p p0 : Debye.PairCoulDebyeOMP D A) tail,
      let r := Debye.read_restart_settings p0
                 (Debye.write_restart_settings p [] ++ tail) in
      snd r = tail
      /\ Debye.cut_global (fst r) = Debye.cut_global p
      /\ Debye.kappa (fst r) = Debye.kappa p
      /\ Debye.offset_flag (fst r) = Debye.offset_flag p
      /\ Debye.mix_flag (fst r) = Debye.mix_flag p)
  /\ (forall (p p0 : Diel.PairCoulDielOMP D A) tail,
      let r := Diel.read_restart_settings p0
                 (Diel.write_restart_settings p [] ++ tail) in
      snd r = tail
      /\ Diel.cut_global (fst r) = Diel.cut_global p
      /\ Diel.offset_flag (fst r) = Diel.offset_flag p
      /\ Diel.mix_flag (fst r) = Diel.mix_flag p
      /\ Diel.eps_s (fst r) = Diel.eps_s p0
      /\ Diel.a_eps (fst r) = Diel.a_eps p0
      /\ Diel.b_eps (fst r) = Diel.b_eps p0)
  /\ (forall (p p0 : Diel.PairCoulDielOMP D A) lmp lmp',
      let p' := fst (Diel.read_restart p0 lmp' (Diel.write_restart p lmp [])) in
      Diel.cut_global p' = Diel.cut_global p
      /\ Diel.offset_flag p' = Diel.offset_flag p
      /\ Diel.mix_flag p' = Diel.mix_flag p
      /\ Diel.eps_s p' = Diel.eps_s p0
      /\ Diel.a_eps p' = Diel.a_eps p0
      /\ Diel.b_eps p' = Diel.b_eps p0).
Proof.
  split; [|split].
  - intros p p0 tail r. subst r.
    rewrite debye_restart_settings_roundtrip. cbn. repeat split.
  - intros p p0 tail r. subst r.
    rewrite diel_restart_settings_roundtrip. cbn. repeat split.
  - intros p p0 lmp lmp' p'. subst p'.
    destruct (diel_write_restart_settings_first p lmp) as [tail ->].
    destruct (diel_read_restart_members p0 lmp'
                (Diel.write_restart_settings p [] ++ tail))
      as (Hc & Ho & Hm & He & Ha & Hb).
    rewrite diel_restart_settings_roundtrip in Hc, Ho, Hm. cbn in Hc, Ho, Hm.
    now repeat split.
Qed.

(** [allocate] clears the flag of every pair [i <= j] of the declared
    types. *)
Lemma diel_allocate_setflag (p : Diel.PairCoulDielOMP D A) lmp i j :
  1 <= i -> i <= j -> j <= ntypes (atom lmp) ->
  Diel.setflag (Diel.allocate p lmp) i j = 0.
Proof.
  intros Hi Hij Hj. unfold Diel.allocate. cbn [Diel.setflag].
  assert (Hkeep : forall a b (s : table Z), s i j = 0 -> tset s a b 0 i j = 0).
  { intros a b s Hs. unfold tset. now destruct ((i =? a) && (j =? b)). }
  apply (for_le_establish (fun s : table Z => s i j = 0) 1 _ _ i); [lia| |].
  - intros s.
    apply (for_le_establish (fun s : table Z => s i j = 0) i _ _ j); [lia| |].
    + intros s'. apply tset_eq.
    + intros s' b. apply Hkeep.
  - intros s a Hs. apply for_le_inv; [|exact Hs].
    intros s' b _. apply Hkeep.
Qed.

(** [read_restart] tests the flags [allocate] has just cleared, and does not
    read them from the file: it reads nothing after the settings block, the
    flag of every pair stays 0, and [rme], [sigmae] and [cut] stay the new
    tables of [allocate], whatever [write_restart] wrote. *)
Lemma diel_read_restart_reads_no_pair (p0 : Diel.PairCoulDielOMP D A) lmp fp :
  let p1 := fst (Diel.read_restart_settings p0 fp) in
  let r := Diel.read_restart p0 lmp fp in
  snd r = snd (Diel.read_restart_settings p0 fp)
  /\ Diel.rme (fst r) = Diel.rme (Diel.allocate p1 lmp)
  /\ Diel.sigmae (fst r) = Diel.sigmae (Diel.allocate p1 lmp)
  /\ Diel.cut (fst r) = Diel.cut (Diel.allocate p1 lmp)
  /\ forall i j, 1 <= i -> i <= j -> j <= ntypes (atom lmp) ->
                 Diel.setflag (fst r) i j = 0.
Proof.
  intros p1 r. subst p1 r. unfold Diel.read_restart.
  destruct (Diel.read_restart_settings p0 fp) as [p1 fp1]. cbn [fst snd].
  set (pa := Diel.allocate p1 lmp).
  match goal with
  | |- context [for_le 1 ?n ?body ?init] =>
      assert (Hloop : for_le 1 n body init = init)
  end.
  { apply (for_le_inv (fun l => l = Diel.mkReadLoop (Diel.rme pa) (Diel.sigmae pa)
                                      (Diel.cut pa) fp1)); [|reflexivity].
    intros l i Hi ->.
    apply (for_le_inv (fun l => l = Diel.mkReadLoop (Diel.rme pa) (Diel.sigmae pa)
                                      (Diel.cut pa) fp1)); [|reflexivity].
    intros l j Hj ->.
    assert (Hflag : Diel.setflag pa i j = 0)
      by (subst pa; apply diel_allocate_setflag; lia).
    now rewrite Hflag. }
  rewrite Hloop.
  cbn [fst snd Diel.rme Diel.sigmae Diel.cut Diel.setflag Diel.r_rme
       Diel.r_sigmae Diel.r_cut Diel.r_fp].
  repeat split.
  intros i j Hi Hij Hj. subst pa. now apply diel_allocate_setflag.
Qed.

End Restart.

(** C3 as stated fails: the pair style [diel_set 0] (eps_s = 80) is written
    with [write_restart] and read with [read_restart] by a new pair style;
    [eps_s], which the kernel reads for every pair, is not restored. *)
Lemma diel_restart_loses_eps_s :
  let p' := fst (Diel.read_restart (H0 := engR) (diel_new 0) three_atoms
                   (Diel.write_restart (diel_set 0) three_atoms [])) in
  Diel.eps_s (diel_set 0) = 80%R /\ Diel.eps_s p' = 0%R
  /\ Diel.eps_s p' <> Diel.eps_s (diel_set 0).
Proof.
  intros p'.
  assert (H80 : Diel.eps_s (diel_set 0) = 80%R) by reflexivity.
  assert (H0 : Diel.eps_s p' = 0%R).
  { subst p'.
    destruct (diel_read_restart_members (H0 := engR) (diel_new 0) three_atoms
                (Diel.write_restart (diel_set 0) three_atoms []))
      as (_ & _ & _ & He & _).
    rewrite He. reflexivity. }
  split; [exact H80|]. split; [exact H0|]. rewrite H80, H0. lra.
Qed.

(** ** The pair energy and the offset *)

Section Energy.
Context {D A : Type} `{Double D} `{Engine D A}.




End Energy.




(** ** [single] and the kernels *)

Lemma tanh_0 : Rtrigo_def.tanh 0 = 0%R.
Proof. unfold Rtrigo_def.tanh. rewrite sinh_0, cosh_0. lra. Qed.

(** Debye, exact arithmetic: the energy of the kernel is the energy of
    [single] (the two multiply the same factors, in a different order). *)
Lemma debye_single_energy_R {A} (p : Debye.PairCoulDebyeOMP R A) lmp i j itype jtype
    rsq0 fc fl :
  debye_ecoul p lmp i j rsq0 fc
  = fst (Debye.single p lmp i j itype jtype rsq0 fc fl).
Proof.
  unfold debye_ecoul, Debye.single.
  cbn [fst dmul ddiv dadd dneg dsqrt dexp d_one DoubleR]. ring.
Qed.

(** Dielectric, exact arithmetic: the energy of the kernel is the energy of
    [single] for the table column the kernel indexes. *)
Lemma diel_single_energy_R {A} (p : Diel.PairCoulDielOMP R A) lmp i j itype jtype
    rsq0 fc fl :
  diel_ecoul p lmp i j itype jtype rsq0 fc
  = fst (Diel.single p lmp i j itype jtype rsq0 fc fl).
Proof.
  unfold diel_ecoul, Diel.single.
  cbn [fst dmul ddiv dadd dsub dneg dsqrt dtanh d_one DoubleR]. ring.
Qed.

Lemma four_atoms_rsq_1 : rsq four_atoms 0 1 = 1%R.
Proof. runR. lra. Qed.

Lemma four_atoms_rsq_3 : rsq four_atoms 0 3 = 1%R.
Proof. runR. lra. Qed.

Lemma diel_shifted_init_ok :
  Diel.init_all pairs_of_two_types diel_shifted_set four_atoms
  = Ok diel_shifted_init.
Proof. reflexivity. Qed.

Lemma diel_shifted_offsets :
  Diel.offset diel_shifted 1 1 = ((80 / (213 / 5) - 1) / 5)%R
  /\ Diel.offset diel_shifted 1 2 = (- 2 * ((80 / (213 / 5) - 1) / 5))%R.
Proof.
  split; runR.
  - replace ((5 - 5) / (1 / 2))%R with 0%R by lra. rewrite tanh_0.
    replace (1 / 2 * (52 / 10 + 80) + 1 / 2 * (80 - 52 / 10) * 0)%R
      with (213 / 5)%R by lra.
    lra.
  - replace ((5 - 5) / (1 / 2))%R with 0%R by lra. rewrite tanh_0.
    replace (1 / 2 * (52 / 10 + 80) + 1 / 2 * (80 - 52 / 10) * 0)%R
      with (213 / 5)%R by lra.
    lra.
Qed.

(** C5 on [four_atoms]: the two partners of atom 0 have the same charge and
    the same distance and differ in their type.  [single], called with the
    types of each pair, returns two different energies (the offsets of the
    type pairs (1,1) and (1,2) differ).  The kernel gives the two pairs the
    same energy, whatever value its variable [jtype] holds: for one of the
    two pairs at least its energy is not the energy of [single]. *)
Lemma diel_kernel_differs_from_single (jtype : Z) :
  let e1 := Diel.ecoul (Diel.eval_pair (H0 := engR) true true true diel_shifted
                          four_atoms 0 jtype 0 diel_thr0_4 0) in
  let e3 := Diel.ecoul (Diel.eval_pair (H0 := engR) true true true diel_shifted
                          four_atoms 0 jtype 0 diel_thr0_4 1) in
  let s1 := fst (Diel.single diel_shifted four_atoms 0 1 1 1
                   (rsq four_atoms 0 1) 1%R 0%R) in
  let s3 := fst (Diel.single diel_shifted four_atoms 0 3 1 2
                   (rsq four_atoms 0 3) 1%R 0%R) in
  partner four_atoms 0 0 = 1 /\ partner four_atoms 0 1 = 3
  /\ e1 = e3 /\ s1 <> s3 /\ (e1 <> s1 \/ e3 <> s3).
Proof.
  intros e1 e3 s1 s3.
  assert (He : e1 = e3).
  { subst e1 e3.
    rewrite !diel_eval_pair_in
      by (change (partner four_atoms 0 0) with 1;
          change (partner four_atoms 0 1) with 3;
          rewrite ?four_atoms_rsq_1, ?four_atoms_rsq_3;
          apply Rltb_true; runR; lra).
    cbn [Diel.ecoul].
    change (partner four_atoms 0 0) with 1.
    change (partner four_atoms 0 1) with 3.
    rewrite four_atoms_rsq_1, four_atoms_rsq_3. reflexivity. }
  assert (Hs : s1 <> s3).
  { subst s1 s3. rewrite four_atoms_rsq_1, four_atoms_rsq_3.
    unfold Diel.single. cbn [fst].
    destruct diel_shifted_offsets as [-> ->].
    change (Diel.rme diel_shifted 1 2) with (Diel.rme diel_shifted 1 1).
    change (Diel.sigmae diel_shifted 1 2) with (Diel.sigmae diel_shifted 1 1).
    change (rd (q (atom four_atoms)) 3) with (rd (q (atom four_atoms)) 1).
    cbn [dmul ddiv dadd dsub dneg dsqrt dtanh d_one DoubleR].
    match goal with
    | |- (1 * (?X - _) <> _)%R => generalize X
    end.
    intros X HX. lra. }
  repeat split; try reflexivity; try assumption.
  destruct (Req_dec e1 s1) as [H1|H1]; [|now left].
  right. intros H3. apply Hs. now rewrite <- H1, <- H3.
Qed.

(** ** A squared separation of exactly zero *)

(** *** binary64: a division by zero, and what follows from it *)

Lemma ion_mul_infinity (a : float) : inf_or_nan (a * infinity).
Proof.
  unfold inf_or_nan. rewrite mul_spec.
  change (Prim2SF infinity) with (S754_infinity false).
  destruct (Prim2SF a); cbn; eauto.
Qed.

Lemma ion_infinity_mul (a b : float) :
  inf_or_nan a -> inf_or_nan (a * b).
Proof.
  unfold inf_or_nan. rewrite mul_spec.
  intros [->|[s ->]]; [now left|].
  destruct (Prim2SF b); cbn; eauto.
Qed.

Lemma ion_one_mul (a : float) : inf_or_nan a -> inf_or_nan (1 * a).
Proof.
  unfold inf_or_nan. rewrite mul_spec.
  change (Prim2SF 1) with (S754_finite false 4503599627370496 (-52)).
  intros [->|[s ->]]; cbn; eauto.
Qed.

Lemma ion_div_zero (a : float) : inf_or_nan (a / 0).
Proof.
  unfold inf_or_nan. rewrite div_spec.
  change (Prim2SF 0) with (S754_zero false).
  destruct (Prim2SF a); cbn; eauto.
Qed.

Lemma ion_sub_zero (a : float) : inf_or_nan a -> inf_or_nan (a - 0).
Proof.
  unfold inf_or_nan. rewrite sub_spec.
  change (Prim2SF 0) with (S754_zero false).
  intros [->|[s ->]]; cbn; eauto.
Qed.

Lemma nan_zero_mul (a : float) : inf_or_nan a -> Prim2SF (0 * a) = S754_nan.
Proof.
  rewrite mul_spec. change (Prim2SF 0) with (S754_zero false).
  now intros [->|[s ->]].
Qed.

Lemma nan_add (a b : float) : Prim2SF b = S754_nan -> Prim2SF (a + b) = S754_nan.
Proof.
  intros Hb. rewrite add_spec, Hb. now destruct (Prim2SF a).
Qed.

Lemma coincident_rsq_zero libm_exp libm_tanh :
  coincident_rsq libm_exp libm_tanh = 0%float.
Proof. reflexivity. Qed.

(** The Debye kernel on [coincident]: the force on atom 0 is not a number,
    whatever the C library returns for [exp]. *)
Lemma debye_force_x_nan libm_exp libm_tanh :
  Prim2SF (debye_force_x libm_exp libm_tanh) = S754_nan.
Proof.
  unfold debye_force_x.
  rewrite debye_eval_pair_in by (vm_compute; reflexivity).
  cbn [Debye.thr_f].
  rewrite accumulate_owner;
    [| vm_compute; split; [discriminate|reflexivity] | discriminate | discriminate].
  cbn [v0]. cbv -[Prim2SF].
  apply nan_add, nan_zero_mul, ion_infinity_mul, ion_one_mul, ion_mul_infinity.
Qed.

Lemma debye_tallied_pair libm_exp libm_tanh :
  exists e fpair, debye_tallied libm_exp libm_tanh = [mkTallied 0 1 e fpair 0].
Proof.
  unfold debye_tallied.
  rewrite debye_eval_pair_in by (vm_compute; reflexivity).
  cbn [Debye.thr_tally]. eexists. eexists. reflexivity.
Qed.

(** The dielectric kernel on [coincident], for every [tanh]. *)
Lemma diel_force_x_nan libm_exp libm_tanh :
  Prim2SF (diel_force_x libm_exp libm_tanh) = S754_nan.
Proof.
  unfold diel_force_x.
  rewrite diel_eval_pair_in by (vm_compute; reflexivity).
  cbn [Diel.thr_f].
  rewrite accumulate_owner;
    [| vm_compute; split; [discriminate|reflexivity] | discriminate | discriminate].
  cbn [v0]. cbv -[Prim2SF].
  apply nan_add, nan_zero_mul, ion_div_zero.
Qed.

(** [single] at [rsq = 0]: the energy and the force are infinite or not a
    number. *)
Lemma debye_single_zero_ion libm_exp libm_tanh :
  inf_or_nan (fst (debye_single_zero libm_exp libm_tanh))
  /\ inf_or_nan (snd (debye_single_zero libm_exp libm_tanh)).
Proof.
  unfold debye_single_zero. cbv -[inf_or_nan]. split.
  - apply ion_one_mul, ion_infinity_mul. right. now exists true.
  - apply ion_infinity_mul, ion_one_mul, ion_mul_infinity.
Qed.

Lemma diel_single_zero_ion libm_exp libm_tanh :
  inf_or_nan (fst (diel_single_zero libm_exp libm_tanh))
  /\ inf_or_nan (snd (diel_single_zero libm_exp libm_tanh)).
Proof.
  unfold diel_single_zero. cbv -[inf_or_nan]. split.
  - apply ion_one_mul, ion_sub_zero, ion_div_zero.
  - apply ion_div_zero.
Qed.

(** C1 as stated fails.  On [coincident] the squared separation of the pair
    is exactly zero, which is below the squared cutoff 25.  Neither kernel
    rejects the pair: each divides by zero and adds the result to the force
    of atom 0, which was 0 and is not a number afterwards, and the pair is
    tallied; [single] returns an energy and a force that are infinite or not
    a number.  This holds for every [exp] and [tanh]. *)
Lemma zero_rsq_not_rejected :
  (forall libm_exp libm_tanh,
      coincident_rsq libm_exp libm_tanh = 0%float
      /\ Prim2SF (debye_force_x libm_exp libm_tanh) = S754_nan
      /\ (exists e fpair,
             debye_tallied libm_exp libm_tanh = [mkTallied 0 1 e fpair 0])
      /\ Prim2SF (diel_force_x libm_exp libm_tanh) = S754_nan)
  /\ (forall libm_exp libm_tanh,
      inf_or_nan (fst (debye_single_zero libm_exp libm_tanh))
      /\ inf_or_nan (snd (debye_single_zero libm_exp libm_tanh))
      /\ inf_or_nan (fst (diel_single_zero libm_exp libm_tanh))
      /\ inf_or_nan (snd (diel_single_zero libm_exp libm_tanh))).
Proof.
  split; intros libm_exp libm_tanh.
  - split; [apply coincident_rsq_zero|].
    split; [apply debye_force_x_nan|].
    split; [apply debye_tallied_pair | apply diel_force_x_nan].
  - destruct (debye_single_zero_ion libm_exp libm_tanh) as [He Hf].
    destruct (diel_single_zero_ion libm_exp libm_tanh) as [He' Hf'].
    now repeat split.
Qed.

(** *** every arithmetic: the only test is the cutoff *)

Section ZeroRsq.
Context {D A : Type} `{Double D} `{Engine D A}.

(** C1, as the code has it.  For a neighbor entry whose squared separation
    is the double 0: the kernels compare it with the squared cutoff of the
    pair and test nothing else.  When [0 < cutsq] fails the entry is skipped
    and the state of the thread is unchanged.  When it holds the entry is
    processed: the force buffer receives [del*fpair], where [fpair] is the
    value of [single] at [rsq = 0].  [single] has no test: its force is the
    product with [1.0/rsq] (Debye) or the quotient by [rsq] and by
    [r = sqrt(rsq)] (dielectric), computed at [rsq = 0]. *)
Theorem zero_rsq_handling :
  (forall EV E N (p : Debye.PairCoulDebyeOMP D A) lmp tid i st jj,
      let j := partner lmp i jj in
      let itype := rd (type (atom lmp)) i in
      let jtype := rd (type (atom lmp)) j in
      rsq lmp i j = d_zero ->
      (dlt d_zero (Debye.cutsq p itype jtype) = false ->
       Debye.eval_pair EV E N p lmp tid i st jj = st)
      /\ (dlt d_zero (Debye.cutsq p itype jtype) = true ->
          Debye.thr_f (Debye.eval_pair EV E N p lmp tid i st jj)
          = accumulate N (nlocal (atom lmp)) (Debye.thr_f st) i j
              (delx lmp i j) (dely lmp i j) (delz lmp i j)
              (snd (Debye.single p lmp i j itype jtype d_zero
                      (factor lmp i jj) d_zero))))
  /\ (forall EV E N (p : Diel.PairCoulDielOMP D A) lmp tid jtype i st jj,
      let j := partner lmp i jj in
      let itype := rd (type (atom lmp)) i in
      rsq lmp i j = d_zero ->
      (dlt d_zero (Diel.cutsq p itype jtype) = false ->
       Diel.eval_pair EV E N p lmp tid jtype i st jj = st)
      /\ (dlt d_zero (Diel.cutsq p itype jtype) = true ->
          Diel.thr_f (Diel.eval_pair EV E N p lmp tid jtype i st jj)
          = accumulate N (nlocal (atom lmp)) (Diel.thr_f st) i j
              (delx lmp i j) (dely lmp i j) (delz lmp i j)
              (snd (Diel.single p lmp i j itype jtype d_zero
                      (factor lmp i jj) d_zero))))
  /\ (forall (p : Debye.PairCoulDebyeOMP D A) lmp i j itype jtype fc fl,
      snd (Debye.single p lmp i j itype jtype d_zero fc fl)
      = (fc * (qqrd2e (force lmp) * rd (q (atom lmp)) i*rd (q (atom lmp)) j
               * dexp (-Debye.kappa p*dsqrt d_zero)
               * (Debye.kappa p + d_one/dsqrt d_zero))
         * (d_one/d_zero))%dbl)
  /\ (forall (p : Diel.PairCoulDielOMP D A) lmp i j itype jtype fc fl,
      exists forcedielec,
        snd (Diel.single p lmp i j itype jtype d_zero fc fl)
        = (fc * (forcedielec/d_zero) / dsqrt d_zero)%dbl).
Proof.
  split; [|split; [|split]].
  - intros EV E N p lmp tid i st jj j itype jtype Hr. split; intros Hcut.
    + apply debye_eval_pair_out. fold j. now rewrite Hr.
    + rewrite debye_eval_pair_in by (fold j; now rewrite Hr).
      cbn [Debye.thr_f]. fold j itype jtype. now rewrite Hr.
  - intros EV E N p lmp tid jtype i st jj j itype Hr. split; intros Hcut.
    + apply diel_eval_pair_out. fold j. now rewrite Hr.
    + rewrite diel_eval_pair_in by (fold j; now rewrite Hr).
      cbn [Diel.thr_f]. fold j itype. now rewrite Hr.
  - reflexivity.
  - intros p lmp i j itype jtype fc fl. eexists. reflexivity.
Qed.

End ZeroRsq.

Lemma coincidentR_rsq : rsq coincidentR 0 1 = 0%R.
Proof. runR. lra. Qed.

Lemma zero_rsq_handling_witness :
  Debye.thr_f (Debye.eval_pair (H0 := engR) false false true debyeR
                 coincidentR 0 0 debye_thr0 0)
  = accumulate true 2 (Debye.thr_f debye_thr0) 0 1
      (delx coincidentR 0 1) (dely coincidentR 0 1) (delz coincidentR 0 1)
      (snd (Debye.single debyeR coincidentR 0 1 1 1 0%R 1%R 0%R))
  /\ Diel.thr_f (Diel.eval_pair (H0 := engR) false false true dielR
                   coincidentR 0 1 0 diel_thr0 0)
     = accumulate true 2 (Diel.thr_f diel_thr0) 0 1
         (delx coincidentR 0 1) (dely coincidentR 0 1) (delz coincidentR 0 1)
         (snd (Diel.single dielR coincidentR 0 1 1 1 0%R 1%R 0%R)).
Proof.
  destruct (zero_rsq_handling (D := R) (H0 := engR)) as (Hd & Hl & _).
  split.
  - apply (Hd false false true debyeR coincidentR 0 0 debye_thr0 0 coincidentR_rsq).
    apply Rltb_true. runR. lra.
  - apply (Hl false false true dielR coincidentR 0 1 0 diel_thr0 0 coincidentR_rsq).
    apply Rltb_true. runR. lra.
Defined.

(** * Further properties of the two pair styles *)

(** ** [coeff] of coul/diel/omp *)

Section Coeff.
Context {D A : Type} `{Double D} `{Engine D A}.

(** The two loops of [coeff], for the values [s], [r] and [c] of the
    command, started from the tables of [l0]. *)
Lemma coeff_loop_set ilo ihi jlo jhi (s r c : D) (l0 : Diel.CoeffLoop) a b :
  ilo <= a <= ihi -> Z.max jlo a <= b <= jhi ->
  let l := for_le ilo ihi
             (fun l i =>
                for_le (Z.max jlo i) jhi
                  (fun l j =>
                     Diel.mkCoeffLoop (tset (Diel.c_sigmae l) i j s)
                       (tset (Diel.c_rme l) i j r) (tset (Diel.c_cut l) i j c)
                       (tset (Diel.c_setflag l) i j 1) (Diel.c_count l + 1))
                  l) l0 in
  Diel.c_sigmae l a b = s /\ Diel.c_rme l a b = r /\ Diel.c_cut l a b = c
  /\ Diel.c_setflag l a b = 1.
Proof.
  intros Ha Hb l. subst l.
  set (P := fun l : Diel.CoeffLoop =>
              Diel.c_sigmae l a b = s /\ Diel.c_rme l a b = r
              /\ Diel.c_cut l a b = c /\ Diel.c_setflag l a b = 1).
  assert (Hkeep : forall i j l, P l ->
            P (Diel.mkCoeffLoop (tset (Diel.c_sigmae l) i j s)
                 (tset (Diel.c_rme l) i j r) (tset (Diel.c_cut l) i j c)
                 (tset (Diel.c_setflag l) i j 1) (Diel.c_count l + 1))).
  { intros i j l (Hs & Hr & Hc & Hf). unfold P. cbn. unfold tset.
    destruct ((a =? i) && (b =? j)); now repeat split. }
  apply (for_le_establish P ilo ihi _ a); [lia| |].
  - intros l. apply (for_le_establish P (Z.max jlo a) jhi _ b); [lia| |].
    + intros l'. unfold P. cbn. now rewrite !tset_eq.
    + intros l' j. apply Hkeep.
  - intros l i Hl. apply for_le_inv; [|exact Hl]. intros l' j _. apply Hkeep.
Qed.

Lemma coeff_loop_keep ilo ihi jlo jhi (s r c : D) (l0 : Diel.CoeffLoop) a b :
  ~ (ilo <= a <= ihi /\ Z.max jlo a <= b <= jhi) ->
  let l := for_le ilo ihi
             (fun l i =>
                for_le (Z.max jlo i) jhi
                  (fun l j =>
                     Diel.mkCoeffLoop (tset (Diel.c_sigmae l) i j s)
                       (tset (Diel.c_rme l) i j r) (tset (Diel.c_cut l) i j c)
                       (tset (Diel.c_setflag l) i j 1) (Diel.c_count l + 1))
                  l) l0 in
  Diel.c_sigmae l a b = Diel.c_sigmae l0 a b
  /\ Diel.c_rme l a b = Diel.c_rme l0 a b
  /\ Diel.c_cut l a b = Diel.c_cut l0 a b
  /\ Diel.c_setflag l a b = Diel.c_setflag l0 a b.
Proof.
  intros Hno l. subst l.
  set (P := fun l : Diel.CoeffLoop =>
              Diel.c_sigmae l a b = Diel.c_sigmae l0 a b
              /\ Diel.c_rme l a b = Diel.c_rme l0 a b
              /\ Diel.c_cut l a b = Diel.c_cut l0 a b
              /\ Diel.c_setflag l a b = Diel.c_setflag l0 a b).
  apply (for_le_inv P); [|now unfold P].
  intros l i Hi Hl. apply (for_le_inv P); [|exact Hl].
  intros l' j Hj (Hs & Hr & Hc & Hf). unfold P. cbn.
  rewrite !tset_ne; [now repeat split | | | |];
    intros [= -> ->]; apply Hno; lia.
Qed.

Lemma foldl_establish_under {S X} (I P : S -> Prop) (g : S -> X -> S)
    (l : list X) a :
  a ∈ l ->
  (forall s b, I s -> I (g s b)) ->
  (forall s, I s -> P (g s a)) ->
  (forall s b, I s -> P s -> P (g s b)) ->
  forall s, I s -> P (foldl g s l).
Proof.
  intros Ha HI Hest Hkeep. induction l as [|b l IH]; intros s Hs; simpl.
  - now apply elem_of_nil in Ha.
  - apply elem_of_cons in Ha as [<-|Ha].
    + assert (HIP : I (foldl g (g s a) l) /\ P (foldl g (g s a) l)).
      { apply (foldl_inv (fun s => I s /\ P s)).
        - intros s' c _ [Hs' Hp']. split; [now apply HI | now apply Hkeep].
        - split; [now apply HI | now apply Hest]. }
      apply HIP.
    + apply IH; [exact Ha | now apply HI].
Qed.

Lemma for_le_establish_under {S} (I P : S -> Prop) lo hi (g : S -> Z -> S) a :
  lo <= a <= hi ->
  (forall s b, I s -> I (g s b)) ->
  (forall s, I s -> P (g s a)) ->
  (forall s b, I s -> P s -> P (g s b)) ->
  forall s, I s -> P (for_le lo hi g s).
Proof.
  intros Ha HI Hest Hkeep s Hs. unfold for_le.
  apply (foldl_establish_under I P g _ a); try assumption.
  apply elem_of_seqZ. lia.
Qed.

(** [count] is positive after the loops exactly when they visit a pair. *)
Lemma coeff_loop_count ilo ihi jlo jhi (s r c : D) (l0 : Diel.CoeffLoop) :
  Diel.c_count l0 = 0 ->
  let l := for_le ilo ihi
             (fun l i =>
                for_le (Z.max jlo i) jhi
                  (fun l j =>
                     Diel.mkCoeffLoop (tset (Diel.c_sigmae l) i j s)
                       (tset (Diel.c_rme l) i j r) (tset (Diel.c_cut l) i j c)
                       (tset (Diel.c_setflag l) i j 1) (Diel.c_count l + 1))
                  l) l0 in
  0 <= Diel.c_count l
  /\ (0 < Diel.c_count l <->
      exists a b, ilo <= a <= ihi /\ Z.max jlo a <= b <= jhi).
Proof.
  intros Hzero l. subst l.
  set (inner := fun i (l : Diel.CoeffLoop) j =>
                  Diel.mkCoeffLoop (tset (Diel.c_sigmae l) i j s)
                    (tset (Diel.c_rme l) i j r) (tset (Diel.c_cut l) i j c)
                    (tset (Diel.c_setflag l) i j 1) (Diel.c_count l + 1)).
  change (0 <= Diel.c_count
                 (for_le ilo ihi
                    (fun (l : @Diel.CoeffLoop D) i => for_le (Z.max jlo i) jhi (inner i) l) l0)
          /\ (0 < Diel.c_count
                    (for_le ilo ihi
                       (fun (l : @Diel.CoeffLoop D) i => for_le (Z.max jlo i) jhi (inner i) l) l0)
              <-> exists a b, ilo <= a <= ihi /\ Z.max jlo a <= b <= jhi)).
  set (I := fun l : @Diel.CoeffLoop D => 0 <= Diel.c_count l).
  set (P := fun l : @Diel.CoeffLoop D => 0 < Diel.c_count l).
  set (Q := fun l : @Diel.CoeffLoop D =>
              0 <= Diel.c_count l
              /\ (0 < Diel.c_count l ->
                  exists a b, ilo <= a <= ihi /\ Z.max jlo a <= b <= jhi)).
  assert (HIin : forall i l j, I l -> I (inner i l j)).
  { intros i l j Hl. unfold I, inner in *. cbn. lia. }
  assert (HPin : forall i l j, I l -> P (inner i l j)).
  { intros i l j Hl. unfold I, P, inner in *. cbn. lia. }
  assert (HIout : forall l i, I l -> I (for_le (Z.max jlo i) jhi (inner i) l)).
  { intros l i Hl. apply (for_le_inv I); [|exact Hl]. intros l' j _. apply HIin. }
  assert (HPout : forall l i, I l -> P l ->
                              P (for_le (Z.max jlo i) jhi (inner i) l)).
  { intros l i Hl Hp. apply (for_le_inv P); [|exact Hp].
    intros l' j _ Hp'. unfold P, inner in *. cbn. lia. }
  assert (HQ : Q (for_le ilo ihi
                    (fun (l : @Diel.CoeffLoop D) i => for_le (Z.max jlo i) jhi (inner i) l) l0)).
  { apply (for_le_inv Q).
    - intros l i Hi Hl. apply (for_le_inv Q); [|exact Hl].
      intros l' j Hj [Hge _]. unfold Q, inner. cbn. split; [lia|].
      intros _. exists i, j. lia.
    - unfold Q. rewrite Hzero. split; lia. }
  destruct HQ as [Hge Hex]. split; [exact Hge|]. split; [exact Hex|].
  intros (a & b & Ha & Hb).
  apply (for_le_establish_under I P ilo ihi _ a); [lia | | | |].
  - intros l i. apply HIout.
  - intros l Hl.
    apply (for_le_establish_under I P (Z.max jlo a) jhi _ b); [lia | | | |].
    + intros l' j. apply HIin.
    + intros l'. apply HPin.
    + intros l' j Hl' _. now apply HPin.
    + exact Hl.
  - intros l i. apply HPout.
  - unfold I. rewrite Hzero. lia.
Qed.

End Coeff.

Section CoeffCommand.
Context {D A : Type} `{Double D} `{Engine D A}.

Lemma diel_coeff_unfold narg arg (p : Diel.PairCoulDielOMP D A) lmp :
  Diel.coeff narg arg p lmp =
    if (narg <? 5) || (narg >? 6)
    then Err "Incorrect args for pair coefficients" else
    let b := coeff_base p lmp in
    let eps_s' := numeric (rd arg 2) in
    let cut_one := if narg =? 6 then numeric (rd arg 5) else Diel.cut_global b in
    let l := coeff_loops arg lmp (numeric (rd arg 4)) (numeric (rd arg 3)) cut_one
               (Diel.mkCoeffLoop (Diel.sigmae b) (Diel.rme b) (Diel.cut b)
                  (Diel.setflag b) 0) in
    if Diel.c_count l =? 0 then Err "Incorrect args for pair coefficients" else
    Ok (Diel.mkPair (Diel.cut_global b) eps_s' (d_half*(d_5_2+eps_s'))%dbl
          (d_half*(eps_s'-d_5_2))%dbl (Diel.offset_flag b) (Diel.mix_flag b)
          (Diel.allocated b) (Diel.c_setflag l) (Diel.c_cut l) (Diel.cutsq b)
          (Diel.c_sigmae l) (Diel.c_rme l) (Diel.offset b) (Diel.ev b)).
Proof.
  unfold Diel.coeff, coeff_base, coeff_loops.
  destruct ((narg <? 5) || (narg >? 6)); [reflexivity|].
  destruct (bounds (rd arg 0) (ntypes (atom lmp))) as [ilo ihi].
  destruct (bounds (rd arg 1) (ntypes (atom lmp))) as [jlo jhi].
  reflexivity.
Qed.

Lemma coeff_base_globals (p : Diel.PairCoulDielOMP D A) lmp :
  Diel.cut_global (coeff_base p lmp) = Diel.cut_global p
  /\ Diel.offset_flag (coeff_base p lmp) = Diel.offset_flag p
  /\ Diel.mix_flag (coeff_base p lmp) = Diel.mix_flag p
  /\ truthy (Diel.allocated (coeff_base p lmp)) = true.
Proof.
  unfold coeff_base. destruct (truthy (Diel.allocated p)) eqn:Hall; cbn.
  - now rewrite Hall.
  - repeat split.
Qed.

Lemma diel_coeff_loops_keep narg arg (p : Diel.PairCoulDielOMP D A) lmp i j :
  ~ coeff_visits arg lmp i j ->
  let b := coeff_base p lmp in
  let l := coeff_loops arg lmp (numeric (rd arg 4)) (numeric (rd arg 3))
             (if narg =? 6 then numeric (rd arg 5) else Diel.cut_global b)
             (Diel.mkCoeffLoop (Diel.sigmae b) (Diel.rme b) (Diel.cut b)
                (Diel.setflag b) 0) in
  Diel.c_setflag l i j = Diel.setflag b i j
  /\ Diel.c_rme l i j = Diel.rme b i j
  /\ Diel.c_sigmae l i j = Diel.sigmae b i j
  /\ Diel.c_cut l i j = Diel.cut b i j.
Proof.
  intros Hno b l. subst l. unfold coeff_loops.
  match goal with
  | |- context [for_le ?ilo ?ihi (fun l i => for_le (Z.max ?jlo i) ?jhi _ l) ?l0] =>
      destruct (coeff_loop_keep ilo ihi jlo jhi (numeric (rd arg 4))
                  (numeric (rd arg 3))
                  (if narg =? 6 then numeric (rd arg 5) else Diel.cut_global b)
                  l0 i j)
        as (Hs & Hr & Hc & Hf)
  end.
  { intros [Hi Hj]. apply Hno. unfold coeff_visits. lia. }
  cbn in Hs, Hr, Hc, Hf. now repeat split.
Qed.

Lemma diel_coeff_loops_set narg arg (p : Diel.PairCoulDielOMP D A) lmp i j :
  coeff_visits arg lmp i j ->
  let b := coeff_base p lmp in
  let l := coeff_loops arg lmp (numeric (rd arg 4)) (numeric (rd arg 3))
             (if narg =? 6 then numeric (rd arg 5) else Diel.cut_global b)
             (Diel.mkCoeffLoop (Diel.sigmae b) (Diel.rme b) (Diel.cut b)
                (Diel.setflag b) 0) in
  Diel.c_setflag l i j = 1
  /\ Diel.c_rme l i j = numeric (rd arg 3)
  /\ Diel.c_sigmae l i j = numeric (rd arg 4)
  /\ Diel.c_cut l i j
     = if narg =? 6 then numeric (rd arg 5) else Diel.cut_global p.
Proof.
  intros (Hi1 & Hi2 & Hj1 & Hj2) b l. subst l. unfold coeff_loops.
  destruct (coeff_base_globals p lmp) as (Hg & _). fold b in Hg.
  match goal with
  | |- context [for_le ?ilo ?ihi (fun l i => for_le (Z.max ?jlo i) ?jhi _ l) ?l0] =>
      destruct (coeff_loop_set ilo ihi jlo jhi (numeric (rd arg 4))
                  (numeric (rd arg 3))
                  (if narg =? 6 then numeric (rd arg 5) else Diel.cut_global b)
                  l0 i j)
        as (Hs & Hr & Hc & Hf); [lia | lia |]
  end.
  rewrite <- Hg. cbv zeta in Hs, Hr, Hc, Hf. now repeat split.
Qed.

(** The entries of a pair [coeff] visits, after a successful [coeff]. *)
Lemma diel_coeff_visited narg arg (p p' : Diel.PairCoulDielOMP D A) lmp i j :
  Diel.coeff narg arg p lmp = Ok p' ->
  coeff_visits arg lmp i j ->
  Diel.setflag p' i j = 1
  /\ Diel.rme p' i j = numeric (rd arg 3)
  /\ Diel.sigmae p' i j = numeric (rd arg 4)
  /\ Diel.cut p' i j
     = if narg =? 6 then numeric (rd arg 5) else Diel.cut_global p.
Proof.
  rewrite diel_coeff_unfold.
  destruct ((narg <? 5) || (narg >? 6)); [discriminate|].
  cbv zeta. destruct (Diel.c_count _ =? 0); [discriminate|].
  intros [= <-] Hv. cbn [Diel.setflag Diel.rme Diel.sigmae Diel.cut].
  exact (diel_coeff_loops_set narg arg p lmp i j Hv).
Qed.

(** X1.  What a successful [coeff] stores.  The dielectric constant of the
    command becomes [eps_s], and [a_eps], [b_eps] are [0.5*(5.2+eps_s)] and
    [0.5*(eps_s-5.2)].  Every pair the loops visit ([ilo <= i <= ihi],
    [MAX(jlo,i) <= j <= jhi]) gets [setflag = 1] and the [rme], [sigmae] and
    cutoff of the command, the cutoff being the global one when the command
    has five arguments.  No other entry of the four tables changes: in
    particular no entry below the diagonal ([j < i]) is ever written.  The
    global cutoff and the tables [cutsq] and [offset] are left alone. *)
Theorem diel_coeff_stores narg arg (p p' : Diel.PairCoulDielOMP D A) lmp :
  Diel.coeff narg arg p lmp = Ok p' ->
  let b := coeff_base p lmp in
  Diel.eps_s p' = numeric (rd arg 2)
  /\ Diel.a_eps p' = (d_half*(d_5_2+numeric (rd arg 2)))%dbl
  /\ Diel.b_eps p' = (d_half*(numeric (rd arg 2)-d_5_2))%dbl
  /\ (forall i j, coeff_visits arg lmp i j ->
        Diel.setflag p' i j = 1
        /\ Diel.rme p' i j = numeric (rd arg 3)
        /\ Diel.sigmae p' i j = numeric (rd arg 4)
        /\ Diel.cut p' i j
           = if narg =? 6 then numeric (rd arg 5) else Diel.cut_global p)
  /\ (forall i j, ~ coeff_visits arg lmp i j ->
        Diel.setflag p' i j = Diel.setflag b i j
        /\ Diel.rme p' i j = Diel.rme b i j
        /\ Diel.sigmae p' i j = Diel.sigmae b i j
        /\ Diel.cut p' i j = Diel.cut b i j)
  /\ (forall i j, j < i ->
        Diel.setflag p' i j = Diel.setflag b i j
        /\ Diel.rme p' i j = Diel.rme b i j
        /\ Diel.sigmae p' i j = Diel.sigmae b i j
        /\ Diel.cut p' i j = Diel.cut b i j)
  /\ Diel.cut_global p' = Diel.cut_global p
  /\ Diel.cutsq p' = Diel.cutsq b /\ Diel.offset p' = Diel.offset b.
Proof.
  rewrite diel_coeff_unfold.
  destruct ((narg <? 5) || (narg >? 6)); [discriminate|].
  cbv zeta. destruct (Diel.c_count _ =? 0); [discriminate|].
  intros [= <-]. cbn [Diel.eps_s Diel.a_eps Diel.b_eps Diel.setflag Diel.rme
                      Diel.sigmae Diel.cut Diel.cut_global Diel.cutsq Diel.offset].
  destruct (coeff_base_globals p lmp) as (Hg & _).
  split; [reflexivity|]. split; [reflexivity|]. split; [reflexivity|].
  split; [exact (diel_coeff_loops_set narg arg p lmp)|].
  split; [exact (diel_coeff_loops_keep narg arg p lmp)|].
  split.
  { intros i j Hji. apply (diel_coeff_loops_keep narg arg p lmp).
    intros (_ & _ & Hj1 & _). lia. }
  split; [exact Hg|]. split; reflexivity.
Qed.

(** X2.  [coeff] succeeds exactly when it is given five or six arguments and
    its loops visit at least one type pair; in every other case it aborts
    with the error of the file.  So an empty range of types
    ([ilo > ihi]), or a range of second types that lies below the first
    types ([jhi < MAX(jlo,i)] for every [i]), is an error. *)
Theorem diel_coeff_succeeds_iff narg arg (p : Diel.PairCoulDielOMP D A) lmp :
  ((exists p', Diel.coeff narg arg p lmp = Ok p')
   <-> (5 <= narg <= 6 /\ exists i j, coeff_visits arg lmp i j))
  /\ ((exists p', Diel.coeff narg arg p lmp = Ok p')
      \/ Diel.coeff narg arg p lmp = Err "Incorrect args for pair coefficients").
Proof.
  rewrite diel_coeff_unfold.
  destruct ((narg <? 5) || (narg >? 6)) eqn:Hn.
  { split; [|now right]. split.
    - intros [p' Hp]. discriminate.
    - intros [Hrange _]. lia. }
  cbv zeta.
  match goal with
  | |- context [Diel.c_count (coeff_loops arg lmp ?s ?r ?c ?l0)] =>
      destruct (coeff_loop_count
                  (fst (bounds (rd arg 0) (ntypes (atom lmp))))
                  (snd (bounds (rd arg 0) (ntypes (atom lmp))))
                  (fst (bounds (rd arg 1) (ntypes (atom lmp))))
                  (snd (bounds (rd arg 1) (ntypes (atom lmp))))
                  s r c l0 eq_refl) as [Hge Hpos];
      fold (coeff_loops arg lmp s r c l0) in Hge, Hpos
  end.
  destruct (Z.eqb_spec (Diel.c_count
    (coeff_loops arg lmp (numeric (rd arg 4)) (numeric (rd arg 3))
       (if narg =? 6 then numeric (rd arg 5)
        else Diel.cut_global (coeff_base p lmp))
       (Diel.mkCoeffLoop (Diel.sigmae (coeff_base p lmp))
          (Diel.rme (coeff_base p lmp)) (Diel.cut (coeff_base p lmp))
          (Diel.setflag (coeff_base p lmp)) 0))) 0) as [Hz|Hnz].
  - split; [|now right]. split.
    + intros [p' Hp]. discriminate.
    + intros [_ (i & j & Hv)].
      assert (Hlt : 0 < 0).
      { rewrite <- Hz at 2. apply Hpos. exists i, j.
        unfold coeff_visits in Hv. lia. }
      lia.
  - split; [|left; eexists; reflexivity]. split.
    + intros _. split; [lia|].
      destruct Hpos as [Hpos _].
      destruct Hpos as (i & j & Hi & Hj); [lia|].
      exists i, j. unfold coeff_visits. lia.
    + intros _. eexists. reflexivity.
Qed.

End CoeffCommand.

Lemma diel_coeff_stores_witness :
  Diel.eps_s (diel_set 0) = 80%R
  /\ Diel.setflag (diel_set 0) 1 2 = 1
  /\ Diel.rme (diel_set 0) 1 2 = 2%R
  /\ Diel.sigmae (diel_set 0) 1 2 = (1 / 2)%R
  /\ Diel.cut (diel_set 0) 1 2 = 5%R
  /\ Diel.setflag (diel_set 0) 2 1
     = Diel.setflag (coeff_base (H0 := engR) (diel_style 0) three_atoms) 2 1.
Proof.
  destruct (diel_coeff_stores (H0 := engR) 5 ["*"; "*"; "80.0"; "2.0"; "0.5"]
              (diel_style 0) (diel_set 0) three_atoms (diel_set_ok 0))
    as (He & _ & _ & Hset & _ & Hlow & _).
  destruct (Hset 1 2) as (Hf & Hr & Hs & Hc).
  { unfold coeff_visits. vm_compute. repeat split; discriminate. }
  destruct (Hlow 2 1) as (Hf' & _); [lia|].
  repeat split; assumption.
Defined.

(** ** [init_one] of coul/diel/omp, call after call *)

Section Init.
Context {D A : Type} `{Double D}.

Lemma diel_init_one_tables i j (p p' : Diel.PairCoulDielOMP D A) lmp c :
  Diel.init_one i j p lmp = Ok (p', c) ->
  Diel.sigmae p' = tset (Diel.sigmae p) j i (Diel.sigmae p i j)
  /\ Diel.rme p' = tset (Diel.rme p) j i (Diel.rme p i j)
  /\ Diel.cut p' = tset (Diel.cut p) j i (Diel.cut p i j)
  /\ c = Diel.cut p i j
  /\ Diel.setflag p' = Diel.setflag p /\ Diel.cutsq p' = Diel.cutsq p
  /\ Diel.eps_s p' = Diel.eps_s p /\ Diel.a_eps p' = Diel.a_eps p
  /\ Diel.b_eps p' = Diel.b_eps p /\ Diel.cut_global p' = Diel.cut_global p
  /\ Diel.offset_flag p' = Diel.offset_flag p.
Proof.
  unfold Diel.init_one. destruct (Diel.setflag p i j =? 0); [discriminate|].
  intros [= <- <-]. cbn. repeat split.
  unfold tset. destruct ((i =? j) && (j =? i)); reflexivity.
Qed.

Lemma diel_init_one_ok i j (p : Diel.PairCoulDielOMP D A) lmp :
  Diel.setflag p i j <> 0 ->
  exists p', Diel.init_one i j p lmp = Ok (p', Diel.cut p i j).
Proof.
  intros Hset. unfold Diel.init_one.
  destruct (Z.eqb_spec (Diel.setflag p i j) 0) as [Hz|_]; [contradiction|].
  eexists. f_equal. f_equal. cbn.
  unfold tset. destruct ((i =? j) && (j =? i)); reflexivity.
Qed.

Lemma diel_init_all_ok l : forall (p : Diel.PairCoulDielOMP D A) lmp,
  (forall i j, (i, j) ∈ l -> Diel.setflag p i j <> 0) ->
  exists p', Diel.init_all l p lmp = Ok p'.
Proof.
  induction l as [|[i j] l IH]; intros p lmp Hset; simpl.
  - now exists p.
  - destruct (diel_init_one_ok i j p lmp) as [p1 Hp1].
    { apply Hset. apply elem_of_cons. now left. }
    rewrite Hp1. apply IH. intros a b Hab.
    destruct (diel_init_one_tables i j p p1 lmp _ Hp1) as (_ & _ & _ & _ & -> & _).
    apply Hset. apply elem_of_cons. now right.
Qed.

Lemma diel_init_all_consts l : forall (p p' : Diel.PairCoulDielOMP D A) lmp,
  Diel.init_all l p lmp = Ok p' ->
  Diel.setflag p' = Diel.setflag p /\ Diel.eps_s p' = Diel.eps_s p
  /\ Diel.a_eps p' = Diel.a_eps p /\ Diel.b_eps p' = Diel.b_eps p
  /\ Diel.cutsq p' = Diel.cutsq p /\ Diel.cut_global p' = Diel.cut_global p.
Proof.
  induction l as [|[i j] l IH]; intros p p' lmp Hinit; simpl in Hinit.
  - injection Hinit as <-. now repeat split.
  - destruct (Diel.init_one i j p lmp) as [[p1 c]|msg] eqn:Hone; [|discriminate].
    destruct (diel_init_one_tables i j p p1 lmp c Hone)
      as (_ & _ & _ & _ & Hf & Hq & He & Ha & Hb & Hg & _).
    destruct (IH p1 p' lmp Hinit) as (Hf' & He' & Ha' & Hb' & Hq' & Hg').
    repeat split; congruence.
Qed.

(** An entry of [sigmae], [rme] or [cut] after the initialization of the
    pairs of [l], all of them with [i <= j]. *)
Lemma diel_init_all_entries l : forall (p p' : Diel.PairCoulDielOMP D A) lmp,
  Diel.init_all l p lmp = Ok p' ->
  (forall i j, (i, j) ∈ l -> i <= j) ->
  forall a b,
    let src := if decide (a <= b) then (a, b)
               else if decide ((b, a) ∈ l) then (b, a) else (a, b) in
    Diel.sigmae p' a b = Diel.sigmae p (fst src) (snd src)
    /\ Diel.rme p' a b = Diel.rme p (fst src) (snd src)
    /\ Diel.cut p' a b = Diel.cut p (fst src) (snd src).
Proof.
  induction l as [|[i j] l IH]; intros p p' lmp Hinit Hup a b; simpl in Hinit.
  - injection Hinit as <-. cbv zeta.
    destruct (decide (a <= b)); [now repeat split|].
    destruct (decide ((b, a) ∈ [])) as [Hin|_]; [|now repeat split].
    now apply elem_of_nil in Hin.
  - destruct (Diel.init_one i j p lmp) as [[p1 c]|msg] eqn:Hone; [|discriminate].
    destruct (diel_init_one_tables i j p p1 lmp c Hone) as (Hs & Hr & Hc & _).
    assert (Hij : i <= j) by (apply Hup, elem_of_cons; now left).
    assert (Hup' : forall i j, (i, j) ∈ l -> i <= j).
    { intros x y Hxy. apply Hup, elem_of_cons. now right. }
    specialize (IH p1 p' lmp Hinit Hup' a b). cbv zeta in IH |- *.
    destruct IH as (IHs & IHr & IHc). rewrite IHs, IHr, IHc, Hs, Hr, Hc.
    clear IHs IHr IHc Hs Hr Hc.
    destruct (decide (a <= b)) as [Hab|Hab]; cbn [fst snd].
    + unfold tset. destruct (Z.eqb_spec a j) as [->|]; [|now repeat split].
      destruct (Z.eqb_spec b i) as [->|]; [|now repeat split].
      cbn. assert (i = j) as -> by lia. now repeat split.
    + destruct (decide ((b, a) ∈ l)) as [Hin|Hin]; cbn [fst snd].
      * rewrite decide_True by (apply elem_of_cons; now right). cbn [fst snd].
        rewrite !tset_ne; [now repeat split | | |]; intros [= -> ->]; lia.
      * destruct (decide ((b, a) = (i, j))) as [[= -> ->]|Hne].
        -- rewrite decide_True by (apply elem_of_cons; now left). cbn [fst snd].
           now rewrite !tset_eq.
        -- rewrite decide_False.
           2:{ intros Hc. apply elem_of_cons in Hc as [Hc|Hc]; contradiction. }
           cbn [fst snd].
           rewrite !tset_ne; [now repeat split | | |]; congruence.
Qed.

(** X3.  The initialization of the type pairs of a list succeeds exactly
    when every pair of the list has been set: [init_one] accepts a pair whose
    [setflag] is not 0 and returns its cutoff [cut[i][j]], it aborts on a
    pair whose [setflag] is 0, and it never changes a flag. *)
Theorem diel_init_all_succeeds_iff l (p : Diel.PairCoulDielOMP D A) lmp :
  (exists p', Diel.init_all l p lmp = Ok p')
  <-> (forall i j, (i, j) ∈ l -> Diel.setflag p i j <> 0).
Proof.
  split.
  - intros [p' Hp] i j Hin Hz.
    rewrite (diel_init_all_unset l p lmp i j Hin Hz) in Hp. discriminate.
  - apply diel_init_all_ok.
Qed.

(** X4.  What the initialization does to the tables, when it is run for
    pairs with [i <= j] (as the engine runs it).  The entries on and above
    the diagonal keep the values [coeff] gave them; below the diagonal,
    the entry [(j,i)] of every initialized pair [(i,j)] becomes the entry
    [(i,j)], and the entries of the other pairs are not touched.  The flags
    and the dielectric constants are unchanged. *)
Theorem diel_init_all_mirrors l (p p' : Diel.PairCoulDielOMP D A) lmp :
  Diel.init_all l p lmp = Ok p' ->
  (forall i j, (i, j) ∈ l -> i <= j) ->
  (forall a b, a <= b ->
     Diel.sigmae p' a b = Diel.sigmae p a b /\ Diel.rme p' a b = Diel.rme p a b
     /\ Diel.cut p' a b = Diel.cut p a b)
  /\ (forall a b, (a, b) ∈ l ->
     Diel.sigmae p' b a = Diel.sigmae p a b /\ Diel.rme p' b a = Diel.rme p a b
     /\ Diel.cut p' b a = Diel.cut p a b)
  /\ (forall a b, b < a -> (b, a) ∉ l ->
     Diel.sigmae p' a b = Diel.sigmae p a b /\ Diel.rme p' a b = Diel.rme p a b
     /\ Diel.cut p' a b = Diel.cut p a b)
  /\ Diel.setflag p' = Diel.setflag p /\ Diel.eps_s p' = Diel.eps_s p
  /\ Diel.a_eps p' = Diel.a_eps p /\ Diel.b_eps p' = Diel.b_eps p
  /\ Diel.cutsq p' = Diel.cutsq p /\ Diel.cut_global p' = Diel.cut_global p.
Proof.
  intros Hinit Hup. split; [|split; [|split]];
    [| | |exact (diel_init_all_consts l p p' lmp Hinit)].
  - intros a b Hab.
    pose proof (diel_init_all_entries l p p' lmp Hinit Hup a b) as He.
    cbv zeta in He. now rewrite decide_True in He by exact Hab.
  - intros a b Hin.
    pose proof (diel_init_all_entries l p p' lmp Hinit Hup b a) as He.
    cbv zeta in He. pose proof (Hup a b Hin) as Hab.
    destruct (decide (b <= a)) as [Hba|Hba].
    + assert (a = b) as -> by lia. exact He.
    + now rewrite decide_True in He by exact Hin.
  - intros a b Hba Hnin.
    pose proof (diel_init_all_entries l p p' lmp Hinit Hup a b) as He.
    cbv zeta in He. rewrite decide_False in He by lia.
    now rewrite decide_False in He by exact Hnin.
Qed.

(** X5.  [pair_coeff] followed by the initialization.  After a successful
    [coeff] and the initialization of pairs with [i <= j], every pair that
    [coeff] visited and that was initialized holds the [rme], [sigmae] and
    cutoff of the command in both orders of the two types, [(i,j)] and
    [(j,i)], and the dielectric constant of the command is in force. *)
Theorem diel_coeff_then_init `{Engine D A} narg arg l
    (p p1 p2 : Diel.PairCoulDielOMP D A) lmp :
  Diel.coeff narg arg p lmp = Ok p1 ->
  Diel.init_all l p1 lmp = Ok p2 ->
  (forall i j, (i, j) ∈ l -> i <= j) ->
  forall i j, coeff_visits arg lmp i j -> (i, j) ∈ l ->
    let c := if narg =? 6 then numeric (rd arg 5) else Diel.cut_global p in
    Diel.rme p2 i j = numeric (rd arg 3) /\ Diel.rme p2 j i = numeric (rd arg 3)
    /\ Diel.sigmae p2 i j = numeric (rd arg 4)
    /\ Diel.sigmae p2 j i = numeric (rd arg 4)
    /\ Diel.cut p2 i j = c /\ Diel.cut p2 j i = c
    /\ Diel.setflag p2 i j = 1
    /\ Diel.eps_s p2 = numeric (rd arg 2).
Proof.
  intros Hcoeff Hinit Hup i j Hv Hin c. subst c.
  destruct (diel_coeff_visited narg arg p p1 lmp i j Hcoeff Hv)
    as (Hf & Hr & Hs & Hc).
  destruct (diel_init_all_consts l p1 p2 lmp Hinit) as (Hf' & He' & _).
  pose proof (Hup i j Hin) as Hij.
  pose proof (diel_init_all_entries l p1 p2 lmp Hinit Hup i j) as Hu.
  pose proof (diel_init_all_entries l p1 p2 lmp Hinit Hup j i) as Hl.
  cbv zeta in Hu, Hl. rewrite decide_True in Hu by exact Hij.
  cbn [fst snd] in Hu. destruct Hu as (Hus & Hur & Huc).
  assert (Hl' : Diel.sigmae p2 j i = Diel.sigmae p1 i j
                /\ Diel.rme p2 j i = Diel.rme p1 i j
                /\ Diel.cut p2 j i = Diel.cut p1 i j).
  { destruct (decide (j <= i)) as [Hji|Hji].
    - assert (i = j) as -> by lia. now repeat split.
    - rewrite decide_True in Hl by exact Hin. exact Hl. }
  destruct Hl' as (Hls & Hlr & Hlc).
  assert (He : Diel.eps_s p1 = numeric (rd arg 2)).
  { revert Hcoeff. rewrite diel_coeff_unfold.
    destruct ((narg <? 5) || (narg >? 6)); [discriminate|].
    cbv zeta. destruct (Diel.c_count _ =? 0); [discriminate|].
    now intros [= <-]. }
  repeat split; congruence.
Qed.

End Init.

Lemma pairs_of_two_types_upper i j : (i, j) ∈ pairs_of_two_types -> i <= j.
Proof.
  unfold pairs_of_two_types. intros Hin.
  repeat (apply elem_of_cons in Hin as [[= -> ->]|Hin]; [lia|]).
  now apply elem_of_nil in Hin.
Qed.

Lemma diel_init_ok :
  Diel.init_all pairs_of_two_types (diel_set 1) three_atoms = Ok diel_init.
Proof. vm_compute. reflexivity. Qed.

Lemma pairs_of_two_types_12 : (1, 2) ∈ pairs_of_two_types.
Proof.
  unfold pairs_of_two_types.
  apply elem_of_cons; right. apply elem_of_cons; left. reflexivity.
Qed.

Lemma diel_init_all_mirrors_witness :
  Diel.rme diel_init 2 1 = Diel.rme (diel_set 1) 1 2
  /\ Diel.rme diel_init 1 2 = Diel.rme (diel_set 1) 1 2
  /\ Diel.eps_s diel_init = Diel.eps_s (diel_set 1).
Proof.
  destruct (diel_init_all_mirrors pairs_of_two_types (diel_set 1) diel_init
              three_atoms diel_init_ok pairs_of_two_types_upper)
    as (Hup & Hlow & _ & _ & He & _).
  assert (H12 : 1 <= 2) by lia.
  split; [exact (proj1 (proj2 (Hlow 1 2 pairs_of_two_types_12)))|].
  split; [exact (proj1 (proj2 (Hup 1 2 H12)))|].
  exact He.
Defined.

Lemma three_atoms_visits_12 :
  coeff_visits (H := engR) ["*"; "*"; "80.0"; "2.0"; "0.5"] three_atoms 1 2.
Proof. unfold coeff_visits. vm_compute. repeat split; discriminate. Qed.

Lemma diel_coeff_then_init_witness :
  Diel.rme diel_init 2 1 = numericR "2.0"
  /\ Diel.sigmae diel_init 2 1 = numericR "0.5"
  /\ Diel.eps_s diel_init = numericR "80.0".
Proof.
  destruct (diel_coeff_then_init (H0 := engR) 5
              ["*"; "*"; "80.0"; "2.0"; "0.5"] pairs_of_two_types
              (diel_style 1) (diel_set 1) diel_init three_atoms (diel_set_ok 1)
              diel_init_ok pairs_of_two_types_upper 1 2
              three_atoms_visits_12 pairs_of_two_types_12)
    as (_ & Hr & _ & Hs & _ & _ & _ & He).
  split; [exact Hr|]. split; [exact Hs|]. exact He.
Defined.

(** ** Restart, then initialization *)

Section RestartInit.
Context {D A : Type} `{Double D} `{Engine D A}.

(** X6.  A pair style read back with [read_restart] cannot be initialized.
    [read_restart] calls [allocate] and then tests the flags [allocate] has
    just cleared, so it reads no per-pair record: the file is left where the
    settings block ends, and [init_one] aborts for every pair [i <= j] of
    the declared types, whatever [write_restart] wrote to the file. *)
Theorem diel_restart_then_init_fails (p0 : Diel.PairCoulDielOMP D A) lmp fp l i j :
  (i, j) ∈ l -> 1 <= i -> i <= j -> j <= ntypes (atom lmp) ->
  Diel.init_all l (fst (Diel.read_restart p0 lmp fp)) lmp
  = Err "for pair style coul/diel, parameters need to be set explicitly for all pairs."
  /\ snd (Diel.read_restart p0 lmp fp) = snd (Diel.read_restart_settings p0 fp).
Proof.
  intros Hin Hi Hij Hj.
  destruct (diel_read_restart_reads_no_pair p0 lmp fp) as (Hfp & _ & _ & _ & Hflag).
  cbv zeta in Hfp, Hflag. split; [|exact Hfp].
  apply (diel_init_all_unset l _ lmp i j Hin). now apply Hflag.
Qed.

End RestartInit.

Lemma diel_restart_then_init_fails_witness :
  Diel.init_all pairs_of_two_types
    (fst (Diel.read_restart (H0 := engR) (diel_new 0) three_atoms
            (Diel.write_restart (diel_set 0) three_atoms [])))
    three_atoms
  = Err "for pair style coul/diel, parameters need to be set explicitly for all pairs."
  /\ Diel.setflag (diel_set 0) 1 1 = 1.
Proof.
  split; [|reflexivity].
  refine (proj1 (diel_restart_then_init_fails (H0 := engR) (diel_new 0) three_atoms
                   (Diel.write_restart (diel_set 0) three_atoms [])
                   pairs_of_two_types 1 1 _ _ _ _)).
  - unfold pairs_of_two_types. apply elem_of_cons; now left.
  - lia.
  - lia.
  - vm_compute. discriminate.
Defined.

(** ** The loops of a thread *)

Lemma for_lt_inv {S} (P : S -> Prop) lo hi (g : S -> Z -> S) :
  (forall s a, lo <= a < hi -> P s -> P (g s a)) ->
  forall s, P s -> P (for_lt lo hi g s).
Proof.
  intros Hstep s Hs. unfold for_lt. apply foldl_inv; [|exact Hs].
  intros s' a Ha. apply Hstep. apply elem_of_seqZ in Ha. lia.
Qed.

Section Thread.
Context {D A : Type} `{Double D} `{Engine D A}.

(** A property of the variables of a thread that holds when the thread
    starts and that every iteration of the inner loop keeps, holds when the
    thread is done. *)
Lemma debye_eval_thr_inv (P : Debye.Thr D A -> Prop) EV E N
    (p : Debye.PairCoulDebyeOMP D A) lmp t tid fbuf iifrom iito :
  loop_setup_thr (f (atom lmp)) tid (inum (neigh lmp)) (nall lmp)
    (nthreads (comm lmp)) = (fbuf, iifrom, iito) ->
  P (Debye.mkThr fbuf d_zero t) ->
  (forall st i jj, thread_visits lmp iifrom iito i jj -> P st ->
                   P (Debye.eval_pair EV E N p lmp tid i st jj)) ->
  P (Debye.eval_thr EV E N p lmp t tid).
Proof.
  intros Hsetup H0' Hstep. unfold Debye.eval_thr. unfold nall in Hsetup.
  rewrite Hsetup. apply for_lt_inv; [|exact H0'].
  intros st ii Hii Hst. rewrite debye_eval_ii_pairs. cbv zeta.
  apply for_lt_inv; [|exact Hst].
  intros st' jj Hjj Hst'. apply Hstep; [|exact Hst'].
  exists ii. repeat split; lia.
Qed.

Lemma diel_eval_thr_inv (P : Diel.Thr D A -> Prop) EV E N
    (p : Diel.PairCoulDielOMP D A) lmp jtype t tid fbuf iifrom iito :
  loop_setup_thr (f (atom lmp)) tid (inum (neigh lmp)) (nall lmp)
    (nthreads (comm lmp)) = (fbuf, iifrom, iito) ->
  P (Diel.mkThr fbuf d_zero t) ->
  (forall st i jj, thread_visits lmp iifrom iito i jj -> P st ->
                   P (Diel.eval_pair EV E N p lmp tid jtype i st jj)) ->
  P (Diel.eval_thr EV E N p lmp jtype t tid).
Proof.
  intros Hsetup H0' Hstep. unfold Diel.eval_thr. unfold nall in Hsetup.
  rewrite Hsetup. apply for_lt_inv; [|exact H0'].
  intros st ii Hii Hst. rewrite diel_eval_ii_pairs. cbv zeta.
  apply for_lt_inv; [|exact Hst].
  intros st' jj Hjj Hst'. apply Hstep; [|exact Hst'].
  exists ii. repeat split; lia.
Qed.

(** An iteration either skips its entry or accumulates the force of the
    pair into the buffer. *)
Lemma debye_eval_pair_cases EV E N (p : Debye.PairCoulDebyeOMP D A) lmp tid i st jj :
  Debye.eval_pair EV E N p lmp tid i st jj = st
  \/ exists fpair,
       Debye.thr_f (Debye.eval_pair EV E N p lmp tid i st jj)
       = accumulate N (nlocal (atom lmp)) (Debye.thr_f st) i (partner lmp i jj)
           (delx lmp i (partner lmp i jj)) (dely lmp i (partner lmp i jj))
           (delz lmp i (partner lmp i jj)) fpair.
Proof.
  destruct (dlt (rsq lmp i (partner lmp i jj))
              (Debye.cutsq p (rd (type (atom lmp)) i)
                 (rd (type (atom lmp)) (partner lmp i jj)))) eqn:Hcut.
  - right. rewrite (debye_eval_pair_in EV E N p lmp tid i st jj Hcut).
    eexists. reflexivity.
  - left. exact (debye_eval_pair_out EV E N p lmp tid i st jj Hcut).
Qed.

Lemma diel_eval_pair_cases EV E N (p : Diel.PairCoulDielOMP D A) lmp tid jtype i st jj :
  Diel.eval_pair EV E N p lmp tid jtype i st jj = st
  \/ exists fpair,
       Diel.thr_f (Diel.eval_pair EV E N p lmp tid jtype i st jj)
       = accumulate N (nlocal (atom lmp)) (Diel.thr_f st) i (partner lmp i jj)
           (delx lmp i (partner lmp i jj)) (dely lmp i (partner lmp i jj))
           (delz lmp i (partner lmp i jj)) fpair.
Proof.
  destruct (dlt (rsq lmp i (partner lmp i jj))
              (Diel.cutsq p (rd (type (atom lmp)) i) jtype)) eqn:Hcut.
  - right. rewrite (diel_eval_pair_in EV E N p lmp tid jtype i st jj Hcut).
    eexists. reflexivity.
  - left. exact (diel_eval_pair_out EV E N p lmp tid jtype i st jj Hcut).
Qed.

Lemma length_accumulate N nloc (fb : list (Vec3 D)) i j dx dy dz fpair :
  length (accumulate N nloc fb i j dx dy dz fpair) = length fb.
Proof.
  unfold accumulate, f_sub, f_add.
  destruct (N || (j <? nloc)); now rewrite ?length_wr.
Qed.

(** A slot that is not the owner's, and is not the partner's or is the slot
    of a partner that is not written (newton off, a ghost), is untouched. *)
Lemma accumulate_frame N nloc (fb : list (Vec3 D)) i j dx dy dz fpair k :
  0 <= i -> 0 <= j -> 0 <= k -> k <> i ->
  k <> j \/ (N = false /\ nloc <= k) ->
  rd (accumulate N nloc fb i j dx dy dz fpair) k = rd fb k.
Proof.
  intros Hi Hj Hk Hki Hkj.
  destruct (Z.eq_dec k j) as [->|Hne].
  - destruct Hkj as [Hkj|[-> Hg]]; [contradiction|].
    unfold accumulate. cbn [orb].
    destruct (Z.ltb_spec j nloc); [lia|].
    unfold f_add. now rewrite rd_wr_ne by lia.
  - now apply accumulate_other.
Qed.

(** The slots of the buffer a thread may write. *)
Lemma debye_eval_thr_frame EV E N (p : Debye.PairCoulDebyeOMP D A) lmp t tid
    fbuf iifrom iito :
  loop_setup_thr (f (atom lmp)) tid (inum (neigh lmp)) (nall lmp)
    (nthreads (comm lmp)) = (fbuf, iifrom, iito) ->
  (forall i jj, thread_visits lmp iifrom iito i jj ->
                0 <= i /\ 0 <= partner lmp i jj) ->
  let fb' := Debye.thr_f (Debye.eval_thr EV E N p lmp t tid) in
  length fb' = length fbuf
  /\ forall k, 0 <= k ->
       (forall i jj, thread_visits lmp iifrom iito i jj ->
          k <> i /\ (k <> partner lmp i jj
                     \/ (N = false /\ nlocal (atom lmp) <= k))) ->
       rd fb' k = rd fbuf k.
Proof.
  intros Hsetup Hpos fb'. subst fb'.
  apply (debye_eval_thr_inv
           (fun st => length (Debye.thr_f st) = length fbuf
              /\ forall k, 0 <= k ->
                   (forall i jj, thread_visits lmp iifrom iito i jj ->
                      k <> i /\ (k <> partner lmp i jj
                                 \/ (N = false /\ nlocal (atom lmp) <= k))) ->
                   rd (Debye.thr_f st) k = rd fbuf k)
           EV E N p lmp t tid fbuf iifrom iito Hsetup).
  - split; [reflexivity|]. intros; reflexivity.
  - intros st i jj Hv [Hlen Hfr].
    destruct (debye_eval_pair_cases EV E N p lmp tid i st jj) as [->|[fpair ->]].
    + now split.
    + split; [now rewrite length_accumulate|].
      intros k Hk Hno. destruct (Hpos i jj Hv) as [Hi Hj].
      destruct (Hno i jj Hv) as [Hki Hkj].
      rewrite accumulate_frame by assumption. now apply Hfr.
Qed.

Lemma diel_eval_thr_frame EV E N (p : Diel.PairCoulDielOMP D A) lmp jtype t tid
    fbuf iifrom iito :
  loop_setup_thr (f (atom lmp)) tid (inum (neigh lmp)) (nall lmp)
    (nthreads (comm lmp)) = (fbuf, iifrom, iito) ->
  (forall i jj, thread_visits lmp iifrom iito i jj ->
                0 <= i /\ 0 <= partner lmp i jj) ->
  let fb' := Diel.thr_f (Diel.eval_thr EV E N p lmp jtype t tid) in
  length fb' = length fbuf
  /\ forall k, 0 <= k ->
       (forall i jj, thread_visits lmp iifrom iito i jj ->
          k <> i /\ (k <> partner lmp i jj
                     \/ (N = false /\ nlocal (atom lmp) <= k))) ->
       rd fb' k = rd fbuf k.
Proof.
  intros Hsetup Hpos fb'. subst fb'.
  apply (diel_eval_thr_inv
           (fun st => length (Diel.thr_f st) = length fbuf
              /\ forall k, 0 <= k ->
                   (forall i jj, thread_visits lmp iifrom iito i jj ->
                      k <> i /\ (k <> partner lmp i jj
                                 \/ (N = false /\ nlocal (atom lmp) <= k))) ->
                   rd (Diel.thr_f st) k = rd fbuf k)
           EV E N p lmp jtype t tid fbuf iifrom iito Hsetup).
  - split; [reflexivity|]. intros; reflexivity.
  - intros st i jj Hv [Hlen Hfr].
    destruct (diel_eval_pair_cases EV E N p lmp tid jtype i st jj) as [->|[fpair ->]].
    + now split.
    + split; [now rewrite length_accumulate|].
      intros k Hk Hno. destruct (Hpos i jj Hv) as [Hi Hj].
      destruct (Hno i jj Hv) as [Hki Hkj].
      rewrite accumulate_frame by assumption. now apply Hfr.
Qed.

(** X7.  What a thread writes.  The force buffer of a thread keeps its
    length, and a slot changes only if it belongs to an owner of the
    thread's range or to a partner in the neighbor list of such an owner.
    With newton off a partner that is a ghost atom ([j >= nlocal]) is not
    written either, unless it is an owner.  For the Debye kernel and for
    the dielectric kernel. *)
Theorem thread_writes_only_its_pairs EV E N lmp tid fbuf iifrom iito :
  loop_setup_thr (f (atom lmp)) tid (inum (neigh lmp)) (nall lmp)
    (nthreads (comm lmp)) = (fbuf, iifrom, iito) ->
  (forall i jj, thread_visits lmp iifrom iito i jj ->
                0 <= i /\ 0 <= partner lmp i jj) ->
  forall k, 0 <= k ->
    (forall i jj, thread_visits lmp iifrom iito i jj ->
       k <> i /\ (k <> partner lmp i jj
                  \/ (N = false /\ nlocal (atom lmp) <= k))) ->
    (forall (p : Debye.PairCoulDebyeOMP D A) t,
        let fb' := Debye.thr_f (Debye.eval_thr EV E N p lmp t tid) in
        length fb' = length fbuf /\ rd fb' k = rd fbuf k)
    /\ (forall (p : Diel.PairCoulDielOMP D A) jtype t,
        let fb' := Diel.thr_f (Diel.eval_thr EV E N p lmp jtype t tid) in
        length fb' = length fbuf /\ rd fb' k = rd fbuf k).
Proof.
  intros Hsetup Hpos k Hk Hno. split.
  - intros p t fb'. subst fb'.
    destruct (debye_eval_thr_frame EV E N p lmp t tid fbuf iifrom iito Hsetup Hpos)
      as [Hlen Hfr].
    split; [exact Hlen|]. now apply Hfr.
  - intros p jtype t fb'. subst fb'.
    destruct (diel_eval_thr_frame EV E N p lmp jtype t tid fbuf iifrom iito
                Hsetup Hpos) as [Hlen Hfr].
    split; [exact Hlen|]. now apply Hfr.
Qed.

(** X8.  No neighbor within the cutoff, nothing done.  When every entry the
    thread visits fails the cutoff test, the thread leaves its buffer, its
    [ecoul] and its accumulators as they were given to it: no force is
    written and no pair is tallied.  The Debye kernel tests
    [cutsq[itype][type[j]]], the dielectric kernel the column its variable
    [jtype] holds. *)
Theorem thread_outside_cutoff EV E N lmp t tid fbuf iifrom iito :
  loop_setup_thr (f (atom lmp)) tid (inum (neigh lmp)) (nall lmp)
    (nthreads (comm lmp)) = (fbuf, iifrom, iito) ->
  (forall (p : Debye.PairCoulDebyeOMP D A),
      (forall i jj, thread_visits lmp iifrom iito i jj ->
         dlt (rsq lmp i (partner lmp i jj))
           (Debye.cutsq p (rd (type (atom lmp)) i)
              (rd (type (atom lmp)) (partner lmp i jj))) = false) ->
      Debye.eval_thr EV E N p lmp t tid = Debye.mkThr fbuf d_zero t)
  /\ (forall (p : Diel.PairCoulDielOMP D A) jtype,
      (forall i jj, thread_visits lmp iifrom iito i jj ->
         dlt (rsq lmp i (partner lmp i jj))
           (Diel.cutsq p (rd (type (atom lmp)) i) jtype) = false) ->
      Diel.eval_thr EV E N p lmp jtype t tid = Diel.mkThr fbuf d_zero t).
Proof.
  intros Hsetup. split.
  - intros p Hout.
    apply (debye_eval_thr_inv (fun st => st = Debye.mkThr fbuf d_zero t)
             EV E N p lmp t tid fbuf iifrom iito Hsetup); [reflexivity|].
    intros st i jj Hv ->.
    exact (debye_eval_pair_out EV E N p lmp tid i _ jj (Hout i jj Hv)).
  - intros p jtype Hout.
    apply (diel_eval_thr_inv (fun st => st = Diel.mkThr fbuf d_zero t)
             EV E N p lmp jtype t tid fbuf iifrom iito Hsetup); [reflexivity|].
    intros st i jj Hv ->.
    exact (diel_eval_pair_out EV E N p lmp tid jtype i _ jj (Hout i jj Hv)).
Qed.

End Thread.

Lemma two_atoms_setup :
  loop_setup_thr (Engine := engR) (f (atom two_atoms)) 0 (inum (neigh two_atoms))
    (nall two_atoms) (nthreads (comm two_atoms))
  = (f (atom two_atoms), 0, 1).
Proof. vm_compute. reflexivity. Qed.

Lemma two_atoms_visits i jj :
  thread_visits two_atoms 0 1 i jj -> i = 0 /\ jj = 0.
Proof.
  intros (ii & Hii & -> & Hjj). assert (ii = 0) as -> by lia.
  change (rd (numneigh (neigh two_atoms)) (rd (ilist (neigh two_atoms)) 0))
    with 1 in Hjj.
  split; [reflexivity | lia].
Qed.

Lemma thread_writes_only_its_pairs_witness :
  length (Debye.thr_f (Debye.eval_thr (H0 := engR) true true false debyeR
                         two_atoms [] 0)) = 2%nat
  /\ rd (Diel.thr_f (Diel.eval_thr (H0 := engR) true true false dielR
                       two_atoms 1 [] 0)) 2
     = rd (f (atom two_atoms)) 2.
Proof.
  destruct (thread_writes_only_its_pairs (H0 := engR) true true false two_atoms 0
              (f (atom two_atoms)) 0 1 two_atoms_setup) with (k := 2)
    as [Hd Hl].
  - intros i jj Hv. destruct (two_atoms_visits i jj Hv) as [-> ->].
    vm_compute. split; discriminate.
  - lia.
  - intros i jj Hv. destruct (two_atoms_visits i jj Hv) as [-> ->].
    split; [lia|]. left. rewrite two_atoms_partner. lia.
  - split.
    + exact (proj1 (Hd debyeR [])).
    + exact (proj2 (Hl dielR 1 [])).
Defined.

Lemma thread_outside_cutoff_witness :
  Debye.eval_thr (H0 := engR) true true true debye_unset two_atoms [] 0
  = Debye.mkThr (f (atom two_atoms)) 0%R []
  /\ Diel.eval_thr (H0 := engR) true true true (diel_set 0) two_atoms 1 [] 0
     = Diel.mkThr (f (atom two_atoms)) 0%R [].
Proof.
  destruct (thread_outside_cutoff (H0 := engR) true true true two_atoms [] 0
              (f (atom two_atoms)) 0 1 two_atoms_setup) as [Hd Hl].
  split.
  - apply Hd. intros i jj Hv. destruct (two_atoms_visits i jj Hv) as [-> ->].
    rewrite two_atoms_partner, two_atoms_rsq. apply Rltb_false.
    change (Debye.cutsq debye_unset (rd (type (atom two_atoms)) 0)
              (rd (type (atom two_atoms)) 1)) with 0%R. lra.
  - apply Hl. intros i jj Hv. destruct (two_atoms_visits i jj Hv) as [-> ->].
    rewrite two_atoms_partner, two_atoms_rsq. apply Rltb_false.
    change (Diel.cutsq (diel_set 0) (rd (type (atom two_atoms)) 0) 1) with 0%R.
    lra.
Defined.

(** ** Energy and virial accumulation switched off *)

Section NoTally.
Context {D A : Type} `{Double D} `{Engine D A}.

Lemma debye_eval_pair_untallied E N (p : Debye.PairCoulDebyeOMP D A) lmp tid i st jj :
  Debye.thr_tally (Debye.eval_pair false E N p lmp tid i st jj)
  = Debye.thr_tally st.
Proof.
  unfold Debye.eval_pair, Debye.eval_jj.
  match goal with |- context [dlt ?a ?b] => destruct (dlt a b) end; reflexivity.
Qed.

Lemma diel_eval_pair_untallied E N (p : Diel.PairCoulDielOMP D A) lmp tid jtype i st jj :
  Diel.thr_tally (Diel.eval_pair false E N p lmp tid jtype i st jj)
  = Diel.thr_tally st.
Proof.
  unfold Diel.eval_pair, Diel.eval_jj.
  match goal with |- context [dlt ?a ?b] => destruct (dlt a b) end; reflexivity.
Qed.

Lemma debye_eval_pair_ecoul EV N (p : Debye.PairCoulDebyeOMP D A) lmp tid i st jj :
  Debye.ecoul (Debye.eval_pair EV false N p lmp tid i st jj) = Debye.ecoul st.
Proof.
  unfold Debye.eval_pair, Debye.eval_jj.
  match goal with |- context [dlt ?a ?b] => destruct (dlt a b) end; reflexivity.
Qed.

Lemma diel_eval_pair_ecoul EV N (p : Diel.PairCoulDielOMP D A) lmp tid jtype i st jj :
  Diel.ecoul (Diel.eval_pair EV false N p lmp tid jtype i st jj) = Diel.ecoul st.
Proof.
  unfold Diel.eval_pair, Diel.eval_jj.
  match goal with |- context [dlt ?a ?b] => destruct (dlt a b) end; reflexivity.
Qed.

Lemma debye_eval_thr_untallied E N (p : Debye.PairCoulDebyeOMP D A) lmp t tid :
  Debye.thr_tally (Debye.eval_thr false E N p lmp t tid) = t.
Proof.
  destruct (loop_setup_thr (f (atom lmp)) tid (inum (neigh lmp)) (nall lmp)
              (nthreads (comm lmp))) as [[fbuf iifrom] iito] eqn:Hsetup.
  apply (debye_eval_thr_inv (fun st => Debye.thr_tally st = t)
           false E N p lmp t tid fbuf iifrom iito Hsetup); [reflexivity|].
  intros st i jj _ Hst. now rewrite debye_eval_pair_untallied.
Qed.

Lemma diel_eval_thr_untallied E N (p : Diel.PairCoulDielOMP D A) lmp jtype t tid :
  Diel.thr_tally (Diel.eval_thr false E N p lmp jtype t tid) = t.
Proof.
  destruct (loop_setup_thr (f (atom lmp)) tid (inum (neigh lmp)) (nall lmp)
              (nthreads (comm lmp))) as [[fbuf iifrom] iito] eqn:Hsetup.
  apply (diel_eval_thr_inv (fun st => Diel.thr_tally st = t)
           false E N p lmp jtype t tid fbuf iifrom iito Hsetup); [reflexivity|].
  intros st i jj _ Hst. now rewrite diel_eval_pair_untallied.
Qed.

Lemma debye_eval_untallied E N (p : Debye.PairCoulDebyeOMP D A) lmp :
  vflag_fdotr (Debye.ev p) = 0 ->
  Debye.ev (fst (Debye.eval false E N p lmp))
  = mkEv (evflag (Debye.ev p)) 0 (ev_reduce_thr (tally (Debye.ev p))).
Proof.
  intros Hv. unfold Debye.eval. cbn [fst]. unfold Debye.set_tally, Debye.set_ev.
  cbn [Debye.ev]. rewrite Hv. cbn [truthy Z.eqb negb]. f_equal. f_equal.
  apply (for_lt_inv (fun bt : list (list (Vec3 D)) * A => snd bt = tally (Debye.ev p)));
    [|reflexivity].
  intros bt tid _ Hbt. cbn [snd]. rewrite Hbt. apply debye_eval_thr_untallied.
Qed.

Lemma diel_eval_untallied E N jtype (p : Diel.PairCoulDielOMP D A) lmp :
  vflag_fdotr (Diel.ev p) = 0 ->
  Diel.ev (fst (Diel.eval false E N jtype p lmp))
  = mkEv (evflag (Diel.ev p)) 0 (ev_reduce_thr (tally (Diel.ev p))).
Proof.
  intros Hv. unfold Diel.eval. cbn [fst]. unfold Diel.set_tally, Diel.set_ev.
  cbn [Diel.ev]. rewrite Hv. cbn [truthy Z.eqb negb]. f_equal. f_equal.
  apply (for_lt_inv (fun bt : list (list (Vec3 D)) * A => snd bt = tally (Diel.ev p)));
    [|reflexivity].
  intros bt tid _ Hbt. cbn [snd]. rewrite Hbt. apply diel_eval_thr_untallied.
Qed.

(** X9.  Accounting switched off.  A thread whose kernel is instantiated
    without [EVFLAG] never calls [ev_tally_thr]: its accumulators are, at
    the end, the ones it was given; without [EFLAG] its [ecoul] is still
    0.0.  So [compute(0,0)] clears [evflag] and [vflag_fdotr] and leaves
    the accumulators to [ev_reduce_thr] alone: no pair adds to them and
    [virial_compute] is not called.  For both pair styles. *)
Theorem accounting_switched_off :
  (forall E N (p : Debye.PairCoulDebyeOMP D A) lmp t tid,
      Debye.thr_tally (Debye.eval_thr false E N p lmp t tid) = t)
  /\ (forall EV N (p : Debye.PairCoulDebyeOMP D A) lmp t tid,
      Debye.ecoul (Debye.eval_thr EV false N p lmp t tid) = d_zero)
  /\ (forall (p : Debye.PairCoulDebyeOMP D A) lmp,
      Debye.ev (fst (Debye.compute 0 0 p lmp))
      = mkEv 0 0 (ev_reduce_thr (tally (Debye.ev p))))
  /\ (forall E N (p : Diel.PairCoulDielOMP D A) lmp jtype t tid,
      Diel.thr_tally (Diel.eval_thr false E N p lmp jtype t tid) = t)
  /\ (forall EV N (p : Diel.PairCoulDielOMP D A) lmp jtype t tid,
      Diel.ecoul (Diel.eval_thr EV false N p lmp jtype t tid) = d_zero)
  /\ (forall jtype (p : Diel.PairCoulDielOMP D A) lmp,
      Diel.ev (fst (Diel.compute 0 0 jtype p lmp))
      = mkEv 0 0 (ev_reduce_thr (tally (Diel.ev p)))).
Proof.
  split; [|split; [|split; [|split; [|split]]]].
  - apply debye_eval_thr_untallied.
  - intros EV N p lmp t tid.
    destruct (loop_setup_thr (f (atom lmp)) tid (inum (neigh lmp)) (nall lmp)
                (nthreads (comm lmp))) as [[fbuf iifrom] iito] eqn:Hsetup.
    apply (debye_eval_thr_inv (fun st => Debye.ecoul st = d_zero)
             EV false N p lmp t tid fbuf iifrom iito Hsetup); [reflexivity|].
    intros st i jj _ Hst. now rewrite debye_eval_pair_ecoul.
  - intros p lmp. unfold Debye.compute. cbn [truthy Z.eqb negb orb].
    unfold Debye.set_ev at 1 2 3 4. cbn [Debye.ev evflag truthy Z.eqb negb].
    destruct (truthy (newton_pair (force lmp)));
      now rewrite debye_eval_untallied.
  - apply diel_eval_thr_untallied.
  - intros EV N p lmp jtype t tid.
    destruct (loop_setup_thr (f (atom lmp)) tid (inum (neigh lmp)) (nall lmp)
                (nthreads (comm lmp))) as [[fbuf iifrom] iito] eqn:Hsetup.
    apply (diel_eval_thr_inv (fun st => Diel.ecoul st = d_zero)
             EV false N p lmp jtype t tid fbuf iifrom iito Hsetup); [reflexivity|].
    intros st i jj _ Hst. now rewrite diel_eval_pair_ecoul.
  - intros jtype p lmp. unfold Diel.compute. cbn [truthy Z.eqb negb orb].
    unfold Diel.set_ev at 1 2 3 4. cbn [Diel.ev evflag truthy Z.eqb negb].
    destruct (truthy (newton_pair (force lmp)));
      now rewrite diel_eval_untallied.
Qed.

End NoTally.

(** ** Neighbor entries that carry an exclusion code *)

Section Exclusion.
Context {D A : Type} `{Double D} `{Engine D A}.

Lemma coded_entry_decoded (lmp : LAMMPS D) i jj j0 k :
  neighbor lmp i jj = j0 + k * nall lmp ->
  0 <= j0 < nall lmp -> 1 <= k ->
  partner lmp i jj = j0
  /\ factor lmp i jj = rd (special_coul (force lmp)) k.
Proof.
  intros Hn Hj0 Hk. unfold partner, factor. rewrite Hn.
  destruct (Z.ltb_spec (j0 + k * nall lmp) (nall lmp)) as [Hlt|_]; [nia|].
  assert (Hnn : 0 <= j0 + k * nall lmp) by nia.
  rewrite Z.rem_mod_nonneg, Z.quot_div_nonneg by lia.
  rewrite Z.mod_add, Z.div_add by lia.
  rewrite Z.mod_small, Z.div_small by lia.
  split; [reflexivity | f_equal; lia].
Qed.

Lemma plain_entry_decoded (lmp : LAMMPS D) i jj :
  neighbor lmp i jj < nall lmp ->
  partner lmp i jj = neighbor lmp i jj /\ factor lmp i jj = d_one.
Proof.
  intros Hn. unfold partner, factor.
  destruct (Z.ltb_spec (neighbor lmp i jj) (nall lmp)); [now split | lia].
Qed.

(** X10.  A neighbor entry [j0 + k*nall], with [0 <= j0 < nall] and
    [k >= 1], stands for the partner [j0] in an excluded relation of kind
    [k]: the kernel tests the cutoff for the atom [j0], accumulates into
    the slot [j0], and scales the force of the pair with [special_coul[k]];
    an entry below [nall] ([k = 0]) is the partner itself, with the scale
    1.0.  For the Debye kernel and for the dielectric kernel (with the
    table column [jtype] its variable holds). *)
Theorem exclusion_code_decoded EV E N lmp tid i jj j0 k :
  neighbor lmp i jj = j0 + k * nall lmp ->
  0 <= j0 < nall lmp -> 0 <= k ->
  let itype := rd (type (atom lmp)) i in
  let scale := if k =? 0 then d_one else rd (special_coul (force lmp)) k in
  (forall (p : Debye.PairCoulDebyeOMP D A) st,
      let jtype := rd (type (atom lmp)) j0 in
      let st' := Debye.eval_pair EV E N p lmp tid i st jj in
      if dlt (rsq lmp i j0) (Debye.cutsq p itype jtype)
      then Debye.thr_f st'
           = accumulate N (nlocal (atom lmp)) (Debye.thr_f st) i j0
               (delx lmp i j0) (dely lmp i j0) (delz lmp i j0)
               (snd (Debye.single p lmp i j0 itype jtype (rsq lmp i j0)
                       scale d_zero))
      else st' = st)
  /\ (forall (p : Diel.PairCoulDielOMP D A) jtype st,
      let st' := Diel.eval_pair EV E N p lmp tid jtype i st jj in
      if dlt (rsq lmp i j0) (Diel.cutsq p itype jtype)
      then Diel.thr_f st'
           = accumulate N (nlocal (atom lmp)) (Diel.thr_f st) i j0
               (delx lmp i j0) (dely lmp i j0) (delz lmp i j0)
               (snd (Diel.single p lmp i j0 itype jtype (rsq lmp i j0)
                       scale d_zero))
      else st' = st).
Proof.
  intros Hn Hj0 Hk itype scale. subst itype scale.
  assert (Hdec : partner lmp i jj = j0
                 /\ factor lmp i jj
                    = if k =? 0 then d_one else rd (special_coul (force lmp)) k).
  { destruct (Z.eqb_spec k 0) as [->|Hk0].
    - destruct (plain_entry_decoded lmp i jj) as [Hp Hf]; [lia|].
      split; [lia | exact Hf].
    - apply coded_entry_decoded; [exact Hn | exact Hj0 | lia]. }
  destruct Hdec as [Hp Hf]. split.
  - intros p st jtype st'. subst jtype st'.
    destruct (dlt (rsq lmp i j0)
                (Debye.cutsq p (rd (type (atom lmp)) i) (rd (type (atom lmp)) j0)))
      eqn:Hcut.
    + rewrite <- Hp in Hcut.
      rewrite (debye_eval_pair_in EV E N p lmp tid i st jj Hcut).
      cbn [Debye.thr_f]. now rewrite Hp, Hf.
    + rewrite <- Hp in Hcut.
      exact (debye_eval_pair_out EV E N p lmp tid i st jj Hcut).
  - intros p jtype st st'. subst st'.
    destruct (dlt (rsq lmp i j0) (Diel.cutsq p (rd (type (atom lmp)) i) jtype))
      eqn:Hcut.
    + rewrite <- Hp in Hcut.
      rewrite (diel_eval_pair_in EV E N p lmp tid jtype i st jj Hcut).
      cbn [Diel.thr_f]. now rewrite Hp, Hf.
    + rewrite <- Hp in Hcut.
      exact (diel_eval_pair_out EV E N p lmp tid jtype i st jj Hcut).
Qed.

End Exclusion.

Lemma two_atoms_excluded_rsq : rsq two_atoms_excluded 0 1 = 1%R.
Proof. runR. lra. Qed.

Lemma exclusion_code_decoded_witness :
  Debye.thr_f (Debye.eval_pair (H0 := engR) true true true debyeR
                 two_atoms_excluded 0 0 debye_thr0 0)
  = accumulate true 2 (Debye.thr_f debye_thr0) 0 1
      (delx two_atoms_excluded 0 1) (dely two_atoms_excluded 0 1)
      (delz two_atoms_excluded 0 1)
      (snd (Debye.single debyeR two_atoms_excluded 0 1 1 1
              (rsq two_atoms_excluded 0 1) (1 / 2)%R 0%R))
  /\ neighbor two_atoms_excluded 0 0 = 5.
Proof.
  split; [|reflexivity].
  assert (Hn : neighbor two_atoms_excluded 0 0 = 1 + 2 * nall two_atoms_excluded)
    by reflexivity.
  assert (Hj0 : 0 <= 1 < nall two_atoms_excluded)
    by (vm_compute; split; [discriminate | reflexivity]).
  assert (Hk : 0 <= 2) by lia.
  pose proof (proj1 (exclusion_code_decoded (H0 := engR) true true true
                       two_atoms_excluded 0 0 0 1 2 Hn Hj0 Hk)
                debyeR debye_thr0) as Hd.
  cbv zeta in Hd.
  change (Debye.cutsq debyeR (rd (type (atom two_atoms_excluded)) 0)
            (rd (type (atom two_atoms_excluded)) 1)) with 25%R in Hd.
  rewrite two_atoms_excluded_rsq in Hd.
  assert (Hc : dlt 1%R 25%R = true) by (apply Rltb_true; lra).
  rewrite Hc in Hd.
  rewrite two_atoms_excluded_rsq. exact Hd.
Defined.

(** ** The total force, in exact arithmetic *)

Lemma vec3_ext (a b : Vec3 R) :
  v0 a = v0 b -> v1 a = v1 b -> v2 a = v2 b -> a = b.
Proof. destruct a, b. cbn. now intros -> -> ->. Qed.

Lemma total_force_cons u (fb : list (Vec3 R)) :
  total_force (u :: fb)
  = (mkVec3 (v0 u + v0 (total_force fb)) (v1 u + v1 (total_force fb))
       (v2 u + v2 (total_force fb)))%R.
Proof. reflexivity. Qed.

Lemma total_force_insert (fb : list (Vec3 R)) : forall n v,
  (n < length fb)%nat ->
  v0 (total_force (<[n := v]> fb))
  = (v0 (total_force fb) - v0 (fb !!! n) + v0 v)%R
  /\ v1 (total_force (<[n := v]> fb))
     = (v1 (total_force fb) - v1 (fb !!! n) + v1 v)%R
  /\ v2 (total_force (<[n := v]> fb))
     = (v2 (total_force fb) - v2 (fb !!! n) + v2 v)%R.
Proof.
  induction fb as [|u fb IH]; intros n v Hn; [cbn in Hn; lia|].
  destruct n as [|n].
  - cbn. repeat split; lra.
  - cbn in Hn. destruct (IH n v ltac:(lia)) as (H0' & H1' & H2').
    change (<[S n := v]> (u :: fb)) with (u :: <[n := v]> fb).
    change ((u :: fb) !!! S n) with (fb !!! n).
    rewrite !total_force_cons. cbn [v0 v1 v2].
    rewrite H0', H1', H2'. repeat split; lra.
Qed.

Lemma total_force_wr (fb : list (Vec3 R)) i v :
  0 <= i < Z.of_nat (length fb) ->
  v0 (total_force (wr fb i v)) = (v0 (total_force fb) - v0 (rd fb i) + v0 v)%R
  /\ v1 (total_force (wr fb i v)) = (v1 (total_force fb) - v1 (rd fb i) + v1 v)%R
  /\ v2 (total_force (wr fb i v)) = (v2 (total_force fb) - v2 (rd fb i) + v2 v)%R.
Proof. intros Hi. unfold wr, rd. apply total_force_insert. lia. Qed.

(** The two accumulations of a pair cancel in the sum, when the partner is
    written. *)
Lemma total_force_accumulate N nloc (fb : list (Vec3 R)) i j dx dy dz fpair :
  0 <= i < Z.of_nat (length fb) -> 0 <= j < Z.of_nat (length fb) ->
  N || (j <? nloc) = true ->
  total_force (accumulate N nloc fb i j dx dy dz fpair) = total_force fb.
Proof.
  intros Hi Hj Hw. unfold accumulate. rewrite Hw. unfold f_sub, f_add.
  cbv zeta. cbn [dadd dsub dmul DoubleR].
  match goal with
  | |- total_force (wr (wr fb i ?vi) j _) = _ =>
      destruct (total_force_wr fb i vi Hi) as (G0 & G1 & G2);
      set (f1 := wr fb i vi) in *
  end.
  assert (Hlen : length f1 = length fb) by (subst f1; apply length_wr).
  match goal with
  | |- total_force (wr f1 j ?vj) = _ =>
      destruct (total_force_wr f1 j vj) as (H0' & H1' & H2'); [lia|]
  end.
  cbn [v0 v1 v2] in H0', H1', H2', G0, G1, G2.
  apply vec3_ext; [rewrite H0', G0 | rewrite H1', G1 | rewrite H2', G2]; lra.
Qed.

Section Momentum.
Context {A : Type} `{Engine R A}.

(** X11.  Newton's third law in the buffer of a thread, in exact
    arithmetic.  When every partner the thread visits is written (newton
    on, or the partner an owned atom) and the owners and partners are slots
    of the buffer, the sum of the forces of the buffer is the same after the
    two loops as before: what a pair adds to the owner it takes from the
    partner.  For the Debye kernel and for the dielectric kernel. *)
Theorem thread_conserves_total_force EV E N lmp tid fbuf iifrom iito :
  loop_setup_thr (f (atom lmp)) tid (inum (neigh lmp)) (nall lmp)
    (nthreads (comm lmp)) = (fbuf, iifrom, iito) ->
  (forall i jj, thread_visits lmp iifrom iito i jj ->
     0 <= i < Z.of_nat (length fbuf)
     /\ 0 <= partner lmp i jj < Z.of_nat (length fbuf)
     /\ (N = true \/ partner lmp i jj < nlocal (atom lmp))) ->
  (forall (p : Debye.PairCoulDebyeOMP R A) t,
      total_force (Debye.thr_f (Debye.eval_thr EV E N p lmp t tid))
      = total_force fbuf)
  /\ (forall (p : Diel.PairCoulDielOMP R A) jtype t,
      total_force (Diel.thr_f (Diel.eval_thr EV E N p lmp jtype t tid))
      = total_force fbuf).
Proof.
  intros Hsetup Hin.
  assert (Hw : forall i jj, thread_visits lmp iifrom iito i jj ->
                 N || (partner lmp i jj <? nlocal (atom lmp)) = true).
  { intros i jj Hv. destruct (Hin i jj Hv) as (_ & _ & [->|Hlt]); [reflexivity|].
    apply orb_true_iff. right. now apply Z.ltb_lt. }
  split.
  - intros p t.
    apply (debye_eval_thr_inv
             (fun st => length (Debye.thr_f st) = length fbuf
                        /\ total_force (Debye.thr_f st) = total_force fbuf)
             EV E N p lmp t tid fbuf iifrom iito Hsetup); [now split|].
    intros st i jj Hv [Hlen Hsum].
    destruct (debye_eval_pair_cases EV E N p lmp tid i st jj) as [->|[fpair ->]];
      [now split|].
    split; [now rewrite length_accumulate|].
    destruct (Hin i jj Hv) as (Hi & Hj & _).
    rewrite total_force_accumulate; [exact Hsum | lia | lia | now apply Hw].
  - intros p jtype t.
    apply (diel_eval_thr_inv
             (fun st => length (Diel.thr_f st) = length fbuf
                        /\ total_force (Diel.thr_f st) = total_force fbuf)
             EV E N p lmp jtype t tid fbuf iifrom iito Hsetup); [now split|].
    intros st i jj Hv [Hlen Hsum].
    destruct (diel_eval_pair_cases EV E N p lmp tid jtype i st jj) as [->|[fpair ->]];
      [now split|].
    split; [now rewrite length_accumulate|].
    destruct (Hin i jj Hv) as (Hi & Hj & _).
    rewrite total_force_accumulate; [exact Hsum | lia | lia | now apply Hw].
Qed.

End Momentum.

Lemma thread_conserves_total_force_witness :
  total_force (Debye.thr_f (Debye.eval_thr (H0 := engR) true true true debyeR
                              two_atoms [] 0))
  = total_force (f (atom two_atoms))
  /\ total_force (Diel.thr_f (Diel.eval_thr (H0 := engR) true true true dielR
                                two_atoms 1 [] 0))
     = total_force (f (atom two_atoms)).
Proof.
  destruct (thread_conserves_total_force (H := engR) true true true two_atoms 0
              (f (atom two_atoms)) 0 1 two_atoms_setup) as [Hd Hl].
  - intros i jj Hv. destruct (two_atoms_visits i jj Hv) as [-> ->].
    rewrite two_atoms_partner.
    split; [vm_compute; split; [discriminate | reflexivity]|].
    split; [vm_compute; split; [discriminate | reflexivity]|].
    now left.
  - split; [exact (Hd debyeR []) | exact (Hl dielR 1 [])].
Defined.

(** ** The force is the slope of the energy, in exact arithmetic *)

Lemma cosh_pos x : (0 < Rtrigo_def.cosh x)%R.
Proof.
  unfold Rtrigo_def.cosh.
  pose proof (exp_pos x). pose proof (exp_pos (- x)). lra.
Qed.

Lemma tanh_bounds x : (-1 < Rtrigo_def.tanh x < 1)%R.
Proof.
  unfold Rtrigo_def.tanh, Rtrigo_def.sinh, Rtrigo_def.cosh.
  pose proof (exp_pos x) as Hu. pose proof (exp_pos (- x)) as Hv.
  set (u := Rtrigo_def.exp x) in *. set (v := Rtrigo_def.exp (- x)) in *.
  replace ((u - v) / 2 / ((u + v) / 2))%R with ((u - v) / (u + v))%R
    by (field; lra).
  split.
  - apply Rmult_lt_reg_r with (u + v)%R; [lra|].
    unfold Rdiv. rewrite Rmult_assoc, Rinv_l by lra. lra.
  - apply Rmult_lt_reg_r with (u + v)%R; [lra|].
    unfold Rdiv. rewrite Rmult_assoc, Rinv_l by lra. lra.
Qed.

Lemma derivable_pt_lim_tanh x :
  derivable_pt_lim Rtrigo_def.tanh x
    (1 - Rtrigo_def.tanh x * Rtrigo_def.tanh x)%R.
Proof.
  pose proof (cosh_pos x) as Hc.
  pose proof (derivable_pt_lim_div Rtrigo_def.sinh Rtrigo_def.cosh x _ _
                (derivable_pt_lim_sinh x) (derivable_pt_lim_cosh x)
                ltac:(lra)) as Hd.
  replace (1 - Rtrigo_def.tanh x * Rtrigo_def.tanh x)%R
    with ((Rtrigo_def.cosh x * Rtrigo_def.cosh x
           - Rtrigo_def.sinh x * Rtrigo_def.sinh x) / (Rtrigo_def.cosh x)²)%R.
  - exact Hd.
  - unfold Rtrigo_def.tanh, Rsqr. field. lra.
Qed.

(** The slope of [K * (1/r) * exp(-kappa*r)]. *)
Lemma derivable_pt_lim_screened K kappa r0 :
  (0 < r0)%R ->
  derivable_pt_lim
    (fun r => K * (1 / r) * Rtrigo_def.exp (- kappa * r))%R r0
    (- (K * Rtrigo_def.exp (- kappa * r0) * (kappa + 1 / r0) / r0))%R.
Proof.
  intros Hr.
  assert (Hinv : derivable_pt_lim (fct_cte 1 / id)%F r0 (- / (r0 * r0))%R).
  { pose proof (derivable_pt_lim_div (fct_cte 1) id r0 _ _
                  (derivable_pt_lim_const 1 r0) (derivable_pt_lim_id r0)) as Hd.
    replace (- / (r0 * r0))%R
      with ((0 * id r0 - 1 * fct_cte 1 r0) / (id r0)²)%R.
    - apply Hd. unfold id. lra.
    - unfold id, fct_cte, Rsqr. field. lra. }
  assert (Hexp : derivable_pt_lim
                   (comp Rtrigo_def.exp (mult_real_fct (- kappa) id)) r0
                   (Rtrigo_def.exp (- kappa * r0) * (- kappa * 1))%R).
  { apply (derivable_pt_lim_comp (mult_real_fct (- kappa) id) Rtrigo_def.exp).
    - apply derivable_pt_lim_scal, derivable_pt_lim_id.
    - apply derivable_pt_lim_exp. }
  pose proof (derivable_pt_lim_scal _ K r0 _
                (derivable_pt_lim_mult _ _ r0 _ _ Hinv Hexp)) as Hd.
  eapply derivable_pt_lim_ext; [|
    replace (- (K * Rtrigo_def.exp (- kappa * r0) * (kappa + 1 / r0) / r0))%R
      with (K * (- / (r0 * r0)
                 * comp Rtrigo_def.exp (mult_real_fct (- kappa) id) r0
                 + (fct_cte 1 / id)%F r0
                   * (Rtrigo_def.exp (- kappa * r0) * (- kappa * 1))))%R;
    [exact Hd|]].
  - intros z. unfold mult_real_fct, mult_fct, div_fct, fct_cte, comp, id.
    lra.
  - unfold mult_real_fct, mult_fct, div_fct, fct_cte, comp, id. field. lra.
Qed.

(** The slope of [C * (eps_s/epsr(r) - 1)/r - off], with the permittivity
    [epsr(r) = a + b*tanh((r-rme)/sigmae)]. *)
Lemma derivable_pt_lim_dielectric C eps_s a b rme sigmae off r0 :
  (0 < r0)%R -> sigmae <> 0%R ->
  let epsr r := (a + b * Rtrigo_def.tanh ((r - rme) / sigmae))%R in
  let th := Rtrigo_def.tanh ((r0 - rme) / sigmae) in
  let depsdr := (b * (1 - th * th) / sigmae)%R in
  epsr r0 <> 0%R ->
  derivable_pt_lim
    (fun r => C * (eps_s / epsr r - 1) / r - off)%R r0
    (- (C * (eps_s * (epsr r0 + r0 * depsdr) / epsr r0 / epsr r0 - 1)
        / (r0 * r0)))%R.
Proof.
  intros Hr Hs epsr th depsdr He.
  assert (Harg : derivable_pt_lim
                   (mult_real_fct (/ sigmae) (id - fct_cte rme)%F) r0
                   (/ sigmae * (1 - 0))%R).
  { apply derivable_pt_lim_scal, derivable_pt_lim_minus;
      [apply derivable_pt_lim_id | apply derivable_pt_lim_const]. }
  assert (Hth : derivable_pt_lim
                  (comp Rtrigo_def.tanh
                     (mult_real_fct (/ sigmae) (id - fct_cte rme)%F)) r0
                  ((1 - th * th) * (/ sigmae * (1 - 0)))%R).
  { apply (derivable_pt_lim_comp _ Rtrigo_def.tanh); [exact Harg|].
    replace th
      with (Rtrigo_def.tanh (mult_real_fct (/ sigmae) (id - fct_cte rme)%F r0)).
    - apply derivable_pt_lim_tanh.
    - subst th. f_equal.
      unfold mult_real_fct, minus_fct, fct_cte, id. field. exact Hs. }
  set (T := comp Rtrigo_def.tanh
              (mult_real_fct (/ sigmae) (id - fct_cte rme)%F)) in *.
  assert (HT : forall r, T r = Rtrigo_def.tanh ((r - rme) / sigmae)).
  { intros r. subst T. unfold comp. f_equal.
    unfold mult_real_fct, minus_fct, fct_cte, id. field. exact Hs. }
  assert (Heps : derivable_pt_lim (fct_cte a + mult_real_fct b T)%F r0
                   (0 + b * ((1 - th * th) * (/ sigmae * (1 - 0))))%R).
  { apply derivable_pt_lim_plus;
      [apply derivable_pt_lim_const | apply derivable_pt_lim_scal, Hth]. }
  set (Ef := (fct_cte a + mult_real_fct b T)%F) in *.
  assert (HE : forall r, Ef r = epsr r).
  { intros r. subst Ef epsr. unfold plus_fct, mult_real_fct, fct_cte.
    cbv beta. now rewrite HT. }
  assert (Hq : derivable_pt_lim (fct_cte eps_s / Ef)%F r0
                 ((0 * Ef r0
                   - (0 + b * ((1 - th * th) * (/ sigmae * (1 - 0))))
                     * fct_cte eps_s r0) / (Ef r0)²)%R).
  { apply derivable_pt_lim_div;
      [apply derivable_pt_lim_const | exact Heps | now rewrite HE]. }
  assert (Hn : derivable_pt_lim
                 (mult_real_fct C ((fct_cte eps_s / Ef) - fct_cte 1))%F r0
                 (C * ((0 * Ef r0
                        - (0 + b * ((1 - th * th) * (/ sigmae * (1 - 0))))
                          * fct_cte eps_s r0) / (Ef r0)² - 0))%R).
  { apply derivable_pt_lim_scal, derivable_pt_lim_minus;
      [exact Hq | apply derivable_pt_lim_const]. }
  set (Nf := (mult_real_fct C ((fct_cte eps_s / Ef) - fct_cte 1))%F) in *.
  pose proof (derivable_pt_lim_minus _ _ r0 _ _
                (derivable_pt_lim_div Nf id r0 _ _ Hn (derivable_pt_lim_id r0)
                   ltac:(unfold id; lra))
                (derivable_pt_lim_const off r0)) as Hd.
  eapply derivable_pt_lim_ext; [|
    match type of Hd with
    | derivable_pt_lim _ _ ?l =>
        replace (- (C * (eps_s * (epsr r0 + r0 * depsdr) / epsr r0 / epsr r0 - 1)
                    / (r0 * r0)))%R with l; [exact Hd|]
    end].
  - intros z. unfold minus_fct, div_fct, fct_cte, id. subst Nf.
    unfold mult_real_fct at 1. unfold minus_fct, div_fct, fct_cte.
    rewrite HE. reflexivity.
  - subst Nf. unfold mult_real_fct, minus_fct, div_fct, fct_cte, id, Rsqr.
    rewrite !HE. subst depsdr.
    assert (Hr0 : r0 <> 0%R) by lra.
    generalize dependent (epsr r0). intros e0 He0. field.
    repeat split; assumption.
Qed.

(** X12.  coul/debye/omp, exact arithmetic: the force [single] returns is
    the slope of the energy it returns.  At a separation [r0 > 0] the
    energy of the pair, as a function of the separation [r] (that is, of
    [rsq = r*r]), has the derivative [-(r0 * fforce)]: [fforce] is the
    force divided by the separation, and the force is minus the derivative
    of the energy. *)
Theorem debye_force_is_energy_slope {A} (p : Debye.PairCoulDebyeOMP R A) lmp
    i j itype jtype fc fl r0 :
  (0 < r0)%R ->
  derivable_pt_lim
    (fun r => fst (Debye.single p lmp i j itype jtype (r * r)%R fc fl)) r0
    (- (r0 * snd (Debye.single p lmp i j itype jtype (r0 * r0)%R fc fl)))%R.
Proof.
  intros Hr.
  set (K := (fc * (qqrd2e (force lmp) * rd (q (atom lmp)) i
                   * rd (q (atom lmp)) j))%R).
  apply (derivable_pt_lim_locally_ext
           (fun r => K * (1 / r) * Rtrigo_def.exp (- Debye.kappa p * r))%R
           _ r0 (r0 / 2)%R (r0 + 1)%R); [lra| |].
  - intros z Hz. unfold Debye.single.
    cbn [fst dmul ddiv dadd dneg dsqrt dexp d_one DoubleR].
    rewrite sqrt_square by lra. subst K. ring.
  - unfold Debye.single.
    cbn [snd dmul ddiv dadd dneg dsqrt dexp d_one DoubleR].
    rewrite sqrt_square by lra.
    replace (- (r0 * (fc * (qqrd2e (force lmp) * rd (q (atom lmp)) i
                            * rd (q (atom lmp)) j
                            * Rtrigo_def.exp (- Debye.kappa p * r0)
                            * (Debye.kappa p + 1 / r0)) * (1 / (r0 * r0)))))%R
      with (- (K * Rtrigo_def.exp (- Debye.kappa p * r0)
               * (Debye.kappa p + 1 / r0) / r0))%R
      by (subst K; field; lra).
    now apply derivable_pt_lim_screened.
Qed.

(** X13.  coul/diel/omp, exact arithmetic: the force [single] returns is the
    slope of the energy it returns, for the table entries of the type pair
    it is given.  [depsdr] is the derivative of the permittivity
    [epsr(r) = a_eps + b_eps*tanh((r-rme)/sigmae)], and at a separation
    [r0 > 0], with [sigmae] and [epsr(r0)] not zero, the energy has the
    derivative [-(r0 * fforce)] with respect to the separation; the offset
    does not enter the force. *)
Theorem diel_force_is_energy_slope {A} (p : Diel.PairCoulDielOMP R A) lmp
    i j itype jtype fc fl r0 :
  (0 < r0)%R ->
  Diel.sigmae p itype jtype <> 0%R ->
  (Diel.a_eps p
   + Diel.b_eps p
     * Rtrigo_def.tanh ((r0 - Diel.rme p itype jtype) / Diel.sigmae p itype jtype)
   <> 0)%R ->
  derivable_pt_lim
    (fun r => fst (Diel.single p lmp i j itype jtype (r * r)%R fc fl)) r0
    (- (r0 * snd (Diel.single p lmp i j itype jtype (r0 * r0)%R fc fl)))%R.
Proof.
  intros Hr Hs He.
  set (C := (qqrd2e (force lmp) * rd (q (atom lmp)) i * rd (q (atom lmp)) j)%R).
  pose proof (derivable_pt_lim_scal _ fc r0 _
                (derivable_pt_lim_dielectric C (Diel.eps_s p) (Diel.a_eps p)
                   (Diel.b_eps p) (Diel.rme p itype jtype)
                   (Diel.sigmae p itype jtype) (Diel.offset p itype jtype)
                   r0 Hr Hs He)) as Hd.
  cbv beta zeta in Hd.
  match type of Hd with
  | derivable_pt_lim ?g _ ?l =>
      assert (Hf : derivable_pt_lim
                     (fun r => fst (Diel.single p lmp i j itype jtype (r * r)%R
                                      fc fl)) r0 l)
  end.
  { eapply (derivable_pt_lim_locally_ext _ _ r0 (r0 / 2)%R (r0 + 1)%R);
      [lra | | exact Hd].
    intros z Hz. unfold mult_real_fct, Diel.single.
    cbn [fst dmul ddiv dadd dsub dneg dsqrt dtanh d_one DoubleR].
    rewrite sqrt_square by lra. fold C. reflexivity. }
  match type of Hf with
  | derivable_pt_lim _ _ ?l =>
      replace (- (r0 * snd (Diel.single p lmp i j itype jtype (r0 * r0)%R fc fl)))%R
        with l; [exact Hf|]
  end.
  unfold Diel.single.
  cbn [snd dmul ddiv dadd dsub dneg dsqrt dtanh d_one DoubleR].
  rewrite sqrt_square by lra. fold C.
  assert (Hr0 : r0 <> 0%R) by lra.
  clear Hd Hf. revert He.
  generalize
    (Rtrigo_def.tanh ((r0 - Diel.rme p itype jtype) / Diel.sigmae p itype jtype)).
  intros th He. field. repeat split; assumption.
Qed.

Lemma debye_force_is_energy_slope_witness :
  (0 < 1)%R
  /\ derivable_pt_lim
       (fun r => fst (Debye.single debyeR two_atoms 0 1 1 1 (r * r)%R 1%R 0%R)) 1
       (- (1 * snd (Debye.single debyeR two_atoms 0 1 1 1 (1 * 1)%R 1%R 0%R)))%R.
Proof.
  split; [lra|].
  apply (debye_force_is_energy_slope debyeR two_atoms 0 1 1 1 1%R 0%R 1%R). lra.
Defined.

Lemma dielR_permittivity_pos x :
  (Diel.a_eps dielR + Diel.b_eps dielR * Rtrigo_def.tanh x <> 0)%R.
Proof.
  pose proof (tanh_bounds x) as [Hlo Hhi].
  change (Diel.a_eps dielR) with (1 / 2 * (52 / 10 + 80))%R.
  change (Diel.b_eps dielR) with (1 / 2 * (80 - 52 / 10))%R.
  intros Hz. nra.
Qed.

Lemma diel_force_is_energy_slope_witness :
  (0 < 1)%R
  /\ derivable_pt_lim
       (fun r => fst (Diel.single dielR two_atoms 0 1 1 1 (r * r)%R 1%R 0%R)) 1
       (- (1 * snd (Diel.single dielR two_atoms 0 1 1 1 (1 * 1)%R 1%R 0%R)))%R.
Proof.
  split; [lra|].
  apply (diel_force_is_energy_slope dielR two_atoms 0 1 1 1 1%R 0%R 1%R).
  - lra.
  - change (Diel.sigmae dielR 1 1) with (1 / 2)%R. lra.
  - apply dielR_permittivity_pos.
Defined.

(** ** The permittivity and the sign of the force, in exact arithmetic *)

Lemma permittivity_between e th :
  (-1 < th < 1)%R ->
  (Rmin (52 / 10) e <= 1 / 2 * (52 / 10 + e) + 1 / 2 * (e - 52 / 10) * th
   <= Rmax (52 / 10) e)%R.
Proof.
  intros [Hlo Hhi]. unfold Rmin, Rmax.
  destruct (Rle_dec (52 / 10) e); split; nra.
Qed.

Section Permittivity.
Context {A : Type} `{Engine R A}.

(** X14.  The permittivity [coeff] sets up.  With [a_eps] and [b_eps] as a
    successful [coeff] computes them from the dielectric constant [eps_s]
    of the command, the permittivity [epsr = a_eps + b_eps*tanh(rarg)] the
    kernel and [single] divide by lies between 5.2 and [eps_s] for every
    argument of [tanh]; so it is positive, and never zero, when [eps_s] is
    positive. *)
Theorem diel_permittivity_after_coeff narg arg (p p' : Diel.PairCoulDielOMP R A) lmp :
  Diel.coeff narg arg p lmp = Ok p' ->
  forall x,
    let epsr := (Diel.a_eps p' + Diel.b_eps p' * Rtrigo_def.tanh x)%R in
    (Rmin (52 / 10) (Diel.eps_s p') <= epsr <= Rmax (52 / 10) (Diel.eps_s p'))%R
    /\ ((0 < Diel.eps_s p')%R -> (0 < epsr)%R).
Proof.
  rewrite diel_coeff_unfold.
  destruct ((narg <? 5) || (narg >? 6)); [discriminate|].
  cbv zeta. destruct (Diel.c_count _ =? 0); [discriminate|].
  intros [= <-] x. cbn [Diel.eps_s Diel.a_eps Diel.b_eps].
  cbn [d_half d_5_2 dadd dsub dmul DoubleR].
  pose proof (permittivity_between (numeric (rd arg 2)) (Rtrigo_def.tanh x)
                (tanh_bounds x)) as Hb.
  split; [exact Hb|].
  intros Hpos. destruct Hb as [Hb _]. revert Hb. unfold Rmin.
  destruct (Rle_dec (52 / 10) (numeric (rd arg 2))); lra.
Qed.

End Permittivity.

Lemma diel_permittivity_after_coeff_witness :
  (Rmin (52 / 10) (Diel.eps_s (diel_set 0))
   <= Diel.a_eps (diel_set 0) + Diel.b_eps (diel_set 0) * Rtrigo_def.tanh 0
   <= Rmax (52 / 10) (Diel.eps_s (diel_set 0)))%R
  /\ Diel.eps_s (diel_set 0) = 80%R.
Proof.
  split; [|reflexivity].
  exact (proj1 (diel_permittivity_after_coeff (H := engR) 5
                  ["*"; "*"; "80.0"; "2.0"; "0.5"] (diel_style 0) (diel_set 0)
                  three_atoms (diel_set_ok 0) 0%R)).
Defined.

(** X15.  Like charges repel, unlike charges attract, in exact arithmetic.
    With [qqrd2e], the scale factor and the squared separation positive:
    for coul/debye/omp with [kappa >= 0], and for coul/diel/omp with
    [a_eps], [b_eps] as [coeff] computes them, [eps_s > 5.2] and
    [sigmae > 0], the force [single] returns is the product [q_i*q_j] times
    a positive number.  So it has the sign of [q_i*q_j]: positive, that is
    repulsive, for like charges; and zero when a charge is zero.  The energy
    of coul/debye/omp has the sign of [q_i*q_j] as well. *)
Theorem force_has_the_sign_of_the_charges {A} lmp i j itype jtype rsq0 fc fl :
  (0 < qqrd2e (force lmp))%R -> (0 < fc)%R -> (0 < rsq0)%R ->
  let qq := (rd (q (atom lmp)) i * rd (q (atom lmp)) j)%R in
  (forall (p : Debye.PairCoulDebyeOMP R A),
      (0 <= Debye.kappa p)%R ->
      exists c e, (0 < c)%R /\ (0 < e)%R
        /\ snd (Debye.single p lmp i j itype jtype rsq0 fc fl) = (qq * c)%R
        /\ fst (Debye.single p lmp i j itype jtype rsq0 fc fl) = (qq * e)%R)
  /\ (forall (p : Diel.PairCoulDielOMP R A),
      (52 / 10 < Diel.eps_s p)%R ->
      Diel.a_eps p = (1 / 2 * (52 / 10 + Diel.eps_s p))%R ->
      Diel.b_eps p = (1 / 2 * (Diel.eps_s p - 52 / 10))%R ->
      (0 < Diel.sigmae p itype jtype)%R ->
      exists c, (0 < c)%R
        /\ snd (Diel.single p lmp i j itype jtype rsq0 fc fl) = (qq * c)%R).
Proof.
  intros Hq Hf Hr qq. subst qq.
  pose proof (sqrt_lt_R0 rsq0 Hr) as Hs.
  pose proof (sqrt_sqrt rsq0 (Rlt_le _ _ Hr)) as Hss.
  set (r := R_sqrt.sqrt rsq0) in *.
  split.
  - intros p Hk.
    pose proof (exp_pos (- Debye.kappa p * r)) as He.
    assert (Hkr : (0 < Debye.kappa p + 1 / r)%R).
    { assert (0 < 1 / r)%R by (apply Rdiv_lt_0_compat; lra). lra. }
    assert (Hinv : (0 < 1 / rsq0)%R) by (apply Rdiv_lt_0_compat; lra).
    assert (Hrinv : (0 < 1 / r)%R) by (apply Rdiv_lt_0_compat; lra).
    exists (fc * qqrd2e (force lmp) * Rtrigo_def.exp (- Debye.kappa p * r)
            * (Debye.kappa p + 1 / r) * (1 / rsq0))%R,
           (fc * qqrd2e (force lmp) * (1 / r)
            * Rtrigo_def.exp (- Debye.kappa p * r))%R.
    split; [|split; [|split]].
    + apply Rmult_lt_0_compat; [|exact Hinv].
      apply Rmult_lt_0_compat; [|exact Hkr].
      apply Rmult_lt_0_compat; [|exact He].
      apply Rmult_lt_0_compat; assumption.
    + apply Rmult_lt_0_compat; [|exact He].
      apply Rmult_lt_0_compat; [|exact Hrinv].
      apply Rmult_lt_0_compat; assumption.
    + unfold Debye.single.
      cbn [snd dmul ddiv dadd dneg dsqrt dexp d_one DoubleR]. fold r. ring.
    + unfold Debye.single.
      cbn [fst dmul ddiv dadd dneg dsqrt dexp d_one DoubleR]. fold r. ring.
  - intros p Heps Ha Hb Hsig.
    set (th := Rtrigo_def.tanh ((r - Diel.rme p itype jtype)
                                / Diel.sigmae p itype jtype)).
    pose proof (tanh_bounds ((r - Diel.rme p itype jtype)
                             / Diel.sigmae p itype jtype)) as [Hlo Hhi].
    fold th in Hlo, Hhi.
    set (epsr := (Diel.a_eps p + Diel.b_eps p * th)%R).
    set (depsdr := (Diel.b_eps p * (1 - th * th) / Diel.sigmae p itype jtype)%R).
    assert (Hb0 : (0 < Diel.b_eps p)%R) by lra.
    assert (He1 : (52 / 10 < epsr)%R) by (subst epsr; rewrite Ha, Hb; nra).
    assert (He2 : (epsr < Diel.eps_s p)%R) by (subst epsr; rewrite Ha, Hb; nra).
    assert (Hd : (0 <= depsdr)%R).
    { subst depsdr. apply Rmult_le_pos.
      - apply Rmult_le_pos; [lra | nra].
      - left. now apply Rinv_0_lt_compat. }
    assert (Hg : (0 < Diel.eps_s p * (epsr + r * depsdr) / epsr / epsr - 1)%R).
    { assert (Hrd : (0 <= r * depsdr)%R) by (apply Rmult_le_pos; lra).
      assert (Hx : (epsr * epsr < Diel.eps_s p * (epsr + r * depsdr))%R) by nra.
      assert (Hee : (0 < epsr * epsr)%R) by nra.
      replace (Diel.eps_s p * (epsr + r * depsdr) / epsr / epsr - 1)%R
        with ((Diel.eps_s p * (epsr + r * depsdr) - epsr * epsr)
              * / (epsr * epsr))%R by (field; lra).
      apply Rmult_lt_0_compat; [lra | now apply Rinv_0_lt_compat]. }
    exists (fc * (qqrd2e (force lmp)
                  * (Diel.eps_s p * (epsr + r * depsdr) / epsr / epsr - 1)
                  / rsq0) / r)%R.
    split.
    + apply Rdiv_lt_0_compat; [|exact Hs].
      apply Rmult_lt_0_compat; [exact Hf|].
      apply Rdiv_lt_0_compat; [|exact Hr].
      apply Rmult_lt_0_compat; assumption.
    + unfold Diel.single.
      cbn [snd dmul ddiv dadd dsub dneg dsqrt dtanh d_one DoubleR].
      fold r th epsr depsdr. field. repeat split; lra.
Qed.

Lemma force_has_the_sign_of_the_charges_witness :
  exists c : R,
    (0 < c)%R
    /\ snd (Debye.single debyeR two_atoms 0 1 1 1 1%R 1%R 0%R)
       = (rd (q (atom two_atoms)) 0 * rd (q (atom two_atoms)) 1 * c)%R.
Proof.
  destruct (force_has_the_sign_of_the_charges (A := list (Tallied R))
              two_atoms 0 1 1 1 1%R 1%R 0%R) as [Hd _];
    [cbn; lra | lra | lra |].
  destruct (Hd debyeR) as (c & e & Hc & _ & Hs & _).
  - change (Debye.kappa debyeR) with (1 / 2)%R. lra.
  - exists c. split; assumption.
Defined.

(** * The dielectric kernel and the column it indexes *)

(** The factor of the dielectric force is positive when the dielectric
    constant exceeds 5.2, [a_eps] and [b_eps] are what [coeff] computes,
    [sigmae] is positive, and [th] is a value of [tanh]. *)
Lemma diel_force_factor_pos eps_s sigmae r th :
  (52 / 10 < eps_s)%R -> (0 < sigmae)%R -> (0 <= r)%R -> (-1 < th < 1)%R ->
  let a := (1 / 2 * (52 / 10 + eps_s))%R in
  let b := (1 / 2 * (eps_s - 52 / 10))%R in
  let epsr := (a + b * th)%R in
  let depsdr := (b * (1 - th * th) / sigmae)%R in
  (0 < eps_s * (epsr + r * depsdr) / epsr / epsr - 1)%R.
Proof.
  intros Heps Hsig Hr [Hlo Hhi] a b epsr depsdr.
  assert (Hb0 : (0 < b)%R) by (subst b; lra).
  assert (He1 : (52 / 10 < epsr)%R) by (subst epsr a b; nra).
  assert (He2 : (epsr < eps_s)%R) by (subst epsr a b; nra).
  assert (Hd : (0 <= depsdr)%R).
  { subst depsdr. apply Rmult_le_pos.
    - apply Rmult_le_pos; [lra | nra].
    - left. now apply Rinv_0_lt_compat. }
  assert (Hrd : (0 <= r * depsdr)%R) by (apply Rmult_le_pos; lra).
  assert (Hx : (epsr * epsr < eps_s * (epsr + r * depsdr))%R) by nra.
  assert (Hee : (0 < epsr * epsr)%R) by nra.
  replace (eps_s * (epsr + r * depsdr) / epsr / epsr - 1)%R
    with ((eps_s * (epsr + r * depsdr) - epsr * epsr) * / (epsr * epsr))%R
    by (field; lra).
  apply Rmult_lt_0_compat; [lra | now apply Rinv_0_lt_compat].
Qed.

Lemma two_atoms_two_types_rsq : rsq two_atoms_two_types 0 1 = 1%R.
Proof. runR. lra. Qed.

(** The force of the pair of [two_atoms_two_types], for the entries of the
    type pair (1,1): the charges are +1 and -1, and it is negative. *)
Lemma diel_two_cutoffs_fpair :
  (snd (Diel.single diel_two_cutoffs two_atoms_two_types 0 1 1 1
          (rsq two_atoms_two_types 0 1) (factor two_atoms_two_types 0 0) 0%R)
   < 0)%R.
Proof.
  rewrite two_atoms_two_types_rsq.
  change (factor two_atoms_two_types 0 0) with 1%R.
  unfold Diel.single.
  change (rd (q (atom two_atoms_two_types)) 0) with 1%R.
  change (rd (q (atom two_atoms_two_types)) 1) with (-1)%R.
  change (qqrd2e (force two_atoms_two_types)) with 1%R.
  change (Diel.rme diel_two_cutoffs 1 1) with 2%R.
  change (Diel.sigmae diel_two_cutoffs 1 1) with (1 / 2)%R.
  change (Diel.eps_s diel_two_cutoffs) with 80%R.
  change (Diel.a_eps diel_two_cutoffs) with (1 / 2 * (52 / 10 + 80))%R.
  change (Diel.b_eps diel_two_cutoffs) with (1 / 2 * (80 - 52 / 10))%R.
  cbn [snd dmul ddiv dadd dsub dneg dsqrt dtanh d_one DoubleR].
  rewrite sqrt_1.
  pose proof (diel_force_factor_pos 80 (1 / 2) 1
                (Rtrigo_def.tanh ((1 - 2) / (1 / 2)))
                ltac:(lra) ltac:(lra) ltac:(lra) (tanh_bounds _)) as Hpos.
  cbv zeta in Hpos. revert Hpos.
  generalize (80 * (1 / 2 * (52 / 10 + 80)
                    + 1 / 2 * (80 - 52 / 10) * Rtrigo_def.tanh ((1 - 2) / (1 / 2))
                    + 1 * (1 / 2 * (80 - 52 / 10)
                           * (1 - Rtrigo_def.tanh ((1 - 2) / (1 / 2))
                                  * Rtrigo_def.tanh ((1 - 2) / (1 / 2)))
                           / (1 / 2)))
              / (1 / 2 * (52 / 10 + 80)
                 + 1 / 2 * (80 - 52 / 10) * Rtrigo_def.tanh ((1 - 2) / (1 / 2)))
              / (1 / 2 * (52 / 10 + 80)
                 + 1 / 2 * (80 - 52 / 10) * Rtrigo_def.tanh ((1 - 2) / (1 / 2)))
              - 1)%R.
  intros G HG. lra.
Qed.

(** The iteration of the dielectric kernel for the pair of
    [two_atoms_two_types], when its variable [jtype] holds the column 1, the
    type of the partner, and when it holds the column 2. *)
Lemma diel_two_cutoffs_column_1 EV E N st :
  Diel.thr_f (Diel.eval_pair (H0 := engR) EV E N diel_two_cutoffs
                two_atoms_two_types 0 1 0 st 0)
  = accumulate N 2 (Diel.thr_f st) 0 1
      (delx two_atoms_two_types 0 1) (dely two_atoms_two_types 0 1)
      (delz two_atoms_two_types 0 1)
      (snd (Diel.single diel_two_cutoffs two_atoms_two_types 0 1 1 1
              (rsq two_atoms_two_types 0 1) (factor two_atoms_two_types 0 0)
              0%R)).
Proof.
  rewrite diel_eval_pair_in; [reflexivity|].
  change (partner two_atoms_two_types 0 0) with 1.
  rewrite two_atoms_two_types_rsq. apply Rltb_true.
  change (Diel.cutsq diel_two_cutoffs (rd (type (atom two_atoms_two_types)) 0) 1)
    with 25%R. lra.
Qed.

Lemma diel_two_cutoffs_column_2 EV E N st :
  Diel.eval_pair (H0 := engR) EV E N diel_two_cutoffs two_atoms_two_types
    0 2 0 st 0 = st.
Proof.
  apply diel_eval_pair_out.
  change (partner two_atoms_two_types 0 0) with 1.
  rewrite two_atoms_two_types_rsq. apply Rltb_false.
  change (Diel.cutsq diel_two_cutoffs (rd (type (atom two_atoms_two_types)) 0) 2)
    with (1 / 4)%R. lra.
Qed.

(** The x component of the force on atom 0 after the iteration with the
    column 1, on a buffer of two slots: it has grown. *)
Lemma diel_two_cutoffs_owner_gains EV E N (st : Diel.Thr R (list (Tallied R))) :
  length (Diel.thr_f st) = 2%nat ->
  (v0 (rd (Diel.thr_f st) 0)
   < v0 (rd (Diel.thr_f (Diel.eval_pair (H0 := engR) EV E N diel_two_cutoffs
                           two_atoms_two_types 0 1 0 st 0)) 0))%R.
Proof.
  intros Hlen. rewrite diel_two_cutoffs_column_1.
  rewrite accumulate_owner by (rewrite ?Hlen; lia).
  cbn [v0]. pose proof diel_two_cutoffs_fpair as Hneg.
  change (delx two_atoms_two_types 0 1) with (0 - 1)%R.
  cbn [dadd dmul DoubleR]. nra.
Qed.

(** C4.  The claim fails for the dielectric kernel.  The pair of
    [two_atoms_two_types] is inside the cutoff of its two types (its squared
    separation 1 is below [cutsq[1][1] = 25]).  When the variable [jtype] of
    the kernel, which is never assigned, holds 2, the kernel tests
    [cutsq[1][2] = 0.25] and skips the pair: nothing is added to the owner
    and nothing to the partner.  The force of the pair is not zero: when
    [jtype] holds 1, the type of the partner, the iteration changes the
    owner's slot. *)
Theorem diel_in_cutoff_pair_skipped :
  let lmp := two_atoms_two_types in
  let p := diel_two_cutoffs in
  let kernel jtype :=
    Diel.eval_pair (H0 := engR) true true true p lmp 0 jtype 0 diel_thr0 0 in
  partner lmp 0 0 = 1
  /\ rd (type (atom lmp)) 0 = 1 /\ rd (type (atom lmp)) 1 = 1
  /\ Rltb (rsq lmp 0 1) (Diel.cutsq p 1 1) = true
  /\ kernel 2 = diel_thr0
  /\ rd (Diel.thr_f (kernel 1)) 0 <> rd (Diel.thr_f diel_thr0) 0.
Proof.
  intros lmp p kernel. subst lmp p kernel. cbv beta.
  split; [reflexivity|]. split; [reflexivity|]. split; [reflexivity|].
  split.
  { rewrite two_atoms_two_types_rsq. apply Rltb_true.
    change (Diel.cutsq diel_two_cutoffs 1 1) with 25%R. lra. }
  split; [apply diel_two_cutoffs_column_2|].
  intros Heq.
  pose proof (diel_two_cutoffs_owner_gains true true true diel_thr0 eq_refl)
    as Hlt.
  rewrite Heq in Hlt. lra.
Qed.

(** The force array after [compute] on [two_atoms_two_types], with the
    reference engine and one thread: the buffer of thread 0 after the
    iteration for the one neighbor entry. *)
Lemma diel_two_cutoffs_compute eflag jtype :
  f (atom (snd (Diel.compute (H0 := engR) eflag 0 jtype diel_two_cutoffs
                  two_atoms_two_types)))
  = Diel.thr_f (Diel.eval_pair (H0 := engR) false false true diel_two_cutoffs
                  two_atoms_two_types 0 (jtype 0) 0 diel_thr0 0).
Proof.
  rewrite (proj2 (compute_forces_independent_of_eflag (D := R) (H0 := engR))
             eflag 0 jtype diel_two_cutoffs two_atoms_two_types).
  reflexivity.
Qed.

(** C7.  The claim fails for the dielectric formula.  [compute] with energy
    accounting on and [compute] with energy accounting off are two
    instantiations of the kernel, and each leaves its variable [jtype]
    unassigned.  On [two_atoms_two_types], when the variable holds 1 in the
    run with energy accounting on and 2 in the run with it off, the first
    run accumulates the force of the pair and the second skips the pair: the
    two force arrays differ.  The value of [jtype] is the only cause: two
    runs in which it holds the same value leave the same forces. *)
Theorem diel_forces_differ_between_runs :
  let lmp := two_atoms_two_types in
  let p := diel_two_cutoffs in
  let on := Diel.compute (H0 := engR) 1 0 (fun _ => 1) p lmp in
  let off := Diel.compute (H0 := engR) 0 0 (fun _ => 2) p lmp in
  f (atom (snd off)) = f (atom lmp)
  /\ f (atom (snd on)) <> f (atom (snd off))
  /\ forall jtype,
       f (atom (snd (Diel.compute (H0 := engR) 1 0 jtype p lmp)))
       = f (atom (snd (Diel.compute (H0 := engR) 0 0 jtype p lmp))).
Proof.
  intros lmp p on off. subst lmp p on off.
  rewrite !diel_two_cutoffs_compute. cbv beta.
  rewrite diel_two_cutoffs_column_2.
  split; [reflexivity|]. split.
  - intros Heq.
    pose proof (diel_two_cutoffs_owner_gains false false true diel_thr0 eq_refl)
      as Hlt.
    rewrite Heq in Hlt. lra.
  - intros jtype. now rewrite !diel_two_cutoffs_compute.
Qed.
